(** * Ramp-and-settle controller of [classes.py]

    A shallow embedding of the three plan functions of [classes.py]
    ([ramp_scan], [await_in_band], [_per_step]) and the properties of the
    controller they implement.

    Modelling conventions.
    - Python numbers that are floats in the source are rationals ([Q]) and
      their arithmetic is exact, except where the source truncates a
      quotient with [int()] (lines 96 and 113): there the operands and the
      result are rounded to binary64 ([Binary64]), since rounding moves
      the truncated value by a whole unit.  Python [int] values are [Z].
    - A plan is a computation over a [World]: the simulated clock read by
      [time.time()], the number of reads made so far on each polled signal,
      and the chronological trace of everything the plan did to the
      outside (signal writes, direct reads, sleeps, measurement triggers).
    - The power supply answers reads through two oracles indexed by the
      read count, so that any deterministic device behaviour is covered.
      In the first part every read of the readback returns a finite
      number; module [Full] has the same plans on a device whose reads may
      also raise or return an infinity or NaN, and the first part is its
      restriction to the devices of [lift].
    - The clock advances only in [bps.sleep], by the requested duration.
    - [while True] is unrolled with fuel; running out of fuel is the
      separate outcome [OutOfFuel], never confused with a result. *)

From Stdlib Require Import ZArith QArith Qabs Qround Qpower List Lia Lqa Bool
  String SpecFloat.
Import ListNotations.

Local Open Scope Q_scope.

(** ** Python numeric helpers *)

Module Py.

(** [x > y] on floats. *)
Definition Qgt_bool (x y : Q) : bool := negb (Qle_bool x y).

(** [int(x)] on a float: truncation toward zero. *)
Definition int (x : Q) : Z := Z.quot (Qnum x) (Z.pos (Qden x)).

(** [math.ceil], used only to state what the code does not compute. *)
Definition ceil (x : Q) : Z := Qceiling x.

(** [math.floor]. *)
Definition floor (x : Q) : Z := Qfloor x.

End Py.

(** ** Binary64 rounding

    [int()] truncates, so a quotient that the exact arithmetic puts on an
    integer can land on either side of it once rounded:
    [0.3/0.1 = 2.9999999999999996] and [int] of it is [2].  Where the source
    truncates a quotient (lines 96 and 113) the operands and the result are
    therefore rounded as Python does: to the nearest number with 53
    significant bits, ties to the even significand ([b64_idem] and
    [b64_nearest] below).  The exponent range is not bounded (overflow and
    subnormal numbers are outside the model). *)

Module Binary64.

(** [floor(log2 x)] for [0 < x]. *)
Definition ilog2 (x : Q) : Z :=
  let l := (Z.log2 (Qnum x) - Z.log2 (Z.pos (Qden x)))%Z in
  if Qle_bool (2 ^ l) x then l else (l - 1)%Z.

(** Nearest integer, ties to even. *)
Definition rne (y : Q) : Z :=
  let f := Qfloor y in
  match Qcompare (y - inject_Z f) (1 # 2) with
  | Lt => f
  | Gt => (f + 1)%Z
  | Eq => if Z.even f then f else (f + 1)%Z
  end.

(** The double nearest to [x]: the significand of [|x|] scaled into
    [[2^52, 2^53)] and rounded. *)
Definition b64 (x : Q) : Q :=
  if Qeq_bool x 0 then 0
  else
    let e := (ilog2 (Qabs x) - 52)%Z in
    let m := rne (Qabs x / 2 ^ e) in
    (if Qle_bool 0 x then 1 else -1) * (inject_Z m * 2 ^ e).

(** [b64] on a positive number. *)
Definition b64p (x : Q) : Q :=
  inject_Z (rne (x / 2 ^ (ilog2 x - 52))) * 2 ^ (ilog2 x - 52).

(** [x - y] and [x / y] on floats; a decimal argument such as [3 # 10]
    stands for the double Python holds for [0.3]. *)
Definition fsub (x y : Q) : Q := b64 (b64 x - b64 y).

Definition fdiv (x y : Q) : Q := b64 (b64 x / b64 y).

(** [x] is (the value of) a double. *)
Definition is_b64 (x : Q) : Prop := b64 x == x.

(** The largest double below 1. *)
Definition below_one : Q := inject_Z (2 ^ 53 - 1) * 2 ^ (-53).

(** The value of a finite float of the Standard Library's IEEE 754
    specification, against which [fdiv] and [fsub] are checked below. *)
Definition SF2Q (f : spec_float) : Q :=
  match f with
  | S754_finite s m e => (if s then -1 else 1) * (inject_Z (Z.pos m) * 2 ^ e)
  | _ => 0
  end.

(** The doubles Python holds for 0.1, 0.2, 0.3 and 0.5. *)
Definition d01 : spec_float := S754_finite false 7205759403792794 (-56).
Definition d02 : spec_float := S754_finite false 7205759403792794 (-55).
Definition d03 : spec_float := S754_finite false 5404319552844595 (-54).
Definition d05 : spec_float := S754_finite false 4503599627370496 (-53).

End Binary64.
Import Binary64.

(** ** Exceptions, outcomes and the plan monad *)

Inductive Exn : Type :=
| ZeroDivisionError
| TypeError (unexpected_keyword : string)
| ReadError (s : string)
| WriteError (s : string)
| TimeoutError (tol target : Q).
    (* the message is [f"rdCur non entro ±{tol} A da {target}"] *)

Inductive Outcome (A : Type) : Type :=
| Done (a : A)
| Raised (e : Exn)
| OutOfFuel.
Arguments Done {A} a.
Arguments Raised {A} e.
Arguments OutOfFuel {A}.

(** The signals of [PowerSupply] the plans touch. *)
Inductive Signal : Type := cmdPwrOn | wrCurRamp | rdCur | rdCurSlewRate.

Definition Signal_eqb (a b : Signal) : bool :=
  match a, b with
  | cmdPwrOn, cmdPwrOn | wrCurRamp, wrCurRamp
  | rdCur, rdCur | rdCurSlewRate, rdCurSlewRate => true
  | _, _ => false
  end.

Inductive Event : Type :=
| EvPut (s : Signal) (v : Q)      (* [bps.mv(s, v)] *)
| EvGet (s : Signal)              (* [s.get()] *)
| EvSleep (d : Q)                 (* [bps.sleep(d)] *)
| EvTriggerAndRead.               (* [bps.trigger_and_read(...)] *)

Record World : Type := mkWorld {
  now : Q;                 (* value of [time.time()] *)
  cur_reads : nat;         (* reads of [rdCur] made so far *)
  slew_reads : nat;        (* reads of [rdCurSlewRate] made so far *)
  trace : list Event       (* oldest first *)
}.

(** The device as the plans observe it: the n-th read of [rdCur] and of
    [rdCurSlewRate]; [None] is a read that raises.  Readings are finite
    numbers here; [Full.PowerSupply] below drops that. *)
Record PowerSupply : Type := mkPS {
  rdCur_get : nat -> Q;
  rdCurSlewRate_get : nat -> option Q
}.

Definition Plan (A : Type) : Type := World -> Outcome A * World.

Definition ret {A} (a : A) : Plan A := fun w => (Done a, w).

Definition raise {A} (e : Exn) : Plan A := fun w => (Raised e, w).

Definition diverge {A} : Plan A := fun w => (OutOfFuel, w).

Definition bind {A B} (m : Plan A) (k : A -> Plan B) : Plan B :=
  fun w =>
    match m w with
    | (Done a, w') => k a w'
    | (Raised e, w') => (Raised e, w')
    | (OutOfFuel, w') => (OutOfFuel, w')
    end.

Declare Scope plan_scope.
Delimit Scope plan_scope with plan.
Notation "x <- m ;; k" := (bind m (fun x => k))
  (at level 61, m at next level, right associativity) : plan_scope.
Notation "m ;; k" := (bind m (fun _ => k))
  (at level 61, right associativity) : plan_scope.
Local Open Scope plan_scope.

(** [try: body except Exception: handler]. *)
Definition try_except {A} (body : Plan A) (handler : Plan A) : Plan A :=
  fun w =>
    match body w with
    | (Raised _, w') => handler w'
    | r => r
    end.

(** ** What a plan can do to the outside *)

Definition log (e : Event) : Plan unit :=
  fun w => (Done tt, mkWorld (now w) (cur_reads w) (slew_reads w) (trace w ++ [e])).

(** [x / y] on Python numbers, where the quotient is used as it is. *)
Definition py_div (x y : Q) : Plan Q :=
  if Qeq_bool y 0 then raise ZeroDivisionError else ret (x / y).

(** [x / y] on floats where the quotient goes on to [int()]: the binary64
    quotient. *)
Definition float_div (x y : Q) : Plan Q :=
  if Qeq_bool y 0 then raise ZeroDivisionError else ret (fdiv x y).

Definition time_time : Plan Q := fun w => (Done (now w), w).

(** [yield from bps.sleep(d)]: the run engine suspends the plan for [d]
    seconds (not at all for a negative [d]). *)
Definition slept (d : Q) : Q := if Qle_bool 0 d then d else 0.

Definition bps_sleep (d : Q) : Plan unit :=
  fun w =>
    (Done tt,
     mkWorld (now w + slept d) (cur_reads w) (slew_reads w)
             (trace w ++ [EvSleep d])).

(** [yield from bps.mv(s, v)]. *)
Definition bps_mv (s : Signal) (v : Q) : Plan unit := log (EvPut s v).

(** [yield from bps.trigger_and_read(devices)]. *)
Definition bps_trigger_and_read : Plan unit := log EvTriggerAndRead.

(** [float(ps.rdCur.get())] on a device whose read returns a finite
    number ([Full.read_rdCur] is the read that may raise or return any
    float). *)
Definition read_rdCur (ps : PowerSupply) : Plan Q :=
  fun w =>
    (Done (rdCur_get ps (cur_reads w)),
     mkWorld (now w) (S (cur_reads w)) (slew_reads w) (trace w ++ [EvGet rdCur])).

(** [float(ps.rdCurSlewRate.get())]; raising is caught by the only caller,
    so the exception raised is immaterial. *)
Definition read_rdCurSlewRate (ps : PowerSupply) : Plan Q :=
  fun w =>
    let w' := mkWorld (now w) (cur_reads w) (S (slew_reads w))
                      (trace w ++ [EvGet rdCurSlewRate]) in
    match rdCurSlewRate_get ps (slew_reads w) with
    | Some s => (Done s, w')
    | None => (Raised (ReadError "rdCurSlewRate"), w')
    end.

(** ** [await_in_band] (lines 111-121) *)

Section AwaitInBand.

Variable ps : PowerSupply.
Variables target tol dwell stable_time max_time : Q.

(** [need = max(1, int(stable_time/dwell))], given the quotient. *)
Definition need_of (q : Q) : Z := Z.max 1 (Py.int q).

(** [ok = ok+1 if err <= tol else 0]. *)
Definition next_ok (ok : Z) (err : Q) : Z :=
  if Qle_bool err tol then (ok + 1)%Z else 0%Z.

(** The [while True] loop; [ok] and [t0] are the loop's locals. *)
Fixpoint await_loop (fuel : nat) (need ok : Z) (t0 : Q) : Plan unit :=
  match fuel with
  | O => diverge
  | S fuel' =>
      r <- read_rdCur ps ;;
      let err := Qabs (r - target) in
      let ok := next_ok ok err in
      if (need <=? ok)%Z then ret tt
      else
        t <- time_time ;;
        if Py.Qgt_bool (t - t0) max_time
        then raise (TimeoutError tol target)
        else bps_sleep dwell ;; await_loop fuel' need ok t0
  end.

Definition await_in_band (fuel : nat) : Plan unit :=
  q <- float_div stable_time dwell ;;
  let need := need_of q in
  t0 <- time_time ;;
  await_loop fuel need 0%Z t0.

End AwaitInBand.

(** ** Keyword arguments and defaults *)

Definition Kwargs : Type := list (string * Q).

Fixpoint kw_lookup (name : string) (kw : Kwargs) : option Q :=
  match kw with
  | [] => None
  | (n, v) :: rest => if String.eqb n name then Some v else kw_lookup name rest
  end.

(** First keyword of the call that the signature does not declare. *)
Fixpoint unexpected (params kw : Kwargs) : option string :=
  match kw with
  | [] => None
  | (n, _) :: rest =>
      match kw_lookup n params with
      | Some _ => unexpected params rest
      | None => Some n
      end
  end.

(** Value a parameter is bound to: the keyword given, else the default. *)
Definition arg (params kw : Kwargs) (name : string) : Q :=
  match kw_lookup name kw with
  | Some v => v
  | None => match kw_lookup name params with Some d => d | None => 0 end
  end.

(** [def await_in_band(ps, target, tol=0.02, dwell=0.1, stable_time=0.4,
    max_time=10)]. *)
Definition await_in_band_params : Kwargs :=
  [("tol", 2 # 100); ("dwell", 1 # 10); ("stable_time", 4 # 10);
   ("max_time", 10)]%string.

Definition call_await_in_band (ps : PowerSupply) (target : Q) (kw : Kwargs)
    (fuel : nat) : Plan unit :=
  match unexpected await_in_band_params kw with
  | Some n => raise (TypeError n)
  | None =>
      let a := arg await_in_band_params kw in
      await_in_band ps target (a "tol") (a "dwell") (a "stable_time")
                    (a "max_time") fuel
  end%string.

(** ** [_per_step] (lines 123-140) *)

(** Lines 127-132: the slew read with its fallback. *)
Definition read_slew_or_default (ps : PowerSupply) : Plan Q :=
  try_except
    (slew <- read_rdCurSlewRate ps ;;
     if Qle_bool slew 0 then ret (1 # 10) else ret slew)
    (ret (1 # 10)).

Definition _per_step (motor : Signal) (step : Q) (ps : PowerSupply)
    (pre_wait_s hold_s tol base_timeout : Q) (fuel : nat) : Plan unit :=
  bps_sleep pre_wait_s ;;
  bps_mv motor step ;;
  slew <- read_slew_or_default ps ;;
  last <- read_rdCur ps ;;
  q <- py_div (Qabs (step - last)) slew ;;
  let dyn_to := base_timeout + q + 2 in
  call_await_in_band ps step [("tol", tol); ("max_time", dyn_to)]%string fuel ;;
  bps_sleep hold_s ;;
  bps_trigger_and_read.

(** ** [ramp_scan] (lines 95-108) *)

(** [numpy.linspace(start, stop, num)], the points [bluesky.plans.scan]
    visits. *)
Definition linspace (start stop : Q) (num : Z) : list Q :=
  let div := (num - 1)%Z in
  let delta := stop - start in
  map (fun i =>
         let k := inject_Z (Z.of_nat i) in
         if (0 <? div)%Z then start + k * (delta / inject_Z div)
         else start + k * delta)
      (seq 0 (Z.to_nat num)).

(** The loop of [scan]: [per_step] once per point, in order; an exception
    leaves the loop. *)
Fixpoint scan_loop (per_step : Q -> Plan unit) (points : list Q) : Plan unit :=
  match points with
  | [] => ret tt
  | p :: rest => per_step p ;; scan_loop per_step rest
  end.

(** [scan(detectors, motor, start, stop, num, per_step=...)] of bluesky;
    the run bookkeeping (staging, open and close of the run) touches none
    of the supply's signals and is left out of the trace. *)
Definition scan (motor : Signal) (start stop : Q) (num : Z)
    (per_step : Signal -> Q -> Plan unit) : Plan unit :=
  scan_loop (per_step motor) (linspace start stop num).

(** [custom = partial(_per_step, ps=ps, pre_wait_s=pre_wait_s, ...)]. *)
Definition custom (ps : PowerSupply) (pre_wait_s hold_s tol base_timeout : Q)
    (fuel : nat) (motor : Signal) (step : Q) : Plan unit :=
  _per_step motor step ps pre_wait_s hold_s tol base_timeout fuel.

Definition ramp_scan (ps : PowerSupply) (start stop step : Q)
    (pre_wait_s hold_s tol base_timeout : Q) (fuel : nat) : Plan unit :=
  q <- float_div (fsub stop start) step ;;
  let npts := (Py.int (Qabs q) + 1)%Z in
  bps_mv cmdPwrOn 1 ;;
  scan wrCurRamp start stop npts
       (custom ps pre_wait_s hold_s tol base_timeout fuel).

(** [def ramp_scan(ps, start, stop, step, pre_wait_s=3, hold_s=2, tol=0.02,
    base_timeout=5)]. *)
Definition ramp_scan_params : Kwargs :=
  [("pre_wait_s", 3); ("hold_s", 2); ("tol", 2 # 100);
   ("base_timeout", 5)]%string.

Definition call_ramp_scan (ps : PowerSupply) (start stop step : Q)
    (kw : Kwargs) (fuel : nat) : Plan unit :=
  match unexpected ramp_scan_params kw with
  | Some n => raise (TypeError n)
  | None =>
      let a := arg ramp_scan_params kw in
      ramp_scan ps start stop step (a "pre_wait_s") (a "hold_s") (a "tol")
                (a "base_timeout") fuel
  end%string.

(** The setpoints [ramp_scan] hands to [scan], or the error that prevents
    it. *)
Definition setpoints (start stop step : Q) : Exn + list Q :=
  if Qeq_bool step 0 then inl ZeroDivisionError
  else inr (linspace start stop
                     (Py.int (Qabs (fdiv (fsub stop start) step)) + 1)).

(** ** Reading traces and worlds *)

(** The values written to a signal, in order. *)
Definition puts_to (s : Signal) (tr : list Event) : list Q :=
  flat_map (fun e => match e with
                     | EvPut s' v => if Signal_eqb s s' then [v] else []
                     | _ => []
                     end) tr.

Definition is_trigger (e : Event) : bool :=
  match e with EvTriggerAndRead => true | _ => false end.

(** Events of the polling loop: reads of the readback and dwell sleeps. *)
Definition is_poll (dwell : Q) (e : Event) : Prop :=
  e = EvGet rdCur \/ e = EvSleep dwell.

Definition n_triggers (tr : list Event) : nat :=
  List.length (filter is_trigger tr).

(** What a step adds to the trace after its polling, by outcome: the hold
    sleep and the measurement only when the step completes. *)
Definition step_tail (hold_s : Q) (out : Outcome unit) : list Event :=
  match out with
  | Done _ => [EvSleep hold_s; EvTriggerAndRead]
  | _ => []
  end.

Definition w0 : World := mkWorld 0 0 0 [].

(** The slew rate [_per_step] ends up with, given what the read returned
    ([None]: the read raised). *)
Definition slew_used (reading : option Q) : Q :=
  match reading with
  | Some s => if Qle_bool s 0 then 1 # 10 else s
  | None => 1 # 10
  end.

(** The spec's Dynamic Timeout Calculator:
    [base_timeout + |target - previous_readback| / slew_rate + safety_margin]
    with [safety_margin = 2.0]. *)
Definition spec_timeout (base_timeout target previous_readback slew_rate : Q)
    : Q :=
  base_timeout + Qabs (target - previous_readback) / slew_rate + 2.

(** The world in which [_per_step] enters the waiter: after the pre-wait,
    the setpoint write and the reads of the slew rate and of the
    readback. *)
Definition at_waiter (motor : Signal) (step pre_wait_s : Q) (w : World)
    : World :=
  mkWorld (now w + slept pre_wait_s) (S (cur_reads w)) (S (slew_reads w))
          (trace w ++ [EvSleep pre_wait_s; EvPut motor step;
                       EvGet rdCurSlewRate; EvGet rdCur]).

(** What is left of a step once the waiter is entered with [max_time]. *)
Definition settle_and_measure (ps : PowerSupply) (step tol max_time hold_s : Q)
    (fuel : nat) : Plan unit :=
  await_in_band ps step tol (1 # 10) (4 # 10) max_time fuel ;;
  bps_sleep hold_s ;;
  bps_trigger_and_read.

(** A supply that has settled on [v] and reports slew rate [s]. *)
Definition steady (v s : Q) : PowerSupply := mkPS (fun _ => v) (fun _ => Some s).

(** ** The plans on an arbitrary device

    Above, every read of the readback returns a finite number.  A real
    read can also raise (the signal is disconnected, the value is not a
    number) or return an infinity or NaN.  [Full] holds the same three
    plans on a device whose reads do any of these; [lift] embeds the
    devices above, on which the plans of [Full] are those above
    (lemma [lift_per_step] and its neighbours).  Arguments of the plans
    stay finite numbers. *)

Module Full.

(** A Python float. *)
Inductive Float : Type :=
| Fin (q : Q)
| PInf
| NInf
| NaN.

(** [x <= y]: false as soon as one side is NaN. *)
Definition fl_le (x y : Float) : bool :=
  match x, y with
  | NaN, _ | _, NaN => false
  | Fin a, Fin b => Qle_bool a b
  | NInf, _ => true
  | _, PInf => true
  | _, _ => false
  end.

(** [x > y]: false as soon as one side is NaN. *)
Definition fl_gt (x y : Float) : bool :=
  match x, y with
  | NaN, _ | _, NaN => false
  | Fin a, Fin b => Py.Qgt_bool a b
  | PInf, PInf => false
  | PInf, _ => true
  | NInf, _ => false
  | Fin _, NInf => true
  | Fin _, PInf => false
  end.

Definition fl_sub (x y : Float) : Float :=
  match x, y with
  | NaN, _ | _, NaN => NaN
  | Fin a, Fin b => Fin (a - b)
  | PInf, PInf | NInf, NInf => NaN
  | PInf, _ => PInf
  | NInf, _ => NInf
  | Fin _, PInf => NInf
  | Fin _, NInf => PInf
  end.

Definition fl_add (x y : Float) : Float :=
  match x, y with
  | NaN, _ | _, NaN => NaN
  | Fin a, Fin b => Fin (a + b)
  | PInf, NInf | NInf, PInf => NaN
  | PInf, _ | _, PInf => PInf
  | NInf, _ | _, NInf => NInf
  end.

Definition fl_abs (x : Float) : Float :=
  match x with
  | Fin a => Fin (Qabs a)
  | PInf | NInf => PInf
  | NaN => NaN
  end.

(** The value of [x / y]; [None] when Python raises [ZeroDivisionError],
    which it does for a zero divisor whatever the dividend. *)
Definition fl_quot (x y : Float) : option Float :=
  match y with
  | Fin b =>
      if Qeq_bool b 0 then None
      else Some match x with
                | Fin a => Fin (a / b)
                | PInf => if Qle_bool 0 b then PInf else NInf
                | NInf => if Qle_bool 0 b then NInf else PInf
                | NaN => NaN
                end
  | PInf | NInf => Some match x with Fin _ => Fin 0 | _ => NaN end
  | NaN => Some NaN
  end.

(** [x / y]. *)
Definition fl_div (x y : Float) : Plan Float :=
  match fl_quot x y with
  | Some q => ret q
  | None => raise ZeroDivisionError
  end.

(** The device: the n-th read of each signal returns a float or raises
    ([None]). *)
Record PowerSupply : Type := mkPS {
  rdCur_get : nat -> option Float;
  rdCurSlewRate_get : nat -> option Float
}.

(** [float(ps.rdCur.get())]. *)
Definition read_rdCur (ps : PowerSupply) : Plan Float :=
  fun w =>
    let w' := mkWorld (now w) (S (cur_reads w)) (slew_reads w)
                      (trace w ++ [EvGet rdCur]) in
    match rdCur_get ps (cur_reads w) with
    | Some r => (Done r, w')
    | None => (Raised (ReadError "rdCur"), w')
    end.

(** [float(ps.rdCurSlewRate.get())]. *)
Definition read_rdCurSlewRate (ps : PowerSupply) : Plan Float :=
  fun w =>
    let w' := mkWorld (now w) (cur_reads w) (S (slew_reads w))
                      (trace w ++ [EvGet rdCurSlewRate]) in
    match rdCurSlewRate_get ps (slew_reads w) with
    | Some s => (Done s, w')
    | None => (Raised (ReadError "rdCurSlewRate"), w')
    end.

(** [await_in_band] (lines 111-121); [max_time] is whatever float
    [_per_step] computed. *)
Section AwaitInBand.

Variable ps : PowerSupply.
Variables target tol dwell stable_time : Q.
Variable max_time : Float.

Definition next_ok (ok : Z) (err : Float) : Z :=
  if fl_le err (Fin tol) then (ok + 1)%Z else 0%Z.

Fixpoint await_loop (fuel : nat) (need ok : Z) (t0 : Q) : Plan unit :=
  match fuel with
  | O => diverge
  | S fuel' =>
      r <- read_rdCur ps ;;
      let err := fl_abs (fl_sub r (Fin target)) in
      let ok := next_ok ok err in
      if (need <=? ok)%Z then ret tt
      else
        t <- time_time ;;
        if fl_gt (Fin (t - t0)) max_time
        then raise (TimeoutError tol target)
        else bps_sleep dwell ;; await_loop fuel' need ok t0
  end.

Definition await_in_band (fuel : nat) : Plan unit :=
  q <- float_div stable_time dwell ;;
  let need := need_of q in
  t0 <- time_time ;;
  await_loop fuel need 0%Z t0.

End AwaitInBand.

(** Lines 127-132. *)
Definition read_slew_or_default (ps : PowerSupply) : Plan Float :=
  try_except
    (slew <- read_rdCurSlewRate ps ;;
     if fl_le slew (Fin 0) then ret (Fin (1 # 10)) else ret slew)
    (ret (Fin (1 # 10))).

(** [_per_step] (lines 123-140); the waiter is called with [tol] and
    [max_time], its other parameters at their defaults. *)
Definition _per_step (motor : Signal) (step : Q) (ps : PowerSupply)
    (pre_wait_s hold_s tol base_timeout : Q) (fuel : nat) : Plan unit :=
  bps_sleep pre_wait_s ;;
  bps_mv motor step ;;
  slew <- read_slew_or_default ps ;;
  last <- read_rdCur ps ;;
  q <- fl_div (fl_abs (fl_sub (Fin step) last)) slew ;;
  let dyn_to := fl_add (fl_add (Fin base_timeout) q) (Fin 2) in
  let a := arg await_in_band_params [("tol", tol)]%string in
  await_in_band ps step (a "tol"%string) (a "dwell"%string)
                (a "stable_time"%string) dyn_to fuel ;;
  bps_sleep hold_s ;;
  bps_trigger_and_read.

Definition custom (ps : PowerSupply) (pre_wait_s hold_s tol base_timeout : Q)
    (fuel : nat) (motor : Signal) (step : Q) : Plan unit :=
  _per_step motor step ps pre_wait_s hold_s tol base_timeout fuel.

(** [ramp_scan] (lines 95-108). *)
Definition ramp_scan (ps : PowerSupply) (start stop step : Q)
    (pre_wait_s hold_s tol base_timeout : Q) (fuel : nat) : Plan unit :=
  q <- float_div (fsub stop start) step ;;
  let npts := (Py.int (Qabs q) + 1)%Z in
  bps_mv cmdPwrOn 1 ;;
  scan wrCurRamp start stop npts
       (custom ps pre_wait_s hold_s tol base_timeout fuel).

(** The slew rate [_per_step] ends up with, given what the read returned
    ([None]: the read raised). *)
Definition slew_used (reading : option Float) : Float :=
  match reading with
  | Some s => if fl_le s (Fin 0) then Fin (1 # 10) else s
  | None => Fin (1 # 10)
  end.

(** What is left of a step once the waiter is entered with [max_time]. *)
Definition settle_and_measure (ps : PowerSupply) (step tol : Q)
    (max_time : Float) (hold_s : Q) (fuel : nat) : Plan unit :=
  await_in_band ps step tol (1 # 10) (4 # 10) max_time fuel ;;
  bps_sleep hold_s ;;
  bps_trigger_and_read.


End Full.

(** A device whose readback reads all return finite numbers, as a device
    of [Full]. *)
Definition lift (ps : PowerSupply) : Full.PowerSupply :=
  Full.mkPS (fun n => Some (Full.Fin (rdCur_get ps n)))
            (fun n => option_map Full.Fin (rdCurSlewRate_get ps n)).

(** A supply stuck at [v] whose slew-rate read returns NaN. *)
Definition nan_slew (v : Q) : Full.PowerSupply :=
  Full.mkPS (fun _ => Some (Full.Fin v)) (fun _ => Some Full.NaN).

(** ** The polling loop, sample by sample *)

Definition Qnat (n : nat) : Q := inject_Z (Z.of_nat n).

Section PollingModel.

Variable ps : PowerSupply.
Variables target tol dwell max_time : Q.
Variable need : Z.
Variable t0 : Q.

(** Error of the [k]-th read of [rdCur] and whether it is in band. *)
Definition err_at (k : nat) : Q := Qabs (rdCur_get ps k - target).

Definition in_band (k : nat) : bool := Qle_bool (err_at k) tol.

(** Value of [ok] after [n] more samples, the first one being read number
    [base], when it was [ok0] before them. *)
Fixpoint count_after (base : nat) (ok0 : Z) (n : nat) : Z :=
  match n with
  | O => ok0
  | S n' => count_after (S base) (next_ok tol ok0 (err_at base)) n'
  end.

(** Events of [n] iterations that went on to the next one. *)
Fixpoint poll_trace (n : nat) : list Event :=
  match n with
  | O => []
  | S n' => EvGet rdCur :: EvSleep dwell :: poll_trace n'
  end.

(** The iteration that takes sample [i] after world [w] neither succeeds
    nor times out. *)
Definition goes_on (w : World) (ok0 : Z) (i : nat) : Prop :=
  (count_after (cur_reads w) ok0 (S i) < need)%Z /\
  now w + Qnat i * slept dwell - t0 <= max_time.

Definition after_read (w : World) : World :=
  mkWorld (now w) (S (cur_reads w)) (slew_reads w) (trace w ++ [EvGet rdCur]).

Definition after_sleep (w : World) : World :=
  mkWorld (now w + slept dwell) (cur_reads w) (slew_reads w)
          (trace w ++ [EvSleep dwell]).

End PollingModel.

(** Events of a completed step at setpoint [p] whose waiter polled
    [polls]. *)
Definition step_events (pre_wait_s hold_s p : Q) (polls : list Event)
    : list Event :=
  [EvSleep pre_wait_s; EvPut wrCurRamp p; EvGet rdCurSlewRate; EvGet rdCur]
  ++ polls ++ [EvSleep hold_s; EvTriggerAndRead].

(** Events of a completed scan loop over [pts], step by step. *)
Definition scan_events (pre_wait_s hold_s : Q) (pts : list Q)
    (polls : list (list Event)) : list Event :=
  List.concat (map (fun pp => step_events pre_wait_s hold_s (fst pp) (snd pp))
              (combine pts polls)).

(** ** The accessor methods of [PowerSupply] and [Gaussmeter]
    (lines 29-93 and 153-176)

    The methods act on the process variables behind the components of the
    two classes.  An [Ioc] holds what a [get] on each variable answers
    ([None]: the [get] raises) and the list of accesses made so far.  What
    a [put] does to the variables is decided by the records of the IOC,
    which are not part of the repository: it is the parameter [react] of
    [put] and of the setters. *)

Module Epics.

Section Access.

Variable Pv : Type.
Variable Pv_eqb : Pv -> Pv -> bool.
Variable V : Type.

Inductive Access : Type :=
| AGet (pv : Pv)
| APut (pv : Pv) (v : V).

Record Ioc : Type := mkIoc {
  value : Pv -> option V;
  accesses : list Access
}.

Definition Io (A : Type) : Type := Ioc -> Outcome A * Ioc.

Definition ret {A} (a : A) : Io A := fun s => (Done a, s).

Definition bind {A B} (m : Io A) (k : A -> Io B) : Io B :=
  fun s =>
    match m s with
    | (Done a, s') => k a s'
    | (Raised e, s') => (Raised e, s')
    | (OutOfFuel, s') => (OutOfFuel, s')
    end.

(** [signal.get()]. *)
Definition get (name : string) (pv : Pv) : Io V :=
  fun s =>
    let s' := mkIoc (value s) (accesses s ++ [AGet pv]) in
    match value s pv with
    | Some v => (Done v, s')
    | None => (Raised (ReadError name), s')
    end.

(** What the variables answer after [v] is put to [pv], given what they
    answered before; [None]: the [put] raises. *)
Definition Reaction : Type :=
  Pv -> V -> (Pv -> option V) -> option (Pv -> option V).

(** [signal.put(v)]. *)
Definition put (react : Reaction) (name : string) (pv : Pv) (v : V)
    : Io unit :=
  fun s =>
    match react pv v (value s) with
    | Some vals => (Done tt, mkIoc vals (accesses s ++ [APut pv v]))
    | None =>
        (Raised (WriteError name), mkIoc (value s) (accesses s ++ [APut pv v]))
    end.

(** An IOC that answers a [get] with the value last put to the variable
    and leaves the other variables as they were. *)
Definition echo : Reaction :=
  fun pv v vals => Some (fun q => if Pv_eqb pv q then Some v else vals q).

(** The values of several variables, read one after the other. *)
Fixpoint get_all (fields : list (string * Pv)) : Io (list V) :=
  match fields with
  | [] => ret []
  | (name, pv) :: rest =>
      bind (get name pv) (fun v =>
      bind (get_all rest) (fun vs => ret (v :: vs)))
  end.

Definition readable (s : Ioc) (field : string * Pv) : Prop :=
  value s (snd field) <> None.

End Access.

Arguments AGet {Pv V} pv.
Arguments APut {Pv V} pv v.
Arguments mkIoc {Pv V} value accesses.
Arguments value {Pv V} i pv.
Arguments accesses {Pv V} i.
Arguments ret {Pv V A} a s.
Arguments bind {Pv V A B} m k s.
Arguments get {Pv V} name pv s.
Arguments Reaction Pv V : clear implicits.
Arguments put {Pv V} react name pv v s.
Arguments echo {Pv} Pv_eqb {V} pv v vals.
Arguments get_all {Pv V} fields s.
Arguments readable {Pv V} s field.

End Epics.

(** A Python number as the dictionaries of [read_status] hold them. *)
Inductive PyNum : Type :=
| PyFloat (q : Q)
| PyInt (z : Z).

(** Lookup in a dictionary kept as the list of its items. *)
Fixpoint dict_get {V : Type} (key : string) (d : list (string * V))
    : option V :=
  match d with
  | [] => None
  | (k, v) :: rest => if String.eqb k key then Some v else dict_get key rest
  end.

Module Supply.

(** The components of [PowerSupply] (lines 13-27). *)
Inductive Pv : Type :=
| cmdPwrOn | cmdPwrOff | wrCurNoRamp | wrCurRamp | wrSlewRate
| rdCur | rdCurSlewRate | rdHeatSinkTmp | rdHeatShuntTmp | rdVolt
| botton | done | boundary.

Definition Pv_eqb (a b : Pv) : bool :=
  match a, b with
  | cmdPwrOn, cmdPwrOn | cmdPwrOff, cmdPwrOff | wrCurNoRamp, wrCurNoRamp
  | wrCurRamp, wrCurRamp | wrSlewRate, wrSlewRate | rdCur, rdCur
  | rdCurSlewRate, rdCurSlewRate | rdHeatSinkTmp, rdHeatSinkTmp
  | rdHeatShuntTmp, rdHeatShuntTmp | rdVolt, rdVolt | botton, botton
  | done, done | boundary, boundary => true
  | _, _ => false
  end.

Definition Ioc : Type := Epics.Ioc Pv Q.
Definition Io (A : Type) : Type := Epics.Io Pv Q A.

Notation "x <- m ;; k" := (Epics.bind m (fun x => k))
  (at level 61, m at next level, right associativity).

Definition get (name : string) (pv : Pv) : Io Q := Epics.get name pv.
Definition Reaction : Type := Epics.Reaction Pv Q.

Definition turn_on (react : Reaction) : Io unit :=
  Epics.put react "cmdPwrOn" cmdPwrOn 1.

Definition turn_off (react : Reaction) : Io unit :=
  Epics.put react "cmdPwrOff" cmdPwrOff 1.

Definition set_current_now (react : Reaction) (amps : Q) : Io unit :=
  Epics.put react "wrCurNoRamp" wrCurNoRamp amps.

Definition set_current_ramp (react : Reaction) (amps : Q) : Io unit :=
  Epics.put react "wrCurRamp" wrCurRamp amps.

Definition set_slew (react : Reaction) (a_per_s : Q) : Io unit :=
  Epics.put react "wrSlewRate" wrSlewRate a_per_s.

Definition read_current : Io Q := get "rdCur" rdCur.

Definition read_slew : Io Q := get "rdCurSlewRate" rdCurSlewRate.

Definition read_temps : Io (Q * Q) :=
  a <- get "rdHeatSinkTmp" rdHeatSinkTmp ;;
  b <- get "rdHeatShuntTmp" rdHeatShuntTmp ;;
  Epics.ret (a, b).

Definition read_voltage : Io Q := get "rdVolt" rdVolt.

Definition read_status : Io (list (string * PyNum)) :=
  v1 <- get "wrCurNoRamp" wrCurNoRamp ;;
  v2 <- get "wrCurRamp" wrCurRamp ;;
  v3 <- get "rdCur" rdCur ;;
  v4 <- get "wrSlewRate" wrSlewRate ;;
  v5 <- get "rdCurSlewRate" rdCurSlewRate ;;
  v6 <- get "rdHeatSinkTmp" rdHeatSinkTmp ;;
  v7 <- get "rdHeatShuntTmp" rdHeatShuntTmp ;;
  v8 <- get "rdVolt" rdVolt ;;
  v9 <- get "done" done ;;
  v10 <- get "botton" botton ;;
  v11 <- get "boundary" boundary ;;
  Epics.ret
    [("I_set_no_ramp", PyFloat v1);
     ("I_set_ramp", PyFloat v2);
     ("I_read", PyFloat v3);
     ("slew_rate_set", PyFloat v4);
     ("slew_rate_read", PyFloat v5);
     ("T_heatsink", PyFloat v6);
     ("T_shunt", PyFloat v7);
     ("V", PyFloat v8);
     ("done", PyInt (Py.int v9));
     ("botton", PyInt (Py.int v10));
     ("boundary", PyInt (Py.int v11))]%string.

(** The variables [read_status] reads, in the order it reads them. *)
Definition status_fields : list (string * Pv) :=
  [("wrCurNoRamp", wrCurNoRamp); ("wrCurRamp", wrCurRamp); ("rdCur", rdCur);
   ("wrSlewRate", wrSlewRate); ("rdCurSlewRate", rdCurSlewRate);
   ("rdHeatSinkTmp", rdHeatSinkTmp); ("rdHeatShuntTmp", rdHeatShuntTmp);
   ("rdVolt", rdVolt); ("done", done); ("botton", botton);
   ("boundary", boundary)]%string.

Definition status_keys : list string :=
  ["I_set_no_ramp"; "I_set_ramp"; "I_read"; "slew_rate_set"; "slew_rate_read";
   "T_heatsink"; "T_shunt"; "V"; "done"; "botton"; "boundary"]%string.

(** The gets appended to the access list by reading [fields] in order. *)
Definition gets (fields : list (string * Pv)) : list (Epics.Access Pv Q) :=
  map (fun f => Epics.AGet (snd f)) fields.

(** A supply all of whose variables read [v], and one whose heat-sink
    temperature cannot be read. *)
Definition flat (v : Q) : Ioc := Epics.mkIoc (fun _ => Some v) [].

Definition no_heatsink : Ioc :=
  Epics.mkIoc (fun pv => match pv with
                         | rdHeatSinkTmp => None
                         | _ => Some 1
                         end) [].

End Supply.

Module Gauss.

(** The components of [Gaussmeter] (lines 144-150). *)
Inductive Pv : Type := bfield | volt | idn | status | onctrl.

Definition Pv_eqb (a b : Pv) : bool :=
  match a, b with
  | bfield, bfield | volt, volt | idn, idn | status, status
  | onctrl, onctrl => true
  | _, _ => false
  end.

(** What a [get] answers: a number or, as for [idn], a string. *)
Inductive Raw : Type :=
| RNum (q : Q)
| RStr (s : string).

Definition Ioc : Type := Epics.Ioc Pv Raw.
Definition Io (A : Type) : Type := Epics.Io Pv Raw A.

Notation "x <- m ;; k" := (Epics.bind m (fun x => k))
  (at level 61, m at next level, right associativity).

Definition get (name : string) (pv : Pv) : Io Raw := Epics.get name pv.
Definition Reaction : Type := Epics.Reaction Pv Raw.

Definition switch (react : Reaction) (bi : Raw) : Io unit :=
  Epics.put react "onctrl" onctrl bi.

Definition read_mag_field : Io Raw := get "bfield" bfield.

Definition all : Io (list (string * Raw)) :=
  v1 <- get "bfield" bfield ;;
  v2 <- get "volt" volt ;;
  v3 <- get "onctrl" onctrl ;;
  v4 <- get "idn" idn ;;
  v5 <- get "status" status ;;
  Epics.ret
    [("mag_field", v1); ("voltage", v2); ("onctrl", v3); ("idn", v4);
     ("status", v5)]%string.

(** The variables [all] reads, in the order it reads them. *)
Definition all_fields : list (string * Pv) :=
  [("bfield", bfield); ("volt", volt); ("onctrl", onctrl); ("idn", idn);
   ("status", status)]%string.

Definition gets (fields : list (string * Pv)) : list (Epics.Access Pv Raw) :=
  map (fun f => Epics.AGet (snd f)) fields.

End Gauss.

(** ** Arithmetic facts *)

Lemma Qnat_S (n : nat) : Qnat (S n) == Qnat n + 1.
Proof.
  unfold Qnat. rewrite Nat2Z.inj_succ, <- Z.add_1_r, inject_Z_plus. reflexivity.
Qed.

Lemma Qnat_0 : Qnat 0 == 0.
Proof. reflexivity. Qed.

Lemma Qgt_bool_true (x y : Q) : Py.Qgt_bool x y = true <-> y < x.
Proof.
  unfold Py.Qgt_bool. rewrite negb_true_iff.
  split; intro H.
  - apply Qnot_le_lt. intro L. apply Qle_bool_iff in L. congruence.
  - destruct (Qle_bool x y) eqn:E; [|reflexivity].
    apply Qle_bool_iff in E. exfalso. apply (Qlt_not_le _ _ H E).
Qed.

Lemma Qgt_bool_false (x y : Q) : Py.Qgt_bool x y = false <-> x <= y.
Proof.
  unfold Py.Qgt_bool. rewrite negb_false_iff. apply Qle_bool_iff.
Qed.

Lemma Qle_bool_false (x y : Q) : Qle_bool x y = false <-> y < x.
Proof.
  rewrite <- Qgt_bool_true. unfold Py.Qgt_bool.
  destruct (Qle_bool x y); simpl; split; congruence.
Qed.

(** On a non-negative float [int] is the floor. *)
Lemma int_floor (x : Q) : 0 <= x -> Py.int x = Py.floor x.
Proof.
  intros H. unfold Py.int, Py.floor. destruct x as [n d]. simpl.
  apply Z.quot_div_nonneg; [|lia].
  unfold Qle in H. simpl in H. lia.
Qed.

Lemma int_nonneg (x : Q) : 0 <= x -> (0 <= Py.int x)%Z.
Proof.
  intros H. rewrite int_floor by exact H. unfold Py.floor.
  change 0%Z with (Qfloor 0). apply Qfloor_resp_le. exact H.
Qed.

Lemma slept_pos (d : Q) : 0 <= d -> slept d = d.
Proof.
  intros H. unfold slept. apply Qle_bool_iff in H. rewrite H. reflexivity.
Qed.

(** ** Facts about binary64 rounding *)

Lemma pow2_pos (e : Z) : 0 < 2 ^ e.
Proof. apply Qpower_0_lt. reflexivity. Qed.

Lemma pow2_nz (e : Z) : ~ 2 ^ e == 0.
Proof. intro H. pose proof (pow2_pos e) as P. rewrite H in P. discriminate. Qed.

Lemma pow2_add (a b : Z) : 2 ^ (a + b) == 2 ^ a * 2 ^ b.
Proof. apply Qpower_plus. discriminate. Qed.

Lemma pow2_le (a b : Z) : (a <= b)%Z -> 2 ^ a <= 2 ^ b.
Proof. intros H. apply Qpower_le_compat_l; [exact H|discriminate]. Qed.

Lemma pow2_lt (a b : Z) : (a < b)%Z -> 2 ^ a < 2 ^ b.
Proof. intros H. apply Qpower_lt_compat_l; [exact H|reflexivity]. Qed.

Lemma pow2_lt_inv (a b : Z) : 2 ^ a < 2 ^ b -> (a < b)%Z.
Proof. intros H. apply (Qpower_lt_compat_l_inv 2); [exact H|reflexivity]. Qed.

Lemma pow2_Z (n : Z) : (0 <= n)%Z -> inject_Z (2 ^ n) == 2 ^ n.
Proof. intros H. rewrite Zpower_Qpower by exact H. reflexivity. Qed.

Lemma pow2_sub (a b : Z) : 2 ^ (a - b) == 2 ^ a / 2 ^ b.
Proof.
  unfold Zminus. rewrite pow2_add, Qpower_opp. reflexivity.
Qed.

Lemma ilog2_spec (x : Q) :
  0 < x -> 2 ^ ilog2 x <= x /\ x < 2 ^ (ilog2 x + 1).
Proof.
  intros Hx. unfold ilog2.
  destruct x as [n d]. cbn [Qnum Qden].
  assert (Hn : (0 < n)%Z) by (unfold Qlt in Hx; simpl in Hx; lia).
  set (a := Z.log2 n). set (b := Z.log2 (Z.pos d)).
  destruct (Z.log2_spec n Hn) as [Ha1 Ha2]. fold a in Ha1, Ha2.
  destruct (Z.log2_spec (Z.pos d) ltac:(lia)) as [Hb1 Hb2]. fold b in Hb1, Hb2.
  assert (Ha0 : (0 <= a)%Z) by apply Z.log2_nonneg.
  assert (Hb0 : (0 <= b)%Z) by apply Z.log2_nonneg.
  assert (Hx' : n # d == inject_Z n / inject_Z (Z.pos d)) by apply Qmake_Qdiv.
  assert (Hdpos : 0 < inject_Z (Z.pos d)) by reflexivity.
  assert (Qa1 : 2 ^ a <= inject_Z n)
    by (rewrite <- pow2_Z by lia; rewrite <- Zle_Qle; exact Ha1).
  assert (Qa2 : inject_Z n < 2 ^ (a + 1)).
  { rewrite <- pow2_Z by lia. rewrite <- Zlt_Qlt.
    replace (a + 1)%Z with (Z.succ a) by lia. exact Ha2. }
  assert (Qb1 : 2 ^ b <= inject_Z (Z.pos d))
    by (rewrite <- pow2_Z by lia; rewrite <- Zle_Qle; exact Hb1).
  assert (Qb2 : inject_Z (Z.pos d) < 2 ^ (b + 1)).
  { rewrite <- pow2_Z by lia. rewrite <- Zlt_Qlt.
    replace (b + 1)%Z with (Z.succ b) by lia. exact Hb2. }
  (* upper: x < 2^(a-b+1) ; lower: 2^(a-b-1) < x *)
  assert (Hup : n # d < 2 ^ (a - b + 1)).
  { rewrite Hx'. apply Qlt_shift_div_r; [exact Hdpos|].
    replace (a - b + 1)%Z with ((a + 1) + - b)%Z by lia.
    rewrite pow2_add, Qpower_opp.
    pose proof (pow2_pos b) as Pb. pose proof (pow2_pos (a + 1)) as Pa.
    assert (E : 2 ^ (a + 1) * / 2 ^ b * inject_Z (Z.pos d)
                == 2 ^ (a + 1) * (inject_Z (Z.pos d) / 2 ^ b))
      by (field; apply pow2_nz).
    rewrite E.
    assert (1 <= inject_Z (Z.pos d) / 2 ^ b)
      by (apply Qle_shift_div_l; [exact Pb|lra]).
    nra. }
  assert (Hlo : 2 ^ (a - b - 1) < n # d).
  { rewrite Hx'. apply Qlt_shift_div_l; [exact Hdpos|].
    replace (a - b - 1)%Z with (a + - (b + 1))%Z by lia.
    rewrite pow2_add, Qpower_opp.
    pose proof (pow2_pos (b + 1)) as Pb. pose proof (pow2_pos a) as Pa.
    assert (E : 2 ^ a * / 2 ^ (b + 1) * inject_Z (Z.pos d)
                == 2 ^ a * (inject_Z (Z.pos d) / 2 ^ (b + 1)))
      by (field; apply pow2_nz).
    rewrite E.
    assert (inject_Z (Z.pos d) / 2 ^ (b + 1) < 1)
      by (apply Qlt_shift_div_r; [exact Pb|lra]).
    nra. }
  destruct (Qle_bool (2 ^ (a - b)) (n # d)) eqn:E.
  - apply Qle_bool_iff in E. split; assumption.
  - assert (Hlt : n # d < 2 ^ (a - b)).
    { apply Qnot_le_lt. intro H. apply Qle_bool_iff in H. congruence. }
    split.
    + apply Qlt_le_weak. exact Hlo.
    + replace (a - b - 1 + 1)%Z with (a - b)%Z by lia. exact Hlt.
Qed.

Lemma ilog2_unique (x : Q) (k : Z) :
  2 ^ k <= x -> x < 2 ^ (k + 1) -> ilog2 x = k.
Proof.
  intros H1 H2.
  assert (Hx : 0 < x) by (pose proof (pow2_pos k); lra).
  destruct (ilog2_spec x Hx) as [S1 S2].
  assert (A : (ilog2 x < k + 1)%Z) by (apply pow2_lt_inv; lra).
  assert (B : (k < ilog2 x + 1)%Z) by (apply pow2_lt_inv; lra).
  lia.
Qed.


Lemma ilog2_comp (x y : Q) : 0 < x -> x == y -> ilog2 x = ilog2 y.
Proof.
  intros Hx E. destruct (ilog2_spec x Hx) as [S1 S2]. symmetry.
  apply ilog2_unique; rewrite <- E; assumption.
Qed.

Lemma ilog2_mono (x y : Q) : 0 < x -> x <= y -> (ilog2 x <= ilog2 y)%Z.
Proof.
  intros Hx H. destruct (ilog2_spec x Hx) as [S1 S2].
  destruct (ilog2_spec y ltac:(lra)) as [T1 T2].
  assert (A : (ilog2 x < ilog2 y + 1)%Z) by (apply pow2_lt_inv; lra).
  lia.
Qed.

(** rounding to the nearest integer, ties to even *)
Lemma rne_bounds (y : Q) : (Qfloor y <= rne y <= Qfloor y + 1)%Z.
Proof.
  unfold rne. destruct (Qcompare _ _); [destruct (Z.even _)| |]; lia.
Qed.

Lemma rne_Z (n : Z) : rne (inject_Z n) = n.
Proof.
  unfold rne. rewrite Qfloor_Z.
  assert (E : inject_Z n - inject_Z n == 0) by ring.
  assert (C : Qcompare (inject_Z n - inject_Z n) (1 # 2) = Lt).
  { rewrite <- Qlt_alt. rewrite E. reflexivity. }
  rewrite C. reflexivity.
Qed.

#[global] Instance rne_comp : Proper (Qeq ==> eq) rne.
Proof.
  intros x y E. unfold rne. rewrite (Qfloor_comp _ _ E).
  assert (C : Qcompare (x - inject_Z (Qfloor y)) (1 # 2)
              = Qcompare (y - inject_Z (Qfloor y)) (1 # 2))
    by (apply Qcompare_comp; [rewrite E; reflexivity|reflexivity]).
  rewrite C. reflexivity.
Qed.

Lemma rne_mono (x y : Q) : x <= y -> (rne x <= rne y)%Z.
Proof.
  intros H. pose proof (rne_bounds x) as Bx. pose proof (rne_bounds y) as By.
  pose proof (Qfloor_resp_le _ _ H) as F.
  destruct (Z.eq_dec (Qfloor x) (Qfloor y)) as [E|NE]; [|lia].
  unfold rne. rewrite <- E.
  destruct (Qcompare (x - inject_Z (Qfloor x)) (1 # 2)) eqn:Cx;
    destruct (Qcompare (y - inject_Z (Qfloor x)) (1 # 2)) eqn:Cy;
    try (destruct (Z.even (Qfloor x))); try lia;
    try apply Qeq_alt in Cx; try apply Qeq_alt in Cy;
    try (rewrite <- Qlt_alt in Cx); try (rewrite <- Qlt_alt in Cy);
    try (rewrite <- Qgt_alt in Cx); try (rewrite <- Qgt_alt in Cy);
    exfalso; lra.
Qed.

Lemma rne_near (y : Q) : Qabs (inject_Z (rne y) - y) <= 1 # 2.
Proof.
  pose proof (Qfloor_le y) as F1. pose proof (Qlt_floor y) as F2.
  rewrite inject_Z_plus in F2. change (inject_Z 1) with 1 in F2.
  apply Qabs_Qle_condition. unfold rne.
  destruct (Qcompare (y - inject_Z (Qfloor y)) (1 # 2)) eqn:C.
  - apply Qeq_alt in C.
    destruct (Z.even (Qfloor y)); [|rewrite inject_Z_plus; change (inject_Z 1) with 1];
      split; lra.
  - rewrite <- Qlt_alt in C. split; lra.
  - rewrite <- Qgt_alt in C. rewrite inject_Z_plus. change (inject_Z 1) with 1.
    split; lra.
Qed.

Lemma b64p_comp (x y : Q) : 0 < x -> x == y -> b64p x == b64p y.
Proof.
  intros Hx E. unfold b64p. rewrite (ilog2_comp x y Hx E).
  assert (R : rne (x / 2 ^ (ilog2 y - 52)) = rne (y / 2 ^ (ilog2 y - 52)))
    by (apply rne_comp; rewrite E; reflexivity).
  rewrite R. reflexivity.
Qed.

Lemma Qeq_bool_false (x y : Q) : ~ x == y -> Qeq_bool x y = false.
Proof.
  intros H. destruct (Qeq_bool x y) eqn:E; [|reflexivity].
  apply Qeq_bool_iff in E. contradiction.
Qed.

Lemma Qeq_bool_true (x y : Q) : x == y -> Qeq_bool x y = true.
Proof. intros H. apply Qeq_bool_iff. exact H. Qed.

Lemma Qle_bool_true (x y : Q) : x <= y -> Qle_bool x y = true.
Proof. intros H. apply Qle_bool_iff. exact H. Qed.

Lemma Qle_bool_gt (x y : Q) : y < x -> Qle_bool x y = false.
Proof.
  intros H. destruct (Qle_bool x y) eqn:E; [|reflexivity].
  apply Qle_bool_iff in E. lra.
Qed.

Lemma b64_zero (x : Q) : x == 0 -> b64 x == 0.
Proof. intros H. unfold b64. rewrite Qeq_bool_true by exact H. reflexivity. Qed.

Lemma b64_pos_eq (x : Q) : 0 < x -> b64 x == b64p x.
Proof.
  intros Hx. unfold b64.
  rewrite Qeq_bool_false by lra.
  rewrite Qle_bool_true by lra.
  assert (A : Qabs x == x) by (apply Qabs_pos; lra).
  change (1 * b64p (Qabs x) == b64p x).
  rewrite (b64p_comp (Qabs x) x) by (rewrite ?A; lra).
  ring.
Qed.

Lemma b64_neg_eq (x : Q) : x < 0 -> b64 x == - b64p (- x).
Proof.
  intros Hx. unfold b64.
  rewrite Qeq_bool_false by lra.
  rewrite Qle_bool_gt by lra.
  assert (A : Qabs x == - x) by (apply Qabs_neg; lra).
  change (-1 * b64p (Qabs x) == - b64p (- x)).
  rewrite (b64p_comp (Qabs x) (- x)) by (rewrite ?A; lra).
  ring.
Qed.

#[global] Instance b64_comp : Proper (Qeq ==> Qeq) b64.
Proof.
  intros x y E.
  destruct (Q_dec x 0) as [[H|H]|H].
  - rewrite (b64_neg_eq x H), (b64_neg_eq y) by (rewrite <- E; exact H).
    rewrite (b64p_comp (- x) (- y)) by (rewrite ?E; lra). reflexivity.
  - rewrite (b64_pos_eq x H), (b64_pos_eq y) by (rewrite <- E; exact H).
    apply b64p_comp; assumption.
  - rewrite (b64_zero x H), (b64_zero y) by (rewrite <- E; exact H).
    reflexivity.
Qed.

Lemma b64_opp (x : Q) : b64 (- x) == - b64 x.
Proof.
  destruct (Q_dec x 0) as [[H|H]|H].
  - rewrite (b64_neg_eq x H), (b64_pos_eq (- x)) by lra. ring.
  - rewrite (b64_pos_eq x H), (b64_neg_eq (- x)) by lra.
    rewrite (b64p_comp (- - x) x) by (try ring; lra). reflexivity.
  - rewrite (b64_zero x H), (b64_zero (- x)) by lra. reflexivity.
Qed.

(** the scaled significand lies in [2^52, 2^53) *)
Lemma scaled_range (x : Q) :
  0 < x ->
  2 ^ 52 <= x / 2 ^ (ilog2 x - 52) /\ x / 2 ^ (ilog2 x - 52) < 2 ^ 53.
Proof.
  intros Hx. destruct (ilog2_spec x Hx) as [S1 S2].
  pose proof (pow2_pos (ilog2 x - 52)) as P.
  assert (E1 : 2 ^ ilog2 x == 2 ^ 52 * 2 ^ (ilog2 x - 52)).
  { rewrite <- pow2_add. replace (52 + (ilog2 x - 52))%Z with (ilog2 x) by lia.
    reflexivity. }
  assert (E2 : 2 ^ (ilog2 x + 1) == 2 ^ 53 * 2 ^ (ilog2 x - 52)).
  { rewrite <- pow2_add. replace (53 + (ilog2 x - 52))%Z with (ilog2 x + 1)%Z by lia.
    reflexivity. }
  split.
  - apply Qle_shift_div_l; [exact P|]. rewrite <- E1. exact S1.
  - apply Qlt_shift_div_r; [exact P|]. rewrite <- E2. exact S2.
Qed.

Lemma b64p_mantissa (x : Q) :
  0 < x ->
  (2 ^ 52 <= rne (x / 2 ^ (ilog2 x - 52)) <= 2 ^ 53)%Z.
Proof.
  intros Hx. destruct (scaled_range x Hx) as [A B].
  split.
  - rewrite <- (rne_Z (2 ^ 52)). apply rne_mono. exact A.
  - rewrite <- (rne_Z (2 ^ 53)). apply rne_mono. apply Qlt_le_weak. exact B.
Qed.

Lemma b64p_pos (x : Q) : 0 < x -> 0 < b64p x.
Proof.
  intros Hx. unfold b64p. pose proof (b64p_mantissa x Hx) as [M _].
  pose proof (pow2_pos (ilog2 x - 52)) as P.
  assert (0 < inject_Z (rne (x / 2 ^ (ilog2 x - 52)))).
  { change 0 with (inject_Z 0). rewrite <- Zlt_Qlt.
    assert ((0 < 2 ^ 52)%Z) by reflexivity. lia. }
  nra.
Qed.

Lemma b64p_mono (x y : Q) : 0 < x -> x <= y -> b64p x <= b64p y.
Proof.
  intros Hx H. assert (Hy : 0 < y) by lra.
  pose proof (ilog2_mono x y Hx H) as L.
  destruct (Z.eq_dec (ilog2 x) (ilog2 y)) as [E|NE].
  - unfold b64p. rewrite E.
    pose proof (pow2_pos (ilog2 y - 52)) as P.
    apply Qmult_le_compat_r; [|lra].
    rewrite <- Zle_Qle. apply rne_mono.
    apply Qmult_le_compat_r; [exact H|].
    apply Qlt_le_weak, Qinv_lt_0_compat, P.
  - (* b64p x <= 2^(ilog2 x + 1) <= 2^(ilog2 y) <= b64p y *)
    apply Qle_trans with (2 ^ ilog2 y).
    + apply Qle_trans with (2 ^ (ilog2 x + 1)); [|apply pow2_le; lia].
      unfold b64p. pose proof (b64p_mantissa x Hx) as [_ M].
      pose proof (pow2_pos (ilog2 x - 52)) as P.
      assert (E2 : 2 ^ (ilog2 x + 1) == 2 ^ 53 * 2 ^ (ilog2 x - 52)).
      { rewrite <- pow2_add.
        replace (53 + (ilog2 x - 52))%Z with (ilog2 x + 1)%Z by lia. reflexivity. }
      rewrite E2. apply Qmult_le_compat_r; [|lra].
      rewrite <- (pow2_Z 53) by lia. rewrite <- Zle_Qle. exact M.
    + unfold b64p. pose proof (b64p_mantissa y Hy) as [M _].
      pose proof (pow2_pos (ilog2 y - 52)) as P.
      assert (E1 : 2 ^ ilog2 y == 2 ^ 52 * 2 ^ (ilog2 y - 52)).
      { rewrite <- pow2_add. replace (52 + (ilog2 y - 52))%Z with (ilog2 y) by lia.
        reflexivity. }
      rewrite E1. apply Qmult_le_compat_r; [|lra].
      rewrite <- (pow2_Z 52) by lia. rewrite <- Zle_Qle. exact M.
Qed.

Lemma b64_pos (x : Q) : 0 < x -> 0 < b64 x.
Proof. intros H. rewrite b64_pos_eq by exact H. apply b64p_pos, H. Qed.

Lemma b64_neg (x : Q) : x < 0 -> b64 x < 0.
Proof.
  intros H. rewrite b64_neg_eq by exact H.
  pose proof (b64p_pos (- x) ltac:(lra)). lra.
Qed.

Lemma b64_nonzero (x : Q) : ~ x == 0 -> ~ b64 x == 0.
Proof.
  intros Hx E. destruct (Q_dec x 0) as [[H|H]|H]; [| |contradiction].
  - pose proof (b64_neg x H). lra.
  - pose proof (b64_pos x H). lra.
Qed.

Lemma b64_mono (x y : Q) : x <= y -> b64 x <= b64 y.
Proof.
  intros H.
  destruct (Q_dec x 0) as [[Hx|Hx]|Hx]; destruct (Q_dec y 0) as [[Hy|Hy]|Hy];
    try (exfalso; lra).
  - rewrite (b64_neg_eq x Hx), (b64_neg_eq y Hy).
    pose proof (b64p_mono (- y) (- x) ltac:(lra) ltac:(lra)). lra.
  - pose proof (b64_neg x Hx). pose proof (b64_pos y Hy). lra.
  - pose proof (b64_neg x Hx). rewrite (b64_zero y Hy). lra.
  - rewrite (b64_pos_eq x Hx), (b64_pos_eq y Hy). apply b64p_mono; assumption.
  - rewrite (b64_zero x Hx). pose proof (b64_pos y Hy). lra.
  - rewrite (b64_zero x Hx), (b64_zero y Hy). lra.
Qed.

Lemma b64_abs (x : Q) : b64 (Qabs x) == Qabs (b64 x).
Proof.
  destruct (Qlt_le_dec x 0) as [H|H].
  - rewrite (Qabs_neg x) by lra. rewrite b64_opp.
    pose proof (b64_neg x H). rewrite (Qabs_neg (b64 x)) by lra. reflexivity.
  - rewrite (Qabs_pos x) by lra.
    assert (0 <= b64 x) by (rewrite <- (b64_zero 0) by reflexivity; apply b64_mono, H).
    rewrite (Qabs_pos (b64 x)) by lra. reflexivity.
Qed.

(** representation of a positive value m * 2^e with 2^52 <= m < 2^53 *)
Lemma b64p_repr (m e : Z) :
  (2 ^ 52 <= m < 2 ^ 53)%Z -> b64p (inject_Z m * 2 ^ e) == inject_Z m * 2 ^ e.
Proof.
  intros [M1 M2]. pose proof (pow2_pos e) as P.
  assert (Q1 : 2 ^ 52 <= inject_Z m)
    by (rewrite <- (pow2_Z 52) by lia; rewrite <- Zle_Qle; exact M1).
  assert (Q2 : inject_Z m < 2 ^ 53)
    by (rewrite <- (pow2_Z 53) by lia; rewrite <- Zlt_Qlt; exact M2).
  assert (L : ilog2 (inject_Z m * 2 ^ e) = (e + 52)%Z).
  { apply ilog2_unique.
    - rewrite Z.add_comm, pow2_add. apply Qmult_le_compat_r; lra.
    - replace (e + 52 + 1)%Z with (53 + e)%Z by lia. rewrite pow2_add.
      apply Qmult_lt_compat_r; lra. }
  unfold b64p. rewrite L. replace (e + 52 - 52)%Z with e by lia.
  assert (S : inject_Z m * 2 ^ e / 2 ^ e == inject_Z m)
    by (field; apply pow2_nz).
  rewrite (rne_comp _ _ S), rne_Z. reflexivity.
Qed.

Lemma b64p_normal (x : Q) :
  0 < x ->
  exists m e, (2 ^ 52 <= m < 2 ^ 53)%Z /\ b64p x == inject_Z m * 2 ^ e.
Proof.
  intros Hx. pose proof (b64p_mantissa x Hx) as [M1 M2].
  set (m := rne (x / 2 ^ (ilog2 x - 52))) in *.
  destruct (Z.eq_dec m (2 ^ 53)) as [E|NE].
  - exists (2 ^ 52)%Z, (ilog2 x - 52 + 1)%Z. split; [lia|].
    unfold b64p. fold m. rewrite E, pow2_add.
    rewrite !pow2_Z by lia. change (2 ^ 53) with (2 ^ 52 * 2 ^ 1).
    ring.
  - exists m, (ilog2 x - 52)%Z. split; [lia|]. reflexivity.
Qed.

Lemma b64p_idem (x : Q) : 0 < x -> b64p (b64p x) == b64p x.
Proof.
  intros Hx. destruct (b64p_normal x Hx) as (m & e & M & E).
  rewrite (b64p_comp _ _ (b64p_pos x Hx) E), b64p_repr by exact M.
  symmetry. exact E.
Qed.

Lemma b64_idem (x : Q) : is_b64 (b64 x).
Proof.
  unfold is_b64.
  destruct (Q_dec x 0) as [[H|H]|H].
  - rewrite (b64_neg_eq x H), b64_opp.
    rewrite (b64_pos_eq (b64p (- x))) by (apply b64p_pos; lra).
    rewrite b64p_idem by lra. reflexivity.
  - rewrite (b64_pos_eq x H).
    rewrite (b64_pos_eq (b64p x)) by (apply b64p_pos; lra).
    apply b64p_idem, H.
  - rewrite (b64_zero x H). reflexivity.
Qed.

Lemma is_b64_normal (x : Q) :
  is_b64 x -> 0 < x ->
  exists m e, (2 ^ 52 <= m < 2 ^ 53)%Z /\ x == inject_Z m * 2 ^ e.
Proof.
  intros Hd Hx. destruct (b64p_normal x Hx) as (m & e & M & E).
  exists m, e. split; [exact M|].
  rewrite <- E, <- b64_pos_eq by exact Hx. symmetry. exact Hd.
Qed.

Lemma is_b64_repr (m e : Z) :
  (2 ^ 52 <= m < 2 ^ 53)%Z -> is_b64 (inject_Z m * 2 ^ e).
Proof.
  intros M. unfold is_b64. pose proof (pow2_pos e) as P.
  assert (0 < inject_Z m).
  { change 0 with (inject_Z 0). rewrite <- Zlt_Qlt.
    assert ((0 < 2 ^ 52)%Z) by reflexivity. lia. }
  rewrite b64_pos_eq by nra. apply b64p_repr, M.
Qed.

Lemma is_b64_opp (x : Q) : is_b64 x -> is_b64 (- x).
Proof. unfold is_b64. intros H. rewrite b64_opp, H. reflexivity. Qed.

Lemma is_b64_abs (x : Q) : is_b64 x -> is_b64 (Qabs x).
Proof. unfold is_b64. intros H. rewrite b64_abs, H. reflexivity. Qed.

Lemma is_b64_0 : is_b64 0.
Proof. reflexivity. Qed.

Lemma is_b64_scale (x : Q) (k : Z) : is_b64 x -> is_b64 (x * 2 ^ k).
Proof.
  intros Hd.
  assert (P : forall y, is_b64 y -> 0 < y -> is_b64 (y * 2 ^ k)).
  { intros y Hy Hpos. destruct (is_b64_normal y Hy Hpos) as (m & e & M & E).
    unfold is_b64.
    assert (E' : y * 2 ^ k == inject_Z m * 2 ^ (e + k))
      by (rewrite pow2_add, E; ring).
    rewrite E'. apply is_b64_repr, M. }
  destruct (Q_dec x 0) as [[H|H]|H].
  - assert (E : x * 2 ^ k == - (- x * 2 ^ k)) by ring.
    unfold is_b64. rewrite E. apply is_b64_opp, P; [apply is_b64_opp, Hd|lra].
  - apply P; assumption.
  - unfold is_b64. assert (E : x * 2 ^ k == 0) by (rewrite H; ring).
    rewrite E. reflexivity.
Qed.

(** integers below 2^53 are doubles *)
Lemma is_b64_Z (n : Z) : (Z.abs n < 2 ^ 53)%Z -> is_b64 (inject_Z n).
Proof.
  assert (P : forall p, (0 < p < 2 ^ 53)%Z -> is_b64 (inject_Z p)).
  { intros p [P1 P2].
    destruct (Z.log2_spec p P1) as [L1 L2].
    set (k := Z.log2 p) in *.
    assert (K0 : (0 <= k)%Z) by apply Z.log2_nonneg.
    assert (K52 : (k <= 52)%Z).
    { destruct (Z_le_gt_dec k 52) as [|G]; [assumption|exfalso].
      assert ((2 ^ 53 <= 2 ^ k)%Z) by (apply Z.pow_le_mono_r; lia). lia. }
    assert (E : inject_Z p == inject_Z (p * 2 ^ (52 - k)) * 2 ^ (k - 52)).
    { rewrite inject_Z_mult, pow2_Z by lia.
      rewrite <- Qmult_assoc, <- pow2_add.
      replace (52 - k + (k - 52))%Z with 0%Z by lia. simpl. ring. }
    unfold is_b64. rewrite E. apply is_b64_repr.
    assert (S1 : (2 ^ 52 = 2 ^ k * 2 ^ (52 - k))%Z)
      by (rewrite <- Z.pow_add_r by lia; f_equal; lia).
    assert (S2 : (2 ^ 53 = 2 ^ Z.succ k * 2 ^ (52 - k))%Z)
      by (rewrite <- Z.pow_add_r by lia; f_equal; lia).
    assert (T : (0 < 2 ^ (52 - k))%Z) by (apply Z.pow_pos_nonneg; lia).
    rewrite S1, S2. split.
    - apply Z.mul_le_mono_nonneg_r; lia.
    - apply Z.mul_lt_mono_pos_r; lia. }
  intros H. destruct (Z.lt_trichotomy n 0) as [Hn|[Hn|Hn]].
  - assert (E : inject_Z n == - inject_Z (- n)) by (rewrite inject_Z_opp; ring).
    unfold is_b64. rewrite E. apply is_b64_opp, P. lia.
  - subst n. reflexivity.
  - apply P. lia.
Qed.

(** two doubles of the same sign are at least one unit in the last place
    apart *)
Lemma b64_discrete (a c : Q) :
  is_b64 a -> is_b64 c -> 0 < a -> a < c ->
  a * inject_Z (2 ^ 53) <= c * inject_Z (2 ^ 53 - 1).
Proof.
  intros Ha Hc Hpos Hlt.
  destruct (is_b64_normal a Ha Hpos) as (ma & ea & [A1 A2] & Ea).
  destruct (is_b64_normal c Hc ltac:(lra)) as (mc & ec & [C1 C2] & Ec).
  destruct (Z_le_gt_dec ec ea) as [Hle|Hgt].
  - (* a is a multiple of the unit of c *)
    set (k := (ea - ec)%Z).
    assert (Ek : 2 ^ ea == inject_Z (2 ^ k) * 2 ^ ec).
    { rewrite pow2_Z by (unfold k; lia). rewrite <- pow2_add.
      replace (k + ec)%Z with ea by (unfold k; lia). reflexivity. }
    pose proof (pow2_pos ec) as P.
    assert (Ea' : a == inject_Z (ma * 2 ^ k) * 2 ^ ec)
      by (rewrite Ea, Ek, inject_Z_mult; ring).
    assert (Hz : (ma * 2 ^ k < mc)%Z).
    { rewrite Zlt_Qlt. apply Qmult_lt_r with (2 ^ ec); [exact P|].
      rewrite <- Ea', <- Ec. exact Hlt. }
    assert (G : (ma * 2 ^ k * 2 ^ 53 <= mc * (2 ^ 53 - 1))%Z).
    { change (2 ^ 53)%Z with 9007199254740992%Z in *. lia. }
    rewrite Ea', Ec.
    rewrite Zle_Qle in G. rewrite !inject_Z_mult in G.
    rewrite !inject_Z_mult.
    assert (R1 : inject_Z ma * inject_Z (2 ^ k) * 2 ^ ec * inject_Z (2 ^ 53)
                 == (inject_Z ma * inject_Z (2 ^ k) * inject_Z (2 ^ 53)) * 2 ^ ec)
      by ring.
    assert (R2 : inject_Z mc * 2 ^ ec * inject_Z (2 ^ 53 - 1)
                 == (inject_Z mc * inject_Z (2 ^ 53 - 1)) * 2 ^ ec) by ring.
    rewrite R1, R2. apply Qmult_le_compat_r; [exact G|lra].
  - (* c is at least 2^53 units of a *)
    set (k := (ec - ea)%Z).
    assert (Ek : 2 ^ ec == inject_Z (2 ^ k) * 2 ^ ea).
    { rewrite pow2_Z by (unfold k; lia). rewrite <- pow2_add.
      replace (k + ea)%Z with ec by (unfold k; lia). reflexivity. }
    pose proof (pow2_pos ea) as P.
    assert (K2 : (2 <= 2 ^ k)%Z).
    { change 2%Z with (2 ^ 1)%Z at 1. apply Z.pow_le_mono_r; unfold k; lia. }
    assert (G : (ma * 2 ^ 53 <= mc * 2 ^ k * (2 ^ 53 - 1))%Z).
    { change (2 ^ 53)%Z with 9007199254740992%Z in *.
      change (2 ^ 52)%Z with 4503599627370496%Z in *. nia. }
    rewrite Ea, Ec, Ek.
    rewrite Zle_Qle in G. rewrite !inject_Z_mult in G.
    assert (R1 : inject_Z ma * 2 ^ ea * inject_Z (2 ^ 53)
                 == (inject_Z ma * inject_Z (2 ^ 53)) * 2 ^ ea) by ring.
    assert (R2 : inject_Z mc * (inject_Z (2 ^ k) * 2 ^ ea) * inject_Z (2 ^ 53 - 1)
                 == (inject_Z mc * inject_Z (2 ^ k) * inject_Z (2 ^ 53 - 1)) * 2 ^ ea)
      by ring.
    rewrite R1, R2. apply Qmult_le_compat_r; [exact G|lra].
Qed.

Lemma below_one_b64 : is_b64 below_one.
Proof. apply is_b64_repr. split; [discriminate|reflexivity]. Qed.

Lemma below_one_lt : below_one < 1.
Proof. reflexivity. Qed.

(** the quotient of two doubles, the smaller by the larger, is at most the
    largest double below 1, and so is its rounding *)
Lemma quotient_le_below_one (a c : Q) :
  is_b64 a -> is_b64 c -> 0 <= a -> a < c -> a / c <= below_one.
Proof.
  intros Ha Hc H0 Hlt.
  apply Qle_shift_div_r; [lra|].
  destruct (Qle_lt_or_eq _ _ H0) as [Hpos|Hz].
  - pose proof (b64_discrete a c Ha Hc Hpos Hlt) as D.
    unfold below_one.
    assert (E : inject_Z (2 ^ 53 - 1) * 2 ^ (-53) * c
                == c * inject_Z (2 ^ 53 - 1) / inject_Z (2 ^ 53))
      by (change (2 ^ (-53)) with (/ inject_Z (2 ^ 53)); field; discriminate).
    rewrite E. apply Qle_shift_div_l; [reflexivity|exact D].
  - rewrite <- Hz.
    assert (0 < below_one) by reflexivity. nra.
Qed.

Lemma b64_quotient_lt_1 (a c : Q) :
  is_b64 a -> is_b64 c -> 0 <= a -> a < c -> b64 (a / c) <= below_one.
Proof.
  intros Ha Hc H0 Hlt.
  apply Qle_trans with (b64 below_one);
    [|pose proof below_one_b64 as B; unfold is_b64 in B; rewrite B; apply Qle_refl].
  apply b64_mono, quotient_le_below_one; assumption.
Qed.

(** a double below twice another: the rounded quotient is below 2 *)
Lemma fdiv_lt_2 (x y : Q) : 0 < y -> b64 x < 2 * b64 y -> fdiv x y < 2.
Proof.
  intros Hy Hlt. unfold fdiv.
  pose proof (b64_pos y Hy) as Hc.
  destruct (Qlt_le_dec (b64 x) 0) as [Hneg|Hpos].
  - apply Qle_lt_trans with (b64 0); [|reflexivity].
    apply b64_mono. apply Qle_shift_div_r; [exact Hc|]. lra.
  - assert (S : is_b64 (b64 y * 2 ^ 1)) by apply is_b64_scale, b64_idem.
    assert (Hlt' : b64 x < b64 y * 2 ^ 1) by (change (2 ^ 1) with 2; lra).
    pose proof (quotient_le_below_one _ _ (b64_idem x) S Hpos Hlt') as Q.
    assert (B : is_b64 (below_one * 2 ^ 1)) by apply is_b64_scale, below_one_b64.
    unfold is_b64 in B.
    apply Qle_lt_trans with (b64 (below_one * 2 ^ 1));
      [|rewrite B; reflexivity].
    apply b64_mono.
    assert (E : b64 x / b64 y == b64 x / (b64 y * 2 ^ 1) * 2 ^ 1)
      by (change (2 ^ 1) with 2; field; lra).
    rewrite E. apply Qmult_le_compat_r; [exact Q|discriminate].
Qed.

(** truncation of a rounded quotient stays between floor and ceiling *)
Lemma b64_floor_bracket (x : Q) :
  0 <= x -> x <= inject_Z (2 ^ 53 - 1) ->
  (Qfloor x <= Qfloor (b64 x) <= Qceiling x)%Z.
Proof.
  intros H0 Hmax.
  assert (F0 : (0 <= Qfloor x)%Z).
  { rewrite <- (Qfloor_Z 0). apply Qfloor_resp_le. exact H0. }
  assert (F1 : (Qfloor x <= 2 ^ 53 - 1)%Z).
  { rewrite <- (Qfloor_Z (2 ^ 53 - 1)). apply Qfloor_resp_le. exact Hmax. }
  assert (C0 : (0 <= Qceiling x)%Z).
  { rewrite <- (Qceiling_Z 0). apply Qceiling_resp_le. exact H0. }
  assert (C1 : (Qceiling x <= 2 ^ 53 - 1)%Z).
  { rewrite <- (Qceiling_Z (2 ^ 53 - 1)). apply Qceiling_resp_le. exact Hmax. }
  split.
  - rewrite <- (Qfloor_Z (Qfloor x)) at 1. apply Qfloor_resp_le.
    apply Qle_trans with (b64 (inject_Z (Qfloor x))).
    + pose proof (is_b64_Z (Qfloor x) ltac:(lia)) as B. unfold is_b64 in B.
      rewrite B. apply Qle_refl.
    + apply b64_mono, Qfloor_le.
  - rewrite <- (Qfloor_Z (Qceiling x)). apply Qfloor_resp_le.
    apply Qle_trans with (b64 (inject_Z (Qceiling x))).
    + apply b64_mono, Qle_ceiling.
    + pose proof (is_b64_Z (Qceiling x) ltac:(lia)) as B. unfold is_b64 in B.
      rewrite B. apply Qle_refl.
Qed.


(** a double lies on the grid of its binade *)
Lemma is_b64_grid (y : Q) :
  is_b64 y -> 0 < y ->
  exists m : Z, y == inject_Z m * 2 ^ (ilog2 y - 52).
Proof.
  intros Hy Hpos. destruct (is_b64_normal y Hy Hpos) as (m & e & [M1 M2] & E).
  exists m.
  assert (Q1 : 2 ^ 52 <= inject_Z m)
    by (rewrite <- (pow2_Z 52) by lia; rewrite <- Zle_Qle; exact M1).
  assert (Q2 : inject_Z m < 2 ^ 53)
    by (rewrite <- (pow2_Z 53) by lia; rewrite <- Zlt_Qlt; exact M2).
  pose proof (pow2_pos e) as P.
  assert (L : ilog2 y = (e + 52)%Z).
  { apply ilog2_unique; rewrite E.
    - rewrite Z.add_comm, pow2_add. apply Qmult_le_compat_r; lra.
    - replace (e + 52 + 1)%Z with (53 + e)%Z by lia. rewrite pow2_add.
      apply Qmult_lt_compat_r; lra. }
  rewrite L. replace (e + 52 - 52)%Z with e by lia. exact E.
Qed.

(** [b64] rounds to nearest: no double is closer to [x] than [b64 x]. *)
Lemma b64p_nearest (x y : Q) :
  0 < x -> is_b64 y -> Qabs (b64p x - x) <= Qabs (y - x).
Proof.
  intros Hx Hy. unfold b64p.
  set (L := ilog2 x). set (u := 2 ^ (L - 52)).
  assert (Hu : 0 < u) by apply pow2_pos.
  destruct (scaled_range x Hx) as [R1 R2]. fold L in R1, R2. fold u in R1, R2.
  set (f := Qfloor (x / u)).
  pose proof (Qfloor_le (x / u)) as F1. pose proof (Qlt_floor (x / u)) as F2.
  fold f in F1, F2. rewrite inject_Z_plus in F2.
  change (inject_Z 1) with 1 in F2.
  assert (Hxu : x == x / u * u) by (field; lra).
  assert (Hlo : inject_Z f * u <= x).
  { apply Qle_trans with (x / u * u); [|rewrite <- Hxu; apply Qle_refl].
    apply Qmult_le_compat_r; lra. }
  assert (Hhi : x < (inject_Z f + 1) * u).
  { apply Qle_lt_trans with (x / u * u); [rewrite <- Hxu; apply Qle_refl|].
    apply Qmult_lt_compat_r; lra. }
  pose proof (rne_bounds (x / u)) as B. fold f in B.
  pose proof (rne_near (x / u)) as N.
  set (m := rne (x / u)) in *.
  apply Qabs_Qle_condition in N.
  assert (Hb : Qabs (inject_Z m * u - x) <= x - inject_Z f * u /\
               Qabs (inject_Z m * u - x) <= (inject_Z f + 1) * u - x).
  { assert (Hm : m = f \/ m = (f + 1)%Z) by lia.
    destruct N as [N1 N2].
    assert (N1' : - (1 # 2) * u <= inject_Z m * u - x).
    { apply Qle_trans with ((inject_Z m - x / u) * u).
      - apply Qmult_le_compat_r; lra.
      - assert (E : (inject_Z m - x / u) * u == inject_Z m * u - x / u * u)
          by ring.
        rewrite E, <- Hxu. apply Qle_refl. }
    assert (N2' : inject_Z m * u - x <= (1 # 2) * u).
    { apply Qle_trans with ((inject_Z m - x / u) * u).
      - assert (E : (inject_Z m - x / u) * u == inject_Z m * u - x / u * u)
          by ring.
        rewrite E, <- Hxu. apply Qle_refl.
      - apply Qmult_le_compat_r; lra. }
    destruct Hm as [-> | ->].
    - rewrite Qabs_neg by lra. split; lra.
    - rewrite inject_Z_plus in *. change (inject_Z 1) with 1 in *.
      rewrite Qabs_pos by lra. split; lra. }
  destruct Hb as [Hb1 Hb2].
  destruct (Qlt_le_dec (inject_Z f * u) y) as [Hy1|Hy1].
  - destruct (Qlt_le_dec y ((inject_Z f + 1) * u)) as [Hy2|Hy2].
    + (* strictly inside the cell: impossible for a double *)
      exfalso.
      assert (Hf52 : 2 ^ 52 <= inject_Z f).
      { rewrite <- (pow2_Z 52) by lia. rewrite <- Zle_Qle.
        rewrite <- (Qfloor_Z (2 ^ 52)). apply Qfloor_resp_le.
        rewrite pow2_Z by lia. exact R1. }
      assert (Hf53 : inject_Z f + 1 <= 2 ^ 53).
      { rewrite <- (pow2_Z 53) by lia.
        change 1 with (inject_Z 1). rewrite <- inject_Z_plus, <- Zle_Qle.
        assert ((f < 2 ^ 53)%Z); [|lia].
        rewrite Zlt_Qlt. rewrite pow2_Z by lia. lra. }
      assert (E1 : 2 ^ L == 2 ^ 52 * u).
      { unfold u. rewrite <- pow2_add.
        replace (52 + (L - 52))%Z with L by lia. reflexivity. }
      assert (E2 : 2 ^ (L + 1) == 2 ^ 53 * u).
      { unfold u. rewrite <- pow2_add.
        replace (53 + (L - 52))%Z with (L + 1)%Z by lia. reflexivity. }
      assert (Ypos : 0 < y) by (pose proof (pow2_pos 52); nra).
      assert (LY : ilog2 y = L).
      { apply ilog2_unique; [rewrite E1|rewrite E2]; nra. }
      destruct (is_b64_grid y Hy Ypos) as (my & Ey).
      rewrite LY in Ey. fold u in Ey. rewrite Ey in Hy1, Hy2.
      assert (A : inject_Z f < inject_Z my) by nra.
      assert (B' : inject_Z my < inject_Z f + 1) by nra.
      change 1 with (inject_Z 1) in B'. rewrite <- inject_Z_plus in B'.
      rewrite <- Zlt_Qlt in A, B'. lia.
    + assert (Qabs (y - x) == y - x) by (apply Qabs_pos; lra). lra.
  - assert (Qabs (y - x) == - (y - x)) by (apply Qabs_neg; lra). lra.
Qed.

Lemma b64_nearest (x y : Q) : is_b64 y -> Qabs (b64 x - x) <= Qabs (y - x).
Proof.
  intros Hy. destruct (Q_dec x 0) as [[H|H]|H].
  - rewrite (b64_neg_eq x H).
    pose proof (b64p_nearest (- x) (- y) ltac:(lra) (is_b64_opp y Hy)) as N.
    assert (E1 : - b64p (- x) - x == - (b64p (- x) - - x)) by ring.
    assert (E2 : y - x == - (- y - - x)) by ring.
    rewrite E1, E2, !Qabs_opp. exact N.
  - rewrite (b64_pos_eq x H). apply b64p_nearest; assumption.
  - rewrite (b64_zero x H), H.
    assert (E : 0 - 0 == 0) by ring. rewrite E. apply Qabs_nonneg.
Qed.

(** On the inputs at which rounding decides [need] and [npts], [b64],
    [fdiv] and [fsub] give what the binary64 operations of the Standard
    Library's [SpecFloat] give. *)
Lemma b64_agrees_with_SpecFloat :
  b64 (1 # 10) == SF2Q d01 /\ b64 (2 # 10) == SF2Q d02 /\
  b64 (3 # 10) == SF2Q d03 /\ b64 (5 # 10) == SF2Q d05 /\
  fdiv (3 # 10) (1 # 10) == SF2Q (SFdiv 53 1024 d03 d01) /\
  fdiv (5 # 10) (1 # 10) == SF2Q (SFdiv 53 1024 d05 d01) /\
  fsub (3 # 10) (2 # 10) == SF2Q (SFsub 53 1024 d03 d02) /\
  fdiv (fsub (3 # 10) (2 # 10)) (1 # 10)
    == SF2Q (SFdiv 53 1024 (SFsub 53 1024 d03 d02) d01).
Proof. repeat apply conj; vm_compute; reflexivity. Qed.

(** ** Facts about the polling loop *)

Section Polling.

Variable ps : PowerSupply.
Variables target tol dwell max_time : Q.
Variable need : Z.
Variable t0 : Q.

Lemma count_after_last (n : nat) : forall base ok0,
  count_after ps target tol base ok0 (S n) =
  next_ok tol (count_after ps target tol base ok0 n) (err_at ps target (base + n)).
Proof.
  induction n as [|n IH]; intros base ok0.
  - simpl. rewrite Nat.add_0_r. reflexivity.
  - change (count_after ps target tol base ok0 (S (S n)))
      with (count_after ps target tol (S base) (next_ok tol ok0 (err_at ps target base)) (S n)).
    rewrite IH. simpl. rewrite Nat.add_succ_r. reflexivity.
Qed.

(** One turn of the [while True] loop. *)
Lemma await_loop_S (fuel : nat) (ok : Z) (w : World) :
  await_loop ps target tol dwell max_time (S fuel) need ok t0 w =
  let ok' := next_ok tol ok (err_at ps target (cur_reads w)) in
  if (need <=? ok')%Z then (Done tt, after_read w)
  else if Py.Qgt_bool (now w - t0) max_time
       then (Raised (TimeoutError tol target), after_read w)
       else await_loop ps target tol dwell max_time fuel need ok' t0
              (after_sleep dwell (after_read w)).
Proof.
  simpl. unfold bind, read_rdCur, err_at. simpl.
  destruct (need <=? _)%Z; [reflexivity|].
  unfold time_time, after_read. simpl.
  destruct (Py.Qgt_bool _ _); reflexivity.
Qed.

Lemma goes_on_shift (w : World) (ok0 : Z) (i : nat) :
  goes_on ps target tol dwell max_time need t0 w ok0 (S i) ->
  goes_on ps target tol dwell max_time need t0 (after_sleep dwell (after_read w))
          (next_ok tol ok0 (err_at ps target (cur_reads w))) i.
Proof.
  unfold goes_on. intros [Hc Ht]. split.
  - exact Hc.
  - simpl. rewrite Qnat_S in Ht. lra.
Qed.

Lemma goes_on_unshift (w : World) (ok0 : Z) (i : nat) :
  goes_on ps target tol dwell max_time need t0 (after_sleep dwell (after_read w))
          (next_ok tol ok0 (err_at ps target (cur_reads w))) i ->
  goes_on ps target tol dwell max_time need t0 w ok0 (S i).
Proof.
  unfold goes_on. intros [Hc Ht]. split.
  - exact Hc.
  - simpl in Ht. rewrite Qnat_S. lra.
Qed.

(** [n] iterations that go on leave the loop where it would be had it
    started [n] samples and [n] sleeps later. *)
Lemma await_loop_skip (n : nat) : forall fuel w ok0,
  (forall i, (i < n)%nat -> goes_on ps target tol dwell max_time need t0 w ok0 i) ->
  exists wn,
    await_loop ps target tol dwell max_time (n + fuel) need ok0 t0 w =
    await_loop ps target tol dwell max_time fuel need
      (count_after ps target tol (cur_reads w) ok0 n) t0 wn /\
    cur_reads wn = (cur_reads w + n)%nat /\
    slew_reads wn = slew_reads w /\
    now wn == now w + Qnat n * slept dwell /\
    trace wn = trace w ++ poll_trace dwell n.
Proof.
  induction n as [|n IH]; intros fuel w ok0 Hgo.
  - exists w. simpl. rewrite Nat.add_0_r, app_nil_r.
    repeat apply conj; try reflexivity. rewrite Qnat_0. lra.
  - destruct (Hgo 0%nat ltac:(lia)) as [Hc Ht].
    simpl in Hc. rewrite Qnat_0 in Ht.
    destruct (IH fuel (after_sleep dwell (after_read w))
                (next_ok tol ok0 (err_at ps target (cur_reads w))))
      as (wn & Hrun & Hcur & Hslew & Hnow & Htr).
    { intros i Hi. apply goes_on_shift. apply Hgo. lia. }
    exists wn. split; [|repeat apply conj].
    + change (S n + fuel)%nat with (S (n + fuel)). rewrite await_loop_S.
      cbv zeta.
      replace (need <=? _)%Z with false by (symmetry; apply Z.leb_gt; exact Hc).
      replace (Py.Qgt_bool (now w - t0) max_time) with false
        by (symmetry; apply Qgt_bool_false; lra).
      exact Hrun.
    + rewrite Hcur. simpl. lia.
    + rewrite Hslew. reflexivity.
    + rewrite Hnow. simpl. rewrite Qnat_S. lra.
    + rewrite Htr. simpl. rewrite <- !app_assoc. reflexivity.
Qed.

(** What any finished run of the loop went through. *)
Lemma await_loop_inv (fuel : nat) : forall w ok0 out w',
  await_loop ps target tol dwell max_time fuel need ok0 t0 w = (out, w') ->
  exists n,
    (n <= fuel)%nat /\
    (forall i, (i < n)%nat -> goes_on ps target tol dwell max_time need t0 w ok0 i) /\
    match out with
    | Done _ =>
        cur_reads w' = (cur_reads w + S n)%nat /\
        (need <= count_after ps target tol (cur_reads w) ok0 (S n))%Z /\
        now w' == now w + Qnat n * slept dwell
    | Raised e =>
        e = TimeoutError tol target /\
        cur_reads w' = (cur_reads w + S n)%nat /\
        (count_after ps target tol (cur_reads w) ok0 (S n) < need)%Z /\
        max_time < now w' - t0 /\
        now w' == now w + Qnat n * slept dwell
    | OutOfFuel => n = fuel
    end.
Proof.
  induction fuel as [|fuel IH]; intros w ok0 out w' Hrun.
  - simpl in Hrun. unfold diverge in Hrun. inversion Hrun; subst.
    exists 0%nat. split; [lia|]. split; [|reflexivity]. intros i Hi. lia.
  - rewrite await_loop_S in Hrun. cbv zeta in Hrun.
    destruct (need <=? _)%Z eqn:Hneed.
    + inversion Hrun; subst. exists 0%nat. split; [lia|]. split.
      * intros i Hi. lia.
      * simpl. rewrite Qnat_0. repeat apply conj; try lia; lra.
    + destruct (Py.Qgt_bool (now w - t0) max_time) eqn:Hto.
      * inversion Hrun; subst. exists 0%nat. split; [lia|]. split.
        -- intros i Hi. lia.
        -- apply Qgt_bool_true in Hto.
           simpl. rewrite Qnat_0. repeat apply conj; try lia; try lra.
           reflexivity.
      * apply IH in Hrun. destruct Hrun as (n & Hle & Hgo & Hout).
        exists (S n). split; [lia|]. split.
        -- intros [|i] Hi.
           ++ split.
              ** simpl. apply Z.leb_gt. exact Hneed.
              ** rewrite Qnat_0. apply Qgt_bool_false in Hto. lra.
           ++ apply goes_on_unshift. apply Hgo. lia.
        -- destruct out as [[]|e|].
           ++ destruct Hout as (Hc & Hn & Ht). simpl in Hc, Hn, Ht.
              repeat apply conj.
              ** lia.
              ** exact Hn.
              ** rewrite Ht, Qnat_S. lra.
           ++ destruct Hout as (He & Hc & Hn & Hm & Ht). simpl in Hc, Hn, Ht.
              repeat apply conj.
              ** exact He.
              ** lia.
              ** exact Hn.
              ** exact Hm.
              ** rewrite Ht, Qnat_S. lra.
           ++ lia.
Qed.

End Polling.

(** ** The counter as a function of the samples *)

Section Counter.

Variable ps : PowerSupply.
Variables target tol : Q.

Lemma next_ok_in (ok : Z) (k : nat) :
  in_band ps target tol k = true -> next_ok tol ok (err_at ps target k) = (ok + 1)%Z.
Proof. unfold in_band, next_ok. intros ->. reflexivity. Qed.

Lemma next_ok_out (ok : Z) (k : nat) :
  in_band ps target tol k = false -> next_ok tol ok (err_at ps target k) = 0%Z.
Proof. unfold in_band, next_ok. intros ->. reflexivity. Qed.

(** An out-of-band sample leaves the counter at zero, whatever it was. *)
Lemma count_reset (base : nat) (ok0 : Z) (j : nat) :
  in_band ps target tol (base + j) = false -> count_after ps target tol base ok0 (S j) = 0%Z.
Proof.
  intros H. rewrite count_after_last. apply next_ok_out. exact H.
Qed.

Lemma count_all_in (n : nat) : forall base ok0,
  (forall k, (base <= k)%nat -> in_band ps target tol k = true) ->
  count_after ps target tol base ok0 n = (ok0 + Z.of_nat n)%Z.
Proof.
  induction n as [|n IH]; intros base ok0 Hin.
  - simpl. lia.
  - simpl. rewrite next_ok_in by (apply Hin; lia).
    rewrite IH by (intros k Hk; apply Hin; lia). lia.
Qed.

Lemma count_all_out (n : nat) (base : nat) (ok0 : Z) :
  (forall k, (base <= k)%nat -> in_band ps target tol k = false) ->
  count_after ps target tol base ok0 (S n) = 0%Z.
Proof.
  intros Hout. apply count_reset. apply Hout. lia.
Qed.

(** Starting from zero the counter is the length of the run of in-band
    samples that ends at the latest one. *)
Lemma count_streak (base : nat) (n : nat) :
  (0 <= count_after ps target tol base 0 n <= Z.of_nat n)%Z /\
  forall i, (Z.of_nat n - count_after ps target tol base 0 n <= Z.of_nat i < Z.of_nat n)%Z ->
            in_band ps target tol (base + i) = true.
Proof.
  induction n as [|n [IHb IHs]].
  - simpl. split; [lia|]. intros i Hi. lia.
  - rewrite count_after_last.
    destruct (in_band ps target tol (base + n)) eqn:E.
    + rewrite next_ok_in by exact E. split; [lia|].
      intros i Hi. destruct (Nat.eq_dec i n) as [->|Hne]; [exact E|].
      apply IHs. lia.
    + rewrite next_ok_out by exact E. split; [lia|]. intros i Hi. lia.
Qed.

End Counter.

(** ** Entering the loop *)

Lemma await_in_band_loop (ps : PowerSupply)
    (target tol dwell stable_time max_time : Q) (fuel : nat) (w : World) :
  ~ dwell == 0 ->
  await_in_band ps target tol dwell stable_time max_time fuel w =
  await_loop ps target tol dwell max_time fuel
             (need_of (fdiv stable_time dwell)) 0 (now w) w.
Proof.
  intros Hd. unfold await_in_band, bind, float_div.
  destruct (Qeq_bool dwell 0) eqn:E.
  - apply Qeq_bool_iff in E. contradiction.
  - reflexivity.
Qed.

Lemma await_in_band_zero_dwell (ps : PowerSupply)
    (target tol dwell stable_time max_time : Q) (fuel : nat) (w : World) :
  dwell == 0 ->
  await_in_band ps target tol dwell stable_time max_time fuel w =
  (Raised ZeroDivisionError, w).
Proof.
  intros Hd. unfold await_in_band, bind, float_div.
  apply Qeq_bool_iff in Hd. rewrite Hd. reflexivity.
Qed.

Lemma need_of_pos (q : Q) : (1 <= need_of q)%Z.
Proof. unfold need_of. lia. Qed.

(** Below 1 truncation and floor may differ, but not once capped at 1. *)
Lemma need_of_floor (q : Q) : need_of q = Z.max 1 (Py.floor q).
Proof.
  unfold need_of. destruct (Qlt_le_dec q 0) as [Hneg|Hpos].
  - assert (Hi : (Py.int q <= 0)%Z).
    { unfold Py.int. destruct q as [n d]. unfold Qlt in Hneg. simpl in *.
      rewrite <- (Z.opp_involutive n), Z.quot_opp_l by lia.
      pose proof (Z.quot_pos (- n) (Z.pos d)). lia. }
    assert (Hf : (Py.floor q <= 0)%Z).
    { unfold Py.floor. change 0%Z with (Qfloor 0). apply Qfloor_resp_le.
      apply Qlt_le_weak. exact Hneg. }
    lia.
  - rewrite int_floor by exact Hpos. reflexivity.
Qed.

(** Truncating the rounded quotient gives the floor or the ceiling of the
    exact one. *)
Lemma need_of_bracket (x : Q) :
  x <= inject_Z (2 ^ 53 - 1) ->
  (Z.max 1 (Py.floor x) <= need_of (b64 x) <= Z.max 1 (Py.ceil x))%Z.
Proof.
  intros Hmax. rewrite need_of_floor. unfold Py.floor, Py.ceil.
  destruct (Qlt_le_dec x 0) as [Hneg|Hpos].
  - pose proof (b64_neg x Hneg) as Hb.
    assert (F : (Qfloor (b64 x) <= 0)%Z).
    { rewrite <- (Qfloor_Z 0). apply Qfloor_resp_le. apply Qlt_le_weak, Hb. }
    assert (G : (Qfloor x <= 0)%Z).
    { rewrite <- (Qfloor_Z 0). apply Qfloor_resp_le. apply Qlt_le_weak, Hneg. }
    lia.
  - pose proof (b64_floor_bracket x Hpos Hmax). lia.
Qed.

Lemma Qdiv_nonneg (a b : Q) : 0 <= a -> 0 < b -> 0 <= a / b.
Proof.
  intros Ha Hb. unfold Qdiv. apply Qmult_le_0_compat; [exact Ha|].
  apply Qlt_le_weak. apply Qinv_lt_0_compat. exact Hb.
Qed.

(** ** Runs of the loop that end *)

Section Runs.

Variable ps : PowerSupply.
Variables target tol dwell max_time : Q.
Variable need : Z.
Variable t0 : Q.

(** The loop returns at the first sample that brings the counter to
    [need], provided there is fuel to get there. *)
Lemma await_loop_succeeds (n fuel : nat) (w : World) (ok0 : Z) :
  (n < fuel)%nat ->
  (forall i, (i < n)%nat -> goes_on ps target tol dwell max_time need t0 w ok0 i) ->
  (need <= count_after ps target tol (cur_reads w) ok0 (S n))%Z ->
  exists w',
    await_loop ps target tol dwell max_time fuel need ok0 t0 w = (Done tt, w') /\
    cur_reads w' = (cur_reads w + S n)%nat /\
    slew_reads w' = slew_reads w /\
    now w' == now w + Qnat n * slept dwell /\
    trace w' = trace w ++ poll_trace dwell n ++ [EvGet rdCur].
Proof.
  intros Hfuel Hgo Hneed.
  destruct (await_loop_skip ps target tol dwell max_time need t0 n
              (fuel - n) w ok0 Hgo) as (wn & Hrun & Hcur & Hslew & Hnow & Htr).
  replace (n + (fuel - n))%nat with fuel in Hrun by lia.
  destruct (fuel - n)%nat as [|f] eqn:Ef; [lia|].
  rewrite await_loop_S in Hrun. cbv zeta in Hrun.
  rewrite Hcur, <- count_after_last in Hrun.
  apply Z.leb_le in Hneed. rewrite Hneed in Hrun.
  exists (after_read wn). split; [exact Hrun|]. simpl.
  repeat apply conj.
  - rewrite Hcur. lia.
  - exact Hslew.
  - exact Hnow.
  - rewrite Htr, <- app_assoc. reflexivity.
Qed.

(** The loop raises at the first sample taken after [max_time] while the
    counter is short of [need]. *)
Lemma await_loop_times_out (n fuel : nat) (w : World) (ok0 : Z) :
  (n < fuel)%nat ->
  (forall i, (i < n)%nat -> goes_on ps target tol dwell max_time need t0 w ok0 i) ->
  (count_after ps target tol (cur_reads w) ok0 (S n) < need)%Z ->
  max_time < now w + Qnat n * slept dwell - t0 ->
  exists w',
    await_loop ps target tol dwell max_time fuel need ok0 t0 w =
      (Raised (TimeoutError tol target), w') /\
    cur_reads w' = (cur_reads w + S n)%nat /\
    slew_reads w' = slew_reads w /\
    now w' == now w + Qnat n * slept dwell /\
    trace w' = trace w ++ poll_trace dwell n ++ [EvGet rdCur].
Proof.
  intros Hfuel Hgo Hshort Hlate.
  destruct (await_loop_skip ps target tol dwell max_time need t0 n
              (fuel - n) w ok0 Hgo) as (wn & Hrun & Hcur & Hslew & Hnow & Htr).
  replace (n + (fuel - n))%nat with fuel in Hrun by lia.
  destruct (fuel - n)%nat as [|f] eqn:Ef; [lia|].
  rewrite await_loop_S in Hrun. cbv zeta in Hrun.
  rewrite Hcur, <- count_after_last in Hrun.
  apply Z.leb_gt in Hshort. rewrite Hshort in Hrun.
  assert (Hgt : Py.Qgt_bool (now wn - t0) max_time = true).
  { apply Qgt_bool_true. rewrite Hnow. exact Hlate. }
  rewrite Hgt in Hrun.
  exists (after_read wn). split; [exact Hrun|]. simpl.
  repeat apply conj.
  - rewrite Hcur. lia.
  - exact Hslew.
  - exact Hnow.
  - rewrite Htr, <- app_assoc. reflexivity.
Qed.

End Runs.

Lemma Qnat_le_inject (i : nat) (z : Z) :
  (Z.of_nat i <= z)%Z -> Qnat i <= inject_Z z.
Proof. intros H. unfold Qnat. rewrite <- Zle_Qle. exact H. Qed.

Lemma Qnat_to_nat (z : Z) : (0 <= z)%Z -> Qnat (Z.to_nat z) == inject_Z z.
Proof. intros H. unfold Qnat. rewrite Z2Nat.id by exact H. reflexivity. Qed.

(** ** C1: when the waiter succeeds *)

(** C1, where the code departs from it: with [stable_time = 0.25] and
    [dwell = 0.1] the spec's [max(1, ceil(stable_time/dwell))] is 3, yet on
    a readback that is always in band the waiter returns after its second
    sample. *)
Lemma await_in_band_need_is_not_ceil :
  Z.max 1 (Py.ceil ((1 # 4) / (1 # 10))) = 3%Z /\
  exists w',
    await_in_band (steady 0 1) 0 (2 # 100) (1 # 10) (1 # 4) 10 5 w0
      = (Done tt, w') /\
    cur_reads w' = 2%nat.
Proof.
  split; [reflexivity|]. eexists. split; [lazy; reflexivity|reflexivity].
Qed.

(** The waiter can also time out on a readback that is always in band,
    when [max_time] is shorter than the polling needed to count to
    [need]. *)
Lemma await_in_band_in_band_timeout :
  exists w',
    await_in_band (steady 0 1) 0 (2 # 100) (1 # 10) (4 # 10) (1 # 20) 5 w0
      = (Raised (TimeoutError (2 # 100) 0), w') /\
    cur_reads w' = 2%nat.
Proof.
  eexists. split; [lazy; reflexivity|reflexivity].
Qed.

(** Rounding decides [need] where the quotient is close to an integer:
    [0.3/0.1] is [2.9999999999999996] and [need] is 2, the floor of the
    quotient of the two doubles; [0.5/0.1] rounds to [5.0] and [need] is
    5, its ceiling; and on a readback that is always in band the waiter
    called with [stable_time = 0.3] returns after its second sample. *)
Lemma await_in_band_need_rounding :
  need_of (fdiv (3 # 10) (1 # 10)) = 2%Z /\
  Py.floor (b64 (3 # 10) / b64 (1 # 10)) = 2%Z /\
  need_of (fdiv (5 # 10) (1 # 10)) = 5%Z /\
  Py.floor (b64 (5 # 10) / b64 (1 # 10)) = 4%Z /\
  need_of (fdiv (4 # 10) (1 # 10)) = 4%Z /\
  exists w',
    await_in_band (steady 0 1) 0 (2 # 100) (1 # 10) (3 # 10) 10 5 w0
      = (Done tt, w') /\
    cur_reads w' = 2%nat.
Proof.
  repeat apply conj; try (vm_compute; reflexivity).
  eexists. split; [vm_compute; reflexivity|reflexivity].
Qed.

(** C1 (amended): for [dwell > 0], [need = max(1, int(q))] where [q] is
    the binary64 quotient [stable_time / dwell]; [int(q)] is the floor or
    the ceiling of the exact quotient of the two doubles, according to the
    side rounding puts [q] on, so [need] is not the ceiling in general; an
    out-of-band sample puts the counter back to zero; a successful return
    happens at the first sample at which the counter reaches [need], the
    last [need] samples being all in band; and when every sample is in
    band and the clock does not pass [max_time] before the sample number
    [need] is taken, the waiter succeeds after exactly [need] samples and
    [need * dwell - dwell] seconds of sleeping. *)
Theorem await_in_band_settles (ps : PowerSupply)
    (target tol dwell stable_time max_time : Q) (w : World) :
  0 < dwell ->
  let need := need_of (fdiv stable_time dwell) in
  let base := cur_reads w in
  let exact := b64 stable_time / b64 dwell in
  (exact <= inject_Z (2 ^ 53 - 1) ->
   (Z.max 1 (Py.floor exact) <= need <= Z.max 1 (Py.ceil exact))%Z) /\
  (forall j ok0,
     in_band ps target tol (base + j) = false ->
     count_after ps target tol base ok0 (S j) = 0%Z) /\
  (forall fuel w',
     await_in_band ps target tol dwell stable_time max_time fuel w
       = (Done tt, w') ->
     exists n,
       cur_reads w' = (base + S n)%nat /\
       (need <= count_after ps target tol base 0 (S n))%Z /\
       (forall i, (i < n)%nat ->
                  (count_after ps target tol base 0 (S i) < need)%Z) /\
       (forall i, (Z.of_nat (S n) - need <= Z.of_nat i < Z.of_nat (S n))%Z ->
                  in_band ps target tol (base + i) = true)) /\
  (forall n fuel,
     (n < fuel)%nat ->
     (forall i, (i < n)%nat ->
        goes_on ps target tol dwell max_time need (now w) w 0 i) ->
     (need <= count_after ps target tol base 0 (S n))%Z ->
     exists w',
       await_in_band ps target tol dwell stable_time max_time fuel w
         = (Done tt, w') /\
       cur_reads w' = (base + S n)%nat) /\
  ((forall k, (base <= k)%nat -> in_band ps target tol k = true) ->
   (need = 1%Z \/ inject_Z (need - 2) * dwell <= max_time) ->
   forall fuel, (Z.to_nat need <= fuel)%nat ->
   exists w',
     await_in_band ps target tol dwell stable_time max_time fuel w
       = (Done tt, w') /\
     cur_reads w' = (base + Z.to_nat need)%nat /\
     now w' - now w == inject_Z need * dwell - dwell /\
     trace w' =
       trace w ++ poll_trace dwell (Z.to_nat need - 1) ++ [EvGet rdCur]).
Proof.
  intros Hd need base exact.
  assert (Hd0 : ~ dwell == 0) by (intro E; rewrite E in Hd; discriminate).
  assert (Hneed1 : (1 <= need)%Z) by apply need_of_pos.
  repeat apply conj.
  - intros Hmax. apply need_of_bracket. exact Hmax.
  - intros j ok0. apply count_reset.
  - intros fuel w' Hrun. rewrite await_in_band_loop in Hrun by exact Hd0.
    apply await_loop_inv in Hrun. destruct Hrun as (n & _ & Hgo & Hc & Hn & _).
    exists n. repeat apply conj.
    + exact Hc.
    + exact Hn.
    + intros i Hi. apply (Hgo i Hi).
    + intros i Hi.
      apply (proj2 (count_streak ps target tol base (S n))). fold base in Hn. lia.
  - intros n fuel Hfuel Hgo Hn. rewrite await_in_band_loop by exact Hd0.
    destruct (await_loop_succeeds ps target tol dwell max_time need (now w)
                n fuel w 0 Hfuel Hgo Hn) as (w' & Hrun & Hc & _).
    exists w'. split; assumption.
  - intros Hin Hmax fuel Hfuel. rewrite await_in_band_loop by exact Hd0.
    set (n := (Z.to_nat need - 1)%nat).
    destruct (await_loop_succeeds ps target tol dwell max_time need (now w)
                n fuel w 0) as (w' & Hrun & Hc & _ & Hnow & Htr).
    + lia.
    + intros i Hi. split.
      * rewrite count_all_in by exact Hin. lia.
      * destruct Hmax as [H1|Hmax]; [lia|].
        rewrite slept_pos by (apply Qlt_le_weak; exact Hd).
        assert (Hi2 : Qnat i <= inject_Z (need - 2))
          by (apply Qnat_le_inject; lia).
        assert (Qnat i * dwell <= inject_Z (need - 2) * dwell).
        { apply Qmult_le_compat_r; [exact Hi2|apply Qlt_le_weak; exact Hd]. }
        lra.
    + rewrite count_all_in by exact Hin. lia.
    + exists w'. repeat apply conj.
      * exact Hrun.
      * rewrite Hc. fold base. lia.
      * rewrite Hnow, slept_pos by (apply Qlt_le_weak; exact Hd).
        assert (Hq : Qnat n == inject_Z need - 1).
        { unfold n. unfold Qnat.
          replace (Z.of_nat (Z.to_nat need - 1)) with (need - 1)%Z by lia.
          unfold Zminus. rewrite inject_Z_plus. reflexivity. }
        rewrite Hq. lra.
      * exact Htr.
Qed.

Lemma await_in_band_settles_witness :
  exists w',
    await_in_band (steady 0 1) 0 (2 # 100) (1 # 10) (4 # 10) 10 4 w0
      = (Done tt, w') /\
    cur_reads w' = 4%nat /\
    now w' - now w0 == inject_Z 4 * (1 # 10) - (1 # 10).
Proof.
  assert (Hd : 0 < 1 # 10) by reflexivity.
  destruct (await_in_band_settles (steady 0 1) 0 (2 # 100) (1 # 10) (4 # 10)
              10 w0 Hd)
    as (_ & _ & _ & _ & H).
  assert (Hin : forall k, (cur_reads w0 <= k)%nat ->
                          in_band (steady 0 1) 0 (2 # 100) k = true)
    by (intros k _; reflexivity).
  assert (Hmax : need_of (fdiv (4 # 10) (1 # 10)) = 1%Z \/
                 inject_Z (need_of (fdiv (4 # 10) (1 # 10)) - 2) * (1 # 10) <= 10)
    by (right; vm_compute; discriminate).
  assert (Hfuel : (Z.to_nat (need_of (fdiv (4 # 10) (1 # 10))) <= 4)%nat)
    by (vm_compute; lia).
  destruct (H Hin Hmax 4%nat Hfuel) as (w' & Hrun & Hc & Hnow & _).
  exists w'. split; [exact Hrun|]. split; [exact Hc|exact Hnow].
Defined.

(** ** C5: when the waiter gives up *)

Lemma floor_bracket (x d : Q) :
  0 < d ->
  inject_Z (Qfloor (x / d)) * d <= x /\ x < inject_Z (Qfloor (x / d) + 1) * d.
Proof.
  intros Hd.
  assert (Hd0 : ~ d == 0) by (intro E; rewrite E in Hd; discriminate).
  assert (Hx : x / d * d == x) by (field; exact Hd0).
  pose proof (Qfloor_le (x / d)) as Hlo.
  pose proof (Qlt_floor (x / d)) as Hhi.
  split.
  - rewrite <- Hx at 2. apply Qmult_le_compat_r; [exact Hlo|].
    apply Qlt_le_weak. exact Hd.
  - rewrite <- Hx at 1. apply Qmult_lt_compat_r; [exact Hd|exact Hhi].
Qed.

(** C5: on a readback that is out of band at every sample, with
    [dwell > 0], the waiter raises [TimeoutError] at sample number
    [max(0, floor(max_time / dwell) + 1)] (counting from 0): more than
    [max_time] seconds after it started and, for [max_time >= 0], at most
    [max_time + dwell] seconds after (at once for a negative [max_time]);
    the error carries [tol] and [target].  Whatever the readback does, an
    error raised by the waiter is that timeout and comes only after
    [max_time] has passed. *)
Theorem await_in_band_times_out (ps : PowerSupply)
    (target tol dwell stable_time max_time : Q) (w : World) :
  0 < dwell ->
  (forall fuel e w',
     await_in_band ps target tol dwell stable_time max_time fuel w
       = (Raised e, w') ->
     e = TimeoutError tol target /\ max_time < now w' - now w) /\
  ((forall k, (cur_reads w <= k)%nat -> in_band ps target tol k = false) ->
   exists n,
     Z.of_nat n = Z.max 0 (Qfloor (max_time / dwell) + 1) /\
     forall fuel, (n < fuel)%nat ->
     exists w',
       await_in_band ps target tol dwell stable_time max_time fuel w
         = (Raised (TimeoutError tol target), w') /\
       cur_reads w' = (cur_reads w + S n)%nat /\
       now w' - now w == Qnat n * dwell /\
       max_time < now w' - now w /\
       (0 <= max_time -> now w' - now w <= max_time + dwell) /\
       (max_time < 0 -> now w' - now w == 0)).
Proof.
  intros Hd.
  assert (Hd0 : ~ dwell == 0) by (intro E; rewrite E in Hd; discriminate).
  assert (Hdle : 0 <= dwell) by (apply Qlt_le_weak; exact Hd).
  split.
  - intros fuel e w' Hrun. rewrite await_in_band_loop in Hrun by exact Hd0.
    apply await_loop_inv in Hrun.
    destruct Hrun as (n & _ & _ & He & _ & _ & Hlate & _).
    split; assumption.
  - intros Hout.
    destruct (floor_bracket max_time dwell Hd) as [Hlo Hhi].
    set (f := Qfloor (max_time / dwell)) in *.
    exists (Z.to_nat (f + 1)). split; [lia|]. intros fuel Hfuel.
    set (n := Z.to_nat (f + 1)) in *.
    assert (Hlate : max_time < Qnat n * dwell).
    { destruct (Z_lt_le_dec f 0) as [Hneg|Hpos].
      - replace n with 0%nat by lia. rewrite Qnat_0.
        assert (inject_Z (f + 1) <= 0)
          by (change 0 with (inject_Z 0); rewrite <- Zle_Qle; lia).
        assert (inject_Z (f + 1) * dwell <= 0 * dwell)
          by (apply Qmult_le_compat_r; assumption).
        lra.
      - unfold n. rewrite Qnat_to_nat by lia. exact Hhi. }
    rewrite await_in_band_loop by exact Hd0.
    destruct (await_loop_times_out ps target tol dwell max_time
                (need_of (fdiv stable_time dwell)) (now w) n fuel w 0)
      as (w' & Hrun & Hc & _ & Hnow & _).
    + exact Hfuel.
    + intros i Hi. split.
      * rewrite count_all_out by exact Hout.
        pose proof (need_of_pos (fdiv stable_time dwell)). lia.
      * rewrite slept_pos by exact Hdle.
        assert (Hi2 : Qnat i <= inject_Z f) by (apply Qnat_le_inject; lia).
        assert (Qnat i * dwell <= inject_Z f * dwell)
          by (apply Qmult_le_compat_r; assumption).
        lra.
    + rewrite count_all_out by exact Hout.
      pose proof (need_of_pos (fdiv stable_time dwell)). lia.
    + rewrite slept_pos by exact Hdle. lra.
    + rewrite slept_pos in Hnow by exact Hdle.
      exists w'. split; [exact Hrun|]. split; [exact Hc|].
      assert (He : now w' - now w == Qnat n * dwell) by (rewrite Hnow; lra).
      split; [exact He|]. rewrite He. split; [exact Hlate|]. split.
      * intros Hm.
        assert (Hf : (0 <= f)%Z).
        { unfold f. change 0%Z with (Qfloor 0). apply Qfloor_resp_le.
          apply Qdiv_nonneg; assumption. }
        unfold n. rewrite Qnat_to_nat by lia.
        rewrite inject_Z_plus. change (inject_Z 1) with 1. lra.
      * intros Hm.
        assert (Hf : (f < 0)%Z).
        { apply Z.lt_nge. intros Hf.
          assert (0 <= inject_Z f)
            by (change 0 with (inject_Z 0); rewrite <- Zle_Qle; exact Hf).
          assert (0 * dwell <= inject_Z f * dwell)
            by (apply Qmult_le_compat_r; assumption).
          lra. }
        replace n with 0%nat by lia. rewrite Qnat_0. lra.
Qed.

(** The end-to-end failure scenario of the spec: readback frozen at 0,
    target 5, tol 0.02, max_time 1. *)
Lemma await_in_band_times_out_witness :
  exists w',
    await_in_band (steady 0 1) 5 (2 # 100) (1 # 10) (4 # 10) 1 12 w0
      = (Raised (TimeoutError (2 # 100) 5), w') /\
    1 < now w' - now w0.
Proof.
  assert (Hd : 0 < 1 # 10) by reflexivity.
  destruct (await_in_band_times_out (steady 0 1) 5 (2 # 100) (1 # 10)
              (4 # 10) 1 w0 Hd) as [_ H].
  assert (Hout : forall k, (cur_reads w0 <= k)%nat ->
                           in_band (steady 0 1) 5 (2 # 100) k = false)
    by (intros k _; reflexivity).
  destruct (H Hout) as (n & Hn & Hrun).
  assert (E : Z.max 0 (Qfloor (1 / (1 # 10)) + 1) = 11%Z) by reflexivity.
  assert (Hfuel : (n < 12)%nat) by (rewrite E in Hn; lia).
  destruct (Hrun 12%nat Hfuel) as (w' & Hr & _ & _ & Hlate & _ & _).
  exists w'. split; [exact Hr|exact Hlate].
Defined.

(** ** C9: success is checked before the timeout *)

(** C9: at the sample that brings the counter to [need] the waiter
    returns, however late that sample is taken; it raises [TimeoutError]
    exactly at a sample that leaves the counter below [need] while more
    than [max_time] seconds have passed since the wait began. *)
Theorem await_in_band_success_first (ps : PowerSupply)
    (target tol dwell stable_time max_time : Q) (w : World) :
  ~ dwell == 0 ->
  let need := need_of (fdiv stable_time dwell) in
  let base := cur_reads w in
  let elapsed := fun n => now w + Qnat n * slept dwell - now w in
  (forall n fuel,
     (n < fuel)%nat ->
     (forall i, (i < n)%nat ->
        goes_on ps target tol dwell max_time need (now w) w 0 i) ->
     (need <= count_after ps target tol base 0 (S n))%Z ->
     exists w',
       await_in_band ps target tol dwell stable_time max_time fuel w
         = (Done tt, w') /\
       now w' == now w + Qnat n * slept dwell) /\
  (forall n fuel,
     (n < fuel)%nat ->
     (forall i, (i < n)%nat ->
        goes_on ps target tol dwell max_time need (now w) w 0 i) ->
     (count_after ps target tol base 0 (S n) < need)%Z ->
     max_time < elapsed n ->
     exists w',
       await_in_band ps target tol dwell stable_time max_time fuel w
         = (Raised (TimeoutError tol target), w')) /\
  (forall fuel e w',
     await_in_band ps target tol dwell stable_time max_time fuel w
       = (Raised e, w') ->
     e = TimeoutError tol target /\
     exists n,
       cur_reads w' = (base + S n)%nat /\
       (count_after ps target tol base 0 (S n) < need)%Z /\
       max_time < elapsed n).
Proof.
  intros Hd0 need base elapsed. repeat apply conj.
  - intros n fuel Hfuel Hgo Hn. rewrite await_in_band_loop by exact Hd0.
    destruct (await_loop_succeeds ps target tol dwell max_time need (now w)
                n fuel w 0 Hfuel Hgo Hn) as (w' & Hrun & _ & _ & Hnow & _).
    exists w'. split; assumption.
  - intros n fuel Hfuel Hgo Hn Hlate. rewrite await_in_band_loop by exact Hd0.
    destruct (await_loop_times_out ps target tol dwell max_time need (now w)
                n fuel w 0 Hfuel Hgo Hn Hlate) as (w' & Hrun & _).
    exists w'. exact Hrun.
  - intros fuel e w' Hrun. rewrite await_in_band_loop in Hrun by exact Hd0.
    apply await_loop_inv in Hrun.
    destruct Hrun as (n & _ & _ & He & Hc & Hn & Hlate & Hnow).
    split; [exact He|]. exists n. repeat apply conj.
    + exact Hc.
    + exact Hn.
    + unfold elapsed. rewrite <- Hnow. exact Hlate.
Qed.

(** With [max_time = -1] every sample is late, and the first one, in
    band with [need = 1], still makes the waiter return. *)
Lemma await_in_band_success_first_witness :
  exists w',
    await_in_band (steady 0 1) 0 (2 # 100) (1 # 10) (1 # 10) (-1) 1 w0
      = (Done tt, w') /\
    Py.Qgt_bool (now w' - now w0) (-1) = true.
Proof.
  assert (Hd0 : ~ (1 # 10) == 0) by discriminate.
  destruct (await_in_band_success_first (steady 0 1) 0 (2 # 100) (1 # 10)
              (1 # 10) (-1) w0 Hd0) as (H & _ & _).
  assert (Hgo : forall i, (i < 0)%nat ->
            goes_on (steady 0 1) 0 (2 # 100) (1 # 10) (-1)
                    (need_of (fdiv (1 # 10) (1 # 10))) (now w0) w0 0 i)
    by (intros i Hi; inversion Hi).
  assert (Hn : (need_of (fdiv (1 # 10) (1 # 10))
                <= count_after (steady 0 1) 0 (2 # 100) (cur_reads w0) 0 1)%Z)
    by (vm_compute; discriminate).
  destruct (H 0%nat 1%nat (le_n 1) Hgo Hn) as (w' & Hrun & Hnow).
  exists w'. split; [exact Hrun|].
  apply Qgt_bool_true. rewrite Hnow. reflexivity.
Defined.

(** ** One step *)

Lemma slew_used_pos (r : option Q) : 0 < slew_used r.
Proof.
  destruct r as [s|]; simpl; [|reflexivity].
  destruct (Qle_bool s 0) eqn:E; [reflexivity|].
  apply Qle_bool_false. exact E.
Qed.

(** Lines 127-132 always come out with a slew rate. *)
Lemma read_slew_or_default_runs (ps : PowerSupply) (w : World) :
  read_slew_or_default ps w =
  (Done (slew_used (rdCurSlewRate_get ps (slew_reads w))),
   mkWorld (now w) (cur_reads w) (S (slew_reads w))
           (trace w ++ [EvGet rdCurSlewRate])).
Proof.
  unfold read_slew_or_default, try_except, bind, read_rdCurSlewRate, slew_used.
  destruct (rdCurSlewRate_get ps (slew_reads w)) as [s|]; [|reflexivity].
  destruct (Qle_bool s 0); reflexivity.
Qed.

Lemma py_div_runs (x y : Q) (w : World) :
  0 < y -> py_div x y w = (Done (x / y), w).
Proof.
  intros Hy. unfold py_div. destruct (Qeq_bool y 0) eqn:E; [|reflexivity].
  apply Qeq_bool_iff in E. rewrite E in Hy. discriminate.
Qed.

(** A step up to the waiter, and what it calls the waiter with. *)
Lemma per_step_runs (motor : Signal) (step : Q) (ps : PowerSupply)
    (pre_wait_s hold_s tol base_timeout : Q) (fuel : nat) (w : World) :
  _per_step motor step ps pre_wait_s hold_s tol base_timeout fuel w =
  settle_and_measure ps step tol
    (spec_timeout base_timeout step (rdCur_get ps (cur_reads w))
                  (slew_used (rdCurSlewRate_get ps (slew_reads w))))
    hold_s fuel (at_waiter motor step pre_wait_s w).
Proof.
  unfold _per_step.
  unfold bind at 1. unfold bps_sleep at 1.
  unfold bind at 1. unfold bps_mv, log at 1.
  unfold bind at 1. rewrite read_slew_or_default_runs.
  unfold bind at 1. unfold read_rdCur at 1.
  cbn [now cur_reads slew_reads trace].
  unfold bind at 1. rewrite py_div_runs by apply slew_used_pos.
  unfold at_waiter. rewrite <- !app_assoc. reflexivity.
Qed.

(** ** Traces *)

Lemma await_loop_trace (ps : PowerSupply) (target tol dwell max_time : Q)
    (need : Z) (t0 : Q) (fuel : nat) :
  forall ok w out w',
    await_loop ps target tol dwell max_time fuel need ok t0 w = (out, w') ->
    exists evs, trace w' = trace w ++ evs /\ Forall (is_poll dwell) evs.
Proof.
  induction fuel as [|fuel IH]; intros ok w out w' Hrun.
  - inversion Hrun; subst. exists []. rewrite app_nil_r. split; constructor.
  - rewrite await_loop_S in Hrun. cbv zeta in Hrun.
    destruct (need <=? _)%Z.
    { inversion Hrun; subst. exists [EvGet rdCur]. split; [reflexivity|].
      constructor; [left; reflexivity|constructor]. }
    destruct (Py.Qgt_bool _ _).
    { inversion Hrun; subst. exists [EvGet rdCur]. split; [reflexivity|].
      constructor; [left; reflexivity|constructor]. }
    apply IH in Hrun. destruct Hrun as (evs & Htr & Hall).
    exists (EvGet rdCur :: EvSleep dwell :: evs). split.
    + rewrite Htr. simpl. rewrite <- !app_assoc. reflexivity.
    + constructor; [left; reflexivity|].
      constructor; [right; reflexivity|exact Hall].
Qed.

Lemma await_in_band_trace (ps : PowerSupply)
    (target tol dwell stable_time max_time : Q) (fuel : nat) :
  forall w out w',
    await_in_band ps target tol dwell stable_time max_time fuel w = (out, w') ->
    exists evs, trace w' = trace w ++ evs /\ Forall (is_poll dwell) evs.
Proof.
  intros w out w' Hrun. unfold await_in_band, bind, float_div in Hrun.
  destruct (Qeq_bool dwell 0).
  - inversion Hrun; subst. exists []. rewrite app_nil_r. split; constructor.
  - apply await_loop_trace in Hrun. exact Hrun.
Qed.

Lemma poll_no_puts (dwell : Q) (s : Signal) (evs : list Event) :
  Forall (is_poll dwell) evs -> puts_to s evs = [].
Proof.
  induction 1 as [|e evs [He|He] _ IH]; [reflexivity| |]; subst; simpl; exact IH.
Qed.

Lemma poll_no_triggers (dwell : Q) (evs : list Event) :
  Forall (is_poll dwell) evs -> filter is_trigger evs = [].
Proof.
  induction 1 as [|e evs [He|He] _ IH]; [reflexivity| |]; subst; simpl; exact IH.
Qed.

Lemma puts_to_app (s : Signal) (a b : list Event) :
  puts_to s (a ++ b) = puts_to s a ++ puts_to s b.
Proof. unfold puts_to. apply flat_map_app. Qed.

Lemma n_triggers_app (a b : list Event) :
  n_triggers (a ++ b) = (n_triggers a + n_triggers b)%nat.
Proof. unfold n_triggers. rewrite filter_app, length_app. reflexivity. Qed.

Lemma default_dwell_nonzero : ~ (1 # 10) == 0.
Proof. discriminate. Qed.

(** The waiter of a step raises nothing but its timeout. *)
Lemma await_in_band_raises (ps : PowerSupply)
    (target tol dwell stable_time max_time : Q) (fuel : nat) (w : World)
    (e : Exn) (w' : World) :
  ~ dwell == 0 ->
  await_in_band ps target tol dwell stable_time max_time fuel w = (Raised e, w') ->
  e = TimeoutError tol target /\ max_time < now w' - now w.
Proof.
  intros Hd Hrun. rewrite await_in_band_loop in Hrun by exact Hd.
  apply await_loop_inv in Hrun.
  destruct Hrun as (n & _ & _ & He & _ & _ & Hlate & _). split; assumption.
Qed.

(** The whole trace of one step, whatever its outcome. *)
Lemma per_step_trace (motor : Signal) (step : Q) (ps : PowerSupply)
    (pre_wait_s hold_s tol base_timeout : Q) (fuel : nat) (w : World)
    (out : Outcome unit) (w' : World) :
  _per_step motor step ps pre_wait_s hold_s tol base_timeout fuel w = (out, w') ->
  exists w1 evs,
    await_in_band ps step tol (1 # 10) (4 # 10)
      (spec_timeout base_timeout step (rdCur_get ps (cur_reads w))
                    (slew_used (rdCurSlewRate_get ps (slew_reads w))))
      fuel (at_waiter motor step pre_wait_s w) = (out, w1) /\
    Forall (is_poll (1 # 10)) evs /\
    trace w1 = trace (at_waiter motor step pre_wait_s w) ++ evs /\
    trace w' = trace w1 ++ step_tail hold_s out /\
    (forall e, out = Raised e -> w' = w1).
Proof.
  rewrite per_step_runs. unfold settle_and_measure. unfold bind at 1.
  destruct (await_in_band _ _ _ _ _ _ _ _) as [o w1] eqn:Hw.
  destruct (await_in_band_trace _ _ _ _ _ _ _ _ _ _ Hw) as (evs & Htr & Hall).
  destruct o as [[]|e|]; intros Hrun.
  - unfold bind, bps_sleep, bps_trigger_and_read, log in Hrun.
    inversion Hrun; subst. exists w1, evs. simpl.
    split; [reflexivity|]. split; [exact Hall|]. split; [exact Htr|].
    split; [rewrite <- app_assoc; reflexivity|]. intros e He. discriminate.
  - inversion Hrun; subst. exists w', evs. simpl. rewrite app_nil_r.
    split; [reflexivity|]. split; [exact Hall|]. split; [exact Htr|].
    split; reflexivity.
  - inversion Hrun; subst. exists w', evs. simpl. rewrite app_nil_r.
    split; [reflexivity|]. split; [exact Hall|]. split; [exact Htr|].
    split; [reflexivity|]. intros e He. discriminate.
Qed.

(** ** C3: the timeout handed to the waiter *)

(** C3: in every step the waiter is entered with
    [max_time = base_timeout + |step - last| / slew + 2], [last] being the
    readback read on line 134 and [slew] the slew rate after the fallback,
    which is the spec's timeout formula; a step that raises does so more
    than that many seconds after its waiter started.  With target 5,
    readback 2, slew 1 and base timeout 5 that value is 10. *)
Theorem per_step_dynamic_timeout (motor : Signal) (step : Q)
    (ps : PowerSupply) (pre_wait_s hold_s tol base_timeout : Q) (fuel : nat)
    (w : World) :
  let last := rdCur_get ps (cur_reads w) in
  let slew := slew_used (rdCurSlewRate_get ps (slew_reads w)) in
  let dyn_to := base_timeout + Qabs (step - last) / slew + 2 in
  dyn_to = spec_timeout base_timeout step last slew /\
  _per_step motor step ps pre_wait_s hold_s tol base_timeout fuel w =
    (await_in_band ps step tol (1 # 10) (4 # 10) dyn_to fuel ;;
     bps_sleep hold_s ;;
     bps_trigger_and_read) (at_waiter motor step pre_wait_s w) /\
  (forall e w',
     _per_step motor step ps pre_wait_s hold_s tol base_timeout fuel w
       = (Raised e, w') ->
     e = TimeoutError tol step /\
     dyn_to < now w' - now (at_waiter motor step pre_wait_s w)) /\
  (exists t,
     t == 10 /\
     _per_step wrCurRamp 5 (steady 2 1) 3 2 (2 # 100) 5 fuel w0 =
       settle_and_measure (steady 2 1) 5 (2 # 100) t 2 fuel
                          (at_waiter wrCurRamp 5 3 w0)).
Proof.
  intros last slew dyn_to. repeat apply conj.
  - reflexivity.
  - apply per_step_runs.
  - intros e w' Hrun.
    destruct (per_step_trace _ _ _ _ _ _ _ _ _ _ _ Hrun)
      as (w1 & evs & Hw & _ & _ & _ & Heq).
    rewrite (Heq e eq_refl).
    apply (await_in_band_raises _ _ _ _ _ _ _ _ _ _ default_dwell_nonzero Hw).
  - exists (spec_timeout 5 5 (rdCur_get (steady 2 1) (cur_reads w0))
                         (slew_used (rdCurSlewRate_get (steady 2 1)
                                                       (slew_reads w0)))).
    split; [reflexivity|apply per_step_runs].
Qed.

(** ** C4: the slew read never stops a step *)

(** C4: when the read of the slew rate raises or returns a value [<= 0],
    lines 127-132 come out with 0.1 and the step goes on to its waiter,
    entered with the timeout computed from 0.1.  With target 1, readback
    0, a slew read of 0 and base timeout 5 that timeout is 17. *)
Theorem per_step_slew_fallback (motor : Signal) (step : Q)
    (ps : PowerSupply) (pre_wait_s hold_s tol base_timeout : Q) (fuel : nat)
    (w : World) :
  rdCurSlewRate_get ps (slew_reads w) = None \/
  (exists s, rdCurSlewRate_get ps (slew_reads w) = Some s /\ s <= 0) ->
  let last := rdCur_get ps (cur_reads w) in
  (exists w1, read_slew_or_default ps w = (Done (1 # 10), w1)) /\
  _per_step motor step ps pre_wait_s hold_s tol base_timeout fuel w =
    settle_and_measure ps step tol
      (base_timeout + Qabs (step - last) / (1 # 10) + 2) hold_s fuel
      (at_waiter motor step pre_wait_s w) /\
  5 + Qabs (1 - 0) / slew_used (Some 0) + 2 == 17.
Proof.
  intros Hbad last.
  assert (Hs : slew_used (rdCurSlewRate_get ps (slew_reads w)) = 1 # 10).
  { destruct Hbad as [-> | (s & -> & Hle)]; [reflexivity|].
    simpl. apply Qle_bool_iff in Hle. rewrite Hle. reflexivity. }
  repeat apply conj.
  - rewrite read_slew_or_default_runs, Hs. eexists. reflexivity.
  - rewrite per_step_runs, Hs. reflexivity.
  - reflexivity.
Qed.

(** A supply whose readback is 0 and whose slew read returns 0; the step
    to target 1 with base timeout 5 enters its waiter with timeout 17. *)
Lemma per_step_slew_fallback_witness :
  exists t,
    t == 17 /\
    _per_step wrCurRamp 1 (steady 0 0) 3 2 (2 # 100) 5 7 w0 =
      settle_and_measure (steady 0 0) 1 (2 # 100) t 2 7
                         (at_waiter wrCurRamp 1 3 w0).
Proof.
  assert (Hbad : rdCurSlewRate_get (steady 0 0) (slew_reads w0) = None \/
                 (exists s, rdCurSlewRate_get (steady 0 0) (slew_reads w0)
                            = Some s /\ s <= 0)).
  { right. exists 0. split; [reflexivity|discriminate]. }
  destruct (per_step_slew_fallback wrCurRamp 1 (steady 0 0) 3 2 (2 # 100) 5
              7 w0 Hbad) as (_ & Hrun & _).
  eexists. split; [|exact Hrun]. reflexivity.
Defined.

(** ** The plans on an arbitrary device: the loop and the step *)

Section FullPolling.

Variable ps : Full.PowerSupply.
Variables target tol dwell : Q.
Variable max_time : Full.Float.
Variable need : Z.
Variable t0 : Q.

Lemma full_await_loop_S (fuel : nat) (ok : Z) (w : World) :
  Full.await_loop ps target tol dwell max_time (S fuel) need ok t0 w =
  match Full.rdCur_get ps (cur_reads w) with
  | None => (Raised (ReadError "rdCur"), after_read w)
  | Some r =>
      let ok' :=
        Full.next_ok tol ok (Full.fl_abs (Full.fl_sub r (Full.Fin target))) in
      if (need <=? ok')%Z then (Done tt, after_read w)
      else if Full.fl_gt (Full.Fin (now w - t0)) max_time
           then (Raised (TimeoutError tol target), after_read w)
           else Full.await_loop ps target tol dwell max_time fuel need ok' t0
                  (after_sleep dwell (after_read w))
  end.
Proof.
  cbn [Full.await_loop]. unfold bind at 1. unfold Full.read_rdCur.
  destruct (Full.rdCur_get ps (cur_reads w)) as [r|]; [|reflexivity].
  cbv beta iota zeta.
  destruct (need <=? _)%Z; [reflexivity|].
  unfold bind at 1. unfold time_time, after_read.
  cbn [now cur_reads slew_reads trace].
  destruct (Full.fl_gt _ _); reflexivity.
Qed.


(** How the loop can raise: at a read that raises, or at a sample that
    was returned, with the clock past [max_time]. *)
Lemma full_await_loop_raised (fuel : nat) :
  forall ok w e w',
    Full.await_loop ps target tol dwell max_time fuel need ok t0 w
      = (Raised e, w') ->
    (cur_reads w < cur_reads w')%nat /\
    (forall k, (cur_reads w <= k)%nat -> (S k < cur_reads w')%nat ->
               Full.rdCur_get ps k <> None) /\
    ((e = ReadError "rdCur" /\
      Full.rdCur_get ps (cur_reads w' - 1) = None) \/
     (e = TimeoutError tol target /\
      Full.rdCur_get ps (cur_reads w' - 1) <> None /\
      Full.fl_gt (Full.Fin (now w' - t0)) max_time = true)).
Proof.
  induction fuel as [|fuel IH]; intros ok w e w' Hrun.
  - discriminate.
  - rewrite full_await_loop_S in Hrun.
    destruct (Full.rdCur_get ps (cur_reads w)) as [r|] eqn:Hr.
    + cbv zeta in Hrun.
      destruct (need <=? _)%Z; [discriminate|].
      destruct (Full.fl_gt _ _) eqn:Hgt.
      * inversion Hrun; subst. simpl.
        split; [lia|]. split; [intros k H1 H2; lia|].
        right. rewrite Nat.sub_0_r, Hr.
        split; [reflexivity|]. split; [discriminate|exact Hgt].
      * apply IH in Hrun. simpl in Hrun.
        destruct Hrun as (Hc & Hall & Hend).
        split; [lia|]. split; [|exact Hend].
        intros k H1 H2. destruct (Nat.eq_dec k (cur_reads w)) as [->|Hne].
        -- rewrite Hr. discriminate.
        -- apply Hall; lia.
    + inversion Hrun; subst. simpl.
      split; [lia|]. split; [intros k H1 H2; lia|].
      left. rewrite Nat.sub_0_r. split; [reflexivity|exact Hr].
Qed.

End FullPolling.


Lemma full_await_in_band_loop (ps : Full.PowerSupply)
    (target tol dwell stable_time : Q) (max_time : Full.Float) (fuel : nat)
    (w : World) :
  ~ dwell == 0 ->
  Full.await_in_band ps target tol dwell stable_time max_time fuel w =
  Full.await_loop ps target tol dwell max_time fuel
                  (need_of (fdiv stable_time dwell)) 0 (now w) w.
Proof.
  intros Hd. unfold Full.await_in_band, bind, float_div.
  rewrite Qeq_bool_false by exact Hd. reflexivity.
Qed.

Lemma full_await_in_band_zero_dwell (ps : Full.PowerSupply)
    (target tol dwell stable_time : Q) (max_time : Full.Float) (fuel : nat)
    (w : World) :
  dwell == 0 ->
  Full.await_in_band ps target tol dwell stable_time max_time fuel w =
  (Raised ZeroDivisionError, w).
Proof.
  intros Hd. unfold Full.await_in_band, bind, float_div.
  rewrite Qeq_bool_true by exact Hd. reflexivity.
Qed.

(** *** One step *)

(** Whether a slew reading leaves lines 127-132 with a slew rate above
    zero: every reading does, and so does a read that raises, except
    NaN. *)
Lemma full_slew_used_positive (r : option Full.Float) :
  r <> Some Full.NaN ->
  Full.fl_gt (Full.slew_used r) (Full.Fin 0) = true.
Proof.
  intros Hr. destruct r as [[s| | |]|]; simpl; try reflexivity.
  - destruct (Qle_bool s 0) eqn:E; [reflexivity|]. simpl.
    unfold Py.Qgt_bool. rewrite E. reflexivity.
  - contradiction.
Qed.

Lemma full_read_slew_or_default_runs (ps : Full.PowerSupply) (w : World) :
  Full.read_slew_or_default ps w =
  (Done (Full.slew_used (Full.rdCurSlewRate_get ps (slew_reads w))),
   mkWorld (now w) (cur_reads w) (S (slew_reads w))
           (trace w ++ [EvGet rdCurSlewRate])).
Proof.
  unfold Full.read_slew_or_default, try_except, bind, Full.read_rdCurSlewRate,
    Full.slew_used.
  destruct (Full.rdCurSlewRate_get ps (slew_reads w)) as [s|]; [|reflexivity].
  destruct (Full.fl_le s (Full.Fin 0)); reflexivity.
Qed.

(** The division of line 135 never raises: after the fallback the slew
    rate is not zero. *)
Lemma full_quot_defined (x : Full.Float) (r : option Full.Float) :
  Full.fl_quot x (Full.slew_used r) <> None.
Proof.
  destruct r as [[s| | |]|]; simpl; try discriminate.
  - destruct (Qle_bool s 0) eqn:E; simpl; [discriminate|].
    destruct (Qeq_bool s 0) eqn:Z0; [|discriminate].
    apply Qeq_bool_iff in Z0. apply Qle_bool_false in E. lra.
Qed.

(** A step up to the waiter: it stops there when the readback read of
    line 134 raises, and otherwise enters the waiter with the timeout of
    line 135. *)
Lemma full_per_step_runs (motor : Signal) (step : Q) (ps : Full.PowerSupply)
    (pre_wait_s hold_s tol base_timeout : Q) (fuel : nat) (w : World) :
  match Full.rdCur_get ps (cur_reads w) with
  | None =>
      Full._per_step motor step ps pre_wait_s hold_s tol base_timeout fuel w
      = (Raised (ReadError "rdCur"), at_waiter motor step pre_wait_s w)
  | Some last =>
      exists q,
        Full.fl_quot (Full.fl_abs (Full.fl_sub (Full.Fin step) last))
                     (Full.slew_used (Full.rdCurSlewRate_get ps (slew_reads w)))
          = Some q /\
        Full._per_step motor step ps pre_wait_s hold_s tol base_timeout fuel w
        = Full.settle_and_measure ps step tol
            (Full.fl_add (Full.fl_add (Full.Fin base_timeout) q) (Full.Fin 2))
            hold_s fuel (at_waiter motor step pre_wait_s w)
  end.
Proof.
  assert (Hpre : forall k : Full.Float -> Full.Float -> Plan unit,
            (bps_sleep pre_wait_s ;;
             bps_mv motor step ;;
             slew <- Full.read_slew_or_default ps ;;
             last <- Full.read_rdCur ps ;;
             k last slew)%plan w
            = match Full.rdCur_get ps (cur_reads w) with
              | None => (Raised (ReadError "rdCur"),
                         at_waiter motor step pre_wait_s w)
              | Some last =>
                  k last (Full.slew_used
                            (Full.rdCurSlewRate_get ps (slew_reads w)))
                    (at_waiter motor step pre_wait_s w)
              end).
  { intros k.
    unfold bind at 1. unfold bps_sleep at 1.
    unfold bind at 1. unfold bps_mv, log at 1.
    unfold bind at 1. rewrite full_read_slew_or_default_runs.
    unfold bind at 1. unfold Full.read_rdCur at 1.
    cbn [now cur_reads slew_reads trace].
    unfold at_waiter. rewrite <- !app_assoc.
    destruct (Full.rdCur_get ps (cur_reads w)); reflexivity. }
  unfold Full._per_step.
  rewrite (Hpre (fun last slew =>
     (q <- Full.fl_div (Full.fl_abs (Full.fl_sub (Full.Fin step) last)) slew ;;
      Full.await_in_band ps step
        (arg await_in_band_params [("tol"%string, tol)] "tol")
        (arg await_in_band_params [("tol"%string, tol)] "dwell")
        (arg await_in_band_params [("tol"%string, tol)] "stable_time")
        (Full.fl_add (Full.fl_add (Full.Fin base_timeout) q) (Full.Fin 2))
        fuel ;;
      bps_sleep hold_s ;; bps_trigger_and_read)%plan)).
  destruct (Full.rdCur_get ps (cur_reads w)) as [last|]; [|reflexivity].
  pose proof (full_quot_defined
                (Full.fl_abs (Full.fl_sub (Full.Fin step) last))
                (Full.rdCurSlewRate_get ps (slew_reads w))) as Hq.
  destruct (Full.fl_quot _ _) as [q|] eqn:E; [|contradiction].
  exists q. split; [reflexivity|].
  unfold bind at 1. unfold Full.fl_div. rewrite E. reflexivity.
Qed.

(** With a NaN slew reading the waiter is entered with a NaN timeout. *)
Lemma full_per_step_nan (motor : Signal) (step : Q) (ps : Full.PowerSupply)
    (pre_wait_s hold_s tol base_timeout : Q) (fuel : nat) (w : World) :
  Full.rdCurSlewRate_get ps (slew_reads w) = Some Full.NaN ->
  Full.rdCur_get ps (cur_reads w) <> None ->
  Full._per_step motor step ps pre_wait_s hold_s tol base_timeout fuel w
  = Full.settle_and_measure ps step tol Full.NaN hold_s fuel
      (at_waiter motor step pre_wait_s w).
Proof.
  intros Hs Hr.
  pose proof (full_per_step_runs motor step ps pre_wait_s hold_s tol
                base_timeout fuel w) as H.
  destruct (Full.rdCur_get ps (cur_reads w)) as [last|]; [|contradiction].
  destruct H as (q & Hq & Hrun). rewrite Hrun. rewrite Hs in Hq.
  simpl in Hq. inversion Hq; subst. reflexivity.
Qed.

(** With a slew reading that is not NaN and a finite readback the timeout
    is a number, at least [base_timeout + 2]. *)
Lemma full_per_step_finite (motor : Signal) (step : Q) (ps : Full.PowerSupply)
    (pre_wait_s hold_s tol base_timeout : Q) (fuel : nat) (w : World)
    (last : Q) :
  Full.rdCurSlewRate_get ps (slew_reads w) <> Some Full.NaN ->
  Full.rdCur_get ps (cur_reads w) = Some (Full.Fin last) ->
  exists q,
    Full.fl_quot (Full.Fin (Qabs (step - last)))
                 (Full.slew_used (Full.rdCurSlewRate_get ps (slew_reads w)))
      = Some (Full.Fin q) /\
    0 <= q /\
    Full._per_step motor step ps pre_wait_s hold_s tol base_timeout fuel w
    = Full.settle_and_measure ps step tol (Full.Fin (base_timeout + q + 2))
        hold_s fuel (at_waiter motor step pre_wait_s w).
Proof.
  intros Hs Hr.
  pose proof (full_per_step_runs motor step ps pre_wait_s hold_s tol
                base_timeout fuel w) as H.
  rewrite Hr in H. destruct H as (q & Hq & Hrun).
  pose proof (full_slew_used_positive _ Hs) as Hpos.
  cbn [Full.fl_sub Full.fl_abs] in Hq.
  destruct (Full.slew_used (Full.rdCurSlewRate_get ps (slew_reads w)))
    as [s| | |] eqn:Hslew; simpl in Hpos; try discriminate.
  - apply Qgt_bool_true in Hpos.
    unfold Full.fl_quot in Hq |- *.
    rewrite Qeq_bool_false in Hq |- * by lra.
    inversion Hq; subst q.
    exists (Qabs (step - last) / s). split; [reflexivity|].
    split; [apply Qdiv_nonneg; [apply Qabs_nonneg|exact Hpos]|].
    rewrite Hrun. reflexivity.
  - simpl in Hq. inversion Hq; subst q.
    exists 0. split; [reflexivity|]. split; [lra|].
    rewrite Hrun. reflexivity.
Qed.





(** *** The devices whose reads return finite numbers *)

Lemma lift_await_loop (ps : PowerSupply) (target tol dwell max_time : Q)
    (need : Z) (t0 : Q) (fuel : nat) :
  forall ok w,
    Full.await_loop (lift ps) target tol dwell (Full.Fin max_time) fuel need
                    ok t0 w
    = await_loop ps target tol dwell max_time fuel need ok t0 w.
Proof.
  induction fuel as [|fuel IH]; intros ok w; [reflexivity|].
  rewrite full_await_loop_S, await_loop_S.
  cbn [lift Full.rdCur_get]. cbv zeta.
  change (Full.next_ok tol ok
            (Full.fl_abs (Full.fl_sub (Full.Fin (rdCur_get ps (cur_reads w)))
                                      (Full.Fin target))))
    with (next_ok tol ok (err_at ps target (cur_reads w))).
  destruct (need <=? _)%Z; [reflexivity|].
  change (Full.fl_gt (Full.Fin (now w - t0)) (Full.Fin max_time))
    with (Py.Qgt_bool (now w - t0) max_time).
  destruct (Py.Qgt_bool _ _); [reflexivity|]. apply IH.
Qed.

Lemma lift_await_in_band (ps : PowerSupply)
    (target tol dwell stable_time max_time : Q) (fuel : nat) (w : World) :
  Full.await_in_band (lift ps) target tol dwell stable_time
                     (Full.Fin max_time) fuel w
  = await_in_band ps target tol dwell stable_time max_time fuel w.
Proof.
  unfold Full.await_in_band, await_in_band, bind, float_div.
  destruct (Qeq_bool dwell 0); [reflexivity|].
  unfold ret, time_time. apply lift_await_loop.
Qed.

Lemma lift_slew_used (r : option Q) :
  Full.slew_used (option_map Full.Fin r) = Full.Fin (slew_used r).
Proof.
  destruct r as [s|]; simpl; [|reflexivity].
  destruct (Qle_bool s 0); reflexivity.
Qed.

(** On such a device the step of [Full] is the step above. *)
Lemma lift_per_step (motor : Signal) (step : Q) (ps : PowerSupply)
    (pre_wait_s hold_s tol base_timeout : Q) (fuel : nat) (w : World) :
  Full._per_step motor step (lift ps) pre_wait_s hold_s tol base_timeout fuel w
  = _per_step motor step ps pre_wait_s hold_s tol base_timeout fuel w.
Proof.
  pose proof (full_per_step_runs motor step (lift ps) pre_wait_s hold_s tol
                base_timeout fuel w) as H.
  cbn [lift Full.rdCur_get Full.rdCurSlewRate_get] in H.
  destruct H as (q & Hq & Hrun). rewrite Hrun, per_step_runs.
  rewrite lift_slew_used in Hq.
  pose proof (slew_used_pos (rdCurSlewRate_get ps (slew_reads w))) as Hpos.
  cbn [Full.fl_sub Full.fl_abs Full.fl_quot] in Hq.
  rewrite Qeq_bool_false in Hq by lra.
  inversion Hq; subst q.
  unfold Full.settle_and_measure, settle_and_measure, spec_timeout.
  cbn [Full.fl_add]. unfold bind at 1 3.
  rewrite lift_await_in_band. reflexivity.
Qed.

Lemma scan_loop_ext (f g : Q -> Plan unit) (pts : list Q) :
  (forall p w, f p w = g p w) ->
  forall w, scan_loop f pts w = scan_loop g pts w.
Proof.
  intros H. induction pts as [|p pts IH]; intros w; [reflexivity|].
  simpl. unfold bind. rewrite H.
  destruct (g p w) as [[[]|e|] w1]; [apply IH|reflexivity|reflexivity].
Qed.

Lemma lift_ramp_scan (ps : PowerSupply) (start stop step : Q)
    (pre_wait_s hold_s tol base_timeout : Q) (fuel : nat) (w : World) :
  Full.ramp_scan (lift ps) start stop step pre_wait_s hold_s tol base_timeout
                 fuel w
  = ramp_scan ps start stop step pre_wait_s hold_s tol base_timeout fuel w.
Proof.
  unfold Full.ramp_scan, ramp_scan, bind, float_div.
  destruct (Qeq_bool step 0); [reflexivity|].
  unfold ret, bps_mv, log, scan. apply scan_loop_ext.
  intros p w1. apply lift_per_step.
Qed.

(** *** A NaN timeout *)

(** With a NaN [max_time] the loop never times out: on a readback that
    stays out of band it runs out of any fuel. *)
Lemma full_await_loop_nan (ps : Full.PowerSupply) (target tol dwell : Q)
    (need : Z) (t0 : Q) (fuel : nat) :
  (1 <= need)%Z ->
  (forall n, exists r, Full.rdCur_get ps n = Some r /\
                       Full.fl_le (Full.fl_abs (Full.fl_sub r (Full.Fin target)))
                                  (Full.Fin tol) = false) ->
  forall ok w,
    fst (Full.await_loop ps target tol dwell Full.NaN fuel need ok t0 w)
      = OutOfFuel.
Proof.
  intros Hneed Hout. induction fuel as [|fuel IH]; intros ok w; [reflexivity|].
  rewrite full_await_loop_S.
  destruct (Hout (cur_reads w)) as (r & -> & Hr).
  cbv zeta. unfold Full.next_ok. rewrite Hr.
  destruct (need <=? 0)%Z eqn:E; [apply Z.leb_le in E; lia|].
  cbn [Full.fl_gt]. apply IH.
Qed.

(** ** C10: the slew rate used and the timeout *)

(** C10, where the code departs from it: [nan <= 0] is false, so a NaN
    slew reading passes the guard of line 129: the slew rate used is NaN,
    not a positive number; the waiter is entered with a NaN timeout,
    which no elapsed time exceeds, so it never raises its [TimeoutError];
    and the step to target 1 on a supply stuck at 0 never ends.  On every
    other slew reading (and when the read raises) the slew rate used is
    above zero, and with a finite readback the division is defined and the
    waiter is entered with [base_timeout + q + 2 >= base_timeout + 2].
    The division never raises, NaN or not. *)
Theorem per_step_nan_slew :
  Full.slew_used (Some Full.NaN) = Full.NaN /\
  (forall motor step ps pre_wait_s hold_s tol base_timeout fuel w,
     Full.rdCurSlewRate_get ps (slew_reads w) = Some Full.NaN ->
     Full.rdCur_get ps (cur_reads w) <> None ->
     Full._per_step motor step ps pre_wait_s hold_s tol base_timeout fuel w
     = Full.settle_and_measure ps step tol Full.NaN hold_s fuel
         (at_waiter motor step pre_wait_s w)) /\
  (forall ps target tol dwell stable_time fuel w e w',
     Full.await_in_band ps target tol dwell stable_time Full.NaN fuel w
       = (Raised e, w') ->
     e <> TimeoutError tol target) /\
  (forall fuel,
     fst (Full._per_step wrCurRamp 1 (nan_slew 0) 3 2 (2 # 100) 5 fuel w0)
       = OutOfFuel) /\
  (forall motor step ps pre_wait_s hold_s tol base_timeout fuel w last,
     Full.rdCurSlewRate_get ps (slew_reads w) <> Some Full.NaN ->
     Full.rdCur_get ps (cur_reads w) = Some (Full.Fin last) ->
     exists slew q,
       slew = Full.slew_used (Full.rdCurSlewRate_get ps (slew_reads w)) /\
       Full.fl_gt slew (Full.Fin 0) = true /\
       Full.fl_quot (Full.Fin (Qabs (step - last))) slew = Some (Full.Fin q) /\
       base_timeout + 2 <= base_timeout + q + 2 /\
       Full._per_step motor step ps pre_wait_s hold_s tol base_timeout fuel w
       = Full.settle_and_measure ps step tol
           (Full.Fin (base_timeout + q + 2)) hold_s fuel
           (at_waiter motor step pre_wait_s w)) /\
  (forall motor step ps pre_wait_s hold_s tol base_timeout fuel w w',
     Full._per_step motor step ps pre_wait_s hold_s tol base_timeout fuel w
       <> (Raised ZeroDivisionError, w')).
Proof.
  split; [reflexivity|].
  split; [intros; apply full_per_step_nan; assumption|].
  split.
  { intros ps target tol dwell stable_time fuel w e w' Hrun.
    destruct (Qeq_dec dwell 0) as [Hz|Hnz].
    - rewrite full_await_in_band_zero_dwell in Hrun by exact Hz.
      inversion Hrun. discriminate.
    - rewrite full_await_in_band_loop in Hrun by exact Hnz.
      apply full_await_loop_raised in Hrun.
      destruct Hrun as (_ & _ & [[-> _]|(_ & _ & Hgt)]); [discriminate|].
      discriminate. }
  split.
  { intros fuel. rewrite full_per_step_nan; [|reflexivity|discriminate].
    unfold Full.settle_and_measure. unfold bind at 1.
    rewrite full_await_in_band_loop by exact default_dwell_nonzero.
    pose proof (full_await_loop_nan (nan_slew 0) 1 (2 # 100) (1 # 10)
                  (need_of (fdiv (4 # 10) (1 # 10)))
                  (now (at_waiter wrCurRamp 1 3 w0)) fuel) as H.
    destruct (Full.await_loop _ _ _ _ _ fuel _ _ _ _) as [o w1] eqn:Hw.
    assert (Ho : o = OutOfFuel).
    { change o with (fst (o, w1)). rewrite <- Hw. apply H.
      - apply need_of_pos.
      - intros n. exists (Full.Fin 0). split; reflexivity. }
    subst o. reflexivity. }
  split.
  { intros motor step ps pre_wait_s hold_s tol base_timeout fuel w last Hs Hr.
    destruct (full_per_step_finite motor step ps pre_wait_s hold_s tol
                base_timeout fuel w last Hs Hr) as (q & Hq & Hq0 & Hrun).
    exists (Full.slew_used (Full.rdCurSlewRate_get ps (slew_reads w))), q.
    split; [reflexivity|].
    split; [apply full_slew_used_positive; exact Hs|].
    split; [exact Hq|]. split; [lra|exact Hrun]. }
  intros motor step ps pre_wait_s hold_s tol base_timeout fuel w w' Hrun.
  pose proof (full_per_step_runs motor step ps pre_wait_s hold_s tol
                base_timeout fuel w) as H.
  destruct (Full.rdCur_get ps (cur_reads w)) as [last|].
  - destruct H as (q & _ & Hstep). rewrite Hstep in Hrun.
    unfold Full.settle_and_measure in Hrun. unfold bind at 1 in Hrun.
    rewrite full_await_in_band_loop in Hrun by exact default_dwell_nonzero.
    destruct (Full.await_loop _ _ _ _ _ fuel _ _ _ _) as [o w1] eqn:Hw.
    destruct o as [[]|e|].
    + unfold bind, bps_sleep, bps_trigger_and_read, log in Hrun.
      discriminate.
    + inversion Hrun; subst.
      apply full_await_loop_raised in Hw.
      destruct Hw as (_ & _ & [[He _]|[He _]]); discriminate.
    + discriminate.
  - rewrite H in Hrun. discriminate.
Qed.

(** ** The scan loop *)

Section Scan.

Variable ps : PowerSupply.
Variables pre_wait_s hold_s tol base_timeout : Q.
Variable fuel : nat.

(** [custom] of [ramp_scan], as [scan] applies it to [wrCurRamp]. *)
Local Notation "'one_step'" :=
  (custom ps pre_wait_s hold_s tol base_timeout fuel wrCurRamp).

Lemma custom_puts (pt : Q) (w : World) (out : Outcome unit) (w' : World) :
  one_step pt w = (out, w') ->
  puts_to wrCurRamp (trace w') = puts_to wrCurRamp (trace w) ++ [pt] /\
  puts_to cmdPwrOn (trace w') = puts_to cmdPwrOn (trace w) /\
  n_triggers (trace w') =
    (n_triggers (trace w) + match out with Done _ => 1 | _ => 0 end)%nat.
Proof.
  intros Hrun. unfold custom in Hrun. apply per_step_trace in Hrun.
  destruct Hrun as (w1 & evs & _ & Hall & Htr & Htl & _).
  rewrite Htl, Htr. unfold at_waiter. cbn [trace].
  rewrite !puts_to_app, !n_triggers_app.
  rewrite !(poll_no_puts _ _ _ Hall). unfold n_triggers at 3.
  rewrite (poll_no_triggers _ _ Hall).
  destruct out as [[]|e|]; unfold n_triggers; simpl; rewrite ?app_nil_r;
    repeat apply conj; try reflexivity; lia.
Qed.

(** A loop that ran to its end issued every point and measured at each. *)
Lemma scan_loop_done (pts : list Q) : forall w w',
  scan_loop one_step pts w = (Done tt, w') ->
  puts_to wrCurRamp (trace w') = puts_to wrCurRamp (trace w) ++ pts /\
  puts_to cmdPwrOn (trace w') = puts_to cmdPwrOn (trace w) /\
  n_triggers (trace w') = (n_triggers (trace w) + List.length pts)%nat.
Proof.
  induction pts as [|p pts IH]; intros w w' Hrun.
  - inversion Hrun; subst. rewrite app_nil_r. simpl. repeat apply conj; try reflexivity. lia.
  - simpl in Hrun. unfold bind in Hrun.
    destruct (one_step p w) as [o w1] eqn:Hp.
    destruct o as [[]|e|]; try discriminate.
    apply custom_puts in Hp. destruct Hp as (Hp1 & Hp2 & Hp3).
    apply IH in Hrun. destruct Hrun as (H1 & H2 & H3).
    rewrite H1, H2, H3, Hp1, Hp2, Hp3, <- app_assoc. simpl.
    repeat apply conj; try reflexivity. lia.
Qed.

(** A loop that did not run to its end stopped inside one step, after
    completing the steps before it. *)
Lemma scan_loop_stops (pts : list Q) : forall w out w',
  scan_loop one_step pts w = (out, w') ->
  out <> Done tt ->
  exists before p rest w1,
    pts = before ++ p :: rest /\
    scan_loop one_step before w = (Done tt, w1) /\
    one_step p w1 = (out, w').
Proof.
  induction pts as [|p pts IH]; intros w out w' Hrun Hout.
  - inversion Hrun; subst. contradiction.
  - simpl in Hrun. unfold bind in Hrun.
    destruct (one_step p w) as [o w1] eqn:Hp.
    destruct o as [[]|e|].
    + destruct (IH _ _ _ Hrun Hout) as (before & q & rest & w2 & -> & Hb & Hq).
      exists (p :: before), q, rest, w2. repeat apply conj.
      * reflexivity.
      * simpl. unfold bind. rewrite Hp. exact Hb.
      * exact Hq.
    + inversion Hrun; subst. exists [], p, pts, w. repeat apply conj; try reflexivity. exact Hp.
    + inversion Hrun; subst. exists [], p, pts, w. repeat apply conj; try reflexivity. exact Hp.
Qed.

(** The loop stops at the step that raises. *)
Lemma scan_loop_raise (before : list Q) (p : Q) (rest : list Q) :
  forall w w1 e w2,
    scan_loop one_step before w = (Done tt, w1) ->
    one_step p w1 = (Raised e, w2) ->
    scan_loop one_step (before ++ p :: rest) w = (Raised e, w2).
Proof.
  induction before as [|b before IH]; intros w w1 e w2 Hb Hp.
  - inversion Hb; subst. simpl. unfold bind. rewrite Hp. reflexivity.
  - simpl in Hb |- *. unfold bind in Hb |- *.
    destruct (one_step b w) as [o w'] eqn:Hc.
    destruct o as [[]|e'|]; try discriminate.
    apply (IH _ _ _ _ Hb Hp).
Qed.

End Scan.

(** [ramp_scan] with a non-zero step: power on, then the loop. *)
Lemma ramp_scan_runs (ps : PowerSupply) (start stop step : Q)
    (pre_wait_s hold_s tol base_timeout : Q) (fuel : nat) (w : World) :
  ~ step == 0 ->
  ramp_scan ps start stop step pre_wait_s hold_s tol base_timeout fuel w =
  scan_loop (custom ps pre_wait_s hold_s tol base_timeout fuel wrCurRamp)
    (linspace start stop (Py.int (Qabs (fdiv (fsub stop start) step)) + 1))
    (mkWorld (now w) (cur_reads w) (slew_reads w)
             (trace w ++ [EvPut cmdPwrOn 1])).
Proof.
  intros Hs. unfold ramp_scan, bind, float_div.
  destruct (Qeq_bool step 0) eqn:E.
  - apply Qeq_bool_iff in E. contradiction.
  - reflexivity.
Qed.

(** [ramp_scan] in terms of its setpoints, for any step. *)
Lemma ramp_scan_by_setpoints (ps : PowerSupply) (start stop step : Q)
    (pre_wait_s hold_s tol base_timeout : Q) (fuel : nat) (w : World) :
  ramp_scan ps start stop step pre_wait_s hold_s tol base_timeout fuel w =
  match setpoints start stop step with
  | inl e => (Raised e, w)
  | inr pts =>
      (bps_mv cmdPwrOn 1 ;;
       scan_loop (custom ps pre_wait_s hold_s tol base_timeout fuel wrCurRamp)
                 pts) w
  end.
Proof.
  unfold ramp_scan, setpoints, bind at 1, float_div.
  destruct (Qeq_bool step 0); reflexivity.
Qed.

Lemma setpoints_nonzero (start stop step : Q) :
  ~ step == 0 ->
  setpoints start stop step =
  inr (linspace start stop (Py.int (Qabs (fdiv (fsub stop start) step)) + 1)).
Proof.
  intros Hs. unfold setpoints. destruct (Qeq_bool step 0) eqn:E.
  - apply Qeq_bool_iff in E. contradiction.
  - reflexivity.
Qed.

(** ** C7: a step that times out stops the scan *)

(** C7: when the waiter of a step raises, [_per_step] raises the same
    error in the same world, so that nothing of the step follows the
    raise (no hold sleep, no measurement); a step adds a measurement to
    the trace exactly when it completes, and then after its waiter
    returned and the hold sleep; the loop over the setpoints ends in the
    world and with the error of the first step that raises; and a scan
    that raises has issued the setpoints up to the failing one and no
    later one, with one measurement for each step before it and none for
    the failing step. *)
Theorem per_step_fail_fast (ps : PowerSupply)
    (pre_wait_s hold_s tol base_timeout : Q) (fuel : nat) :
  (forall motor step w e w1,
     await_in_band ps step tol (1 # 10) (4 # 10)
       (spec_timeout base_timeout step (rdCur_get ps (cur_reads w))
                     (slew_used (rdCurSlewRate_get ps (slew_reads w))))
       fuel (at_waiter motor step pre_wait_s w) = (Raised e, w1) ->
     _per_step motor step ps pre_wait_s hold_s tol base_timeout fuel w
       = (Raised e, w1)) /\
  (forall motor step w out w',
     _per_step motor step ps pre_wait_s hold_s tol base_timeout fuel w
       = (out, w') ->
     exists w1 evs,
       await_in_band ps step tol (1 # 10) (4 # 10)
         (spec_timeout base_timeout step (rdCur_get ps (cur_reads w))
                       (slew_used (rdCurSlewRate_get ps (slew_reads w))))
         fuel (at_waiter motor step pre_wait_s w) = (out, w1) /\
       Forall (is_poll (1 # 10)) evs /\
       trace w' =
         trace w ++ [EvSleep pre_wait_s; EvPut motor step;
                     EvGet rdCurSlewRate; EvGet rdCur]
                 ++ evs
                 ++ match out with
                    | Done _ => [EvSleep hold_s; EvTriggerAndRead]
                    | _ => []
                    end /\
       n_triggers (trace w') =
         (n_triggers (trace w) + match out with Done _ => 1 | _ => 0 end)%nat) /\
  (forall before p rest w w1 e w2,
     scan_loop (custom ps pre_wait_s hold_s tol base_timeout fuel wrCurRamp)
               before w = (Done tt, w1) ->
     _per_step wrCurRamp p ps pre_wait_s hold_s tol base_timeout fuel w1
       = (Raised e, w2) ->
     scan_loop (custom ps pre_wait_s hold_s tol base_timeout fuel wrCurRamp)
               (before ++ p :: rest) w = (Raised e, w2)) /\
  (forall start stop step w e w',
     ~ step == 0 ->
     ramp_scan ps start stop step pre_wait_s hold_s tol base_timeout fuel w
       = (Raised e, w') ->
     exists before p rest,
       setpoints start stop step = inr (before ++ p :: rest) /\
       e = TimeoutError tol p /\
       puts_to wrCurRamp (trace w')
         = puts_to wrCurRamp (trace w) ++ before ++ [p] /\
       n_triggers (trace w')
         = (n_triggers (trace w) + List.length before)%nat).
Proof.
  repeat apply conj.
  - intros motor step w e w1 Hw. rewrite per_step_runs.
    unfold settle_and_measure. unfold bind at 1. rewrite Hw. reflexivity.
  - intros motor step w out w' Hrun.
    destruct (per_step_trace _ _ _ _ _ _ _ _ _ _ _ Hrun)
      as (w1 & evs & Hw & Hall & Htr & Htl & _).
    exists w1, evs. split; [exact Hw|]. split; [exact Hall|].
    assert (Hfull : trace w' =
              trace w ++ [EvSleep pre_wait_s; EvPut motor step;
                          EvGet rdCurSlewRate; EvGet rdCur]
                      ++ evs ++ step_tail hold_s out).
    { rewrite Htl, Htr. unfold at_waiter. cbn [trace].
      rewrite <- !app_assoc. reflexivity. }
    split; [exact Hfull|].
    rewrite Hfull, !n_triggers_app. unfold n_triggers at 3.
    rewrite (poll_no_triggers _ _ Hall).
    destruct out as [[]|e|]; unfold n_triggers; simpl; lia.
  - intros before p rest w w1 e w2 Hb Hp.
    apply (scan_loop_raise _ _ _ _ _ _ _ _ _ _ _ _ _ Hb Hp).
  - intros start stop step w e w' Hs Hrun.
    rewrite ramp_scan_runs in Hrun by exact Hs.
    apply scan_loop_stops in Hrun; [|discriminate].
    destruct Hrun as (before & p & rest & w1 & Hpts & Hb & Hp).
    exists before, p, rest.
    apply scan_loop_done in Hb. destruct Hb as (Hb1 & _ & Hb3).
    pose proof (custom_puts _ _ _ _ _ _ _ _ _ _ Hp) as (Hp1 & _ & Hp3).
    cbn [trace] in Hb1, Hb3.
    rewrite puts_to_app in Hb1. rewrite n_triggers_app in Hb3.
    unfold custom in Hp.
    destruct (per_step_trace _ _ _ _ _ _ _ _ _ _ _ Hp) as (w2 & _ & Hw & _).
    apply await_in_band_raises in Hw; [|exact default_dwell_nonzero].
    repeat apply conj.
    + rewrite setpoints_nonzero by exact Hs. rewrite Hpts. reflexivity.
    + apply Hw.
    + rewrite Hp1, Hb1. simpl. rewrite app_nil_r, <- app_assoc. reflexivity.
    + rewrite Hp3, Hb3. unfold n_triggers at 2. simpl. lia.
Qed.

(** A supply frozen at 0, scanned from 0 to 5 in one step of 5: the first
    setpoint settles, the second times out; two setpoints were written and
    one measurement was taken. *)
Lemma per_step_fail_fast_witness :
  exists e w',
    ramp_scan (steady 0 1) 0 5 5 3 2 (2 # 100) 5 200 w0 = (Raised e, w') /\
    exists before p rest,
      setpoints 0 5 5 = inr (before ++ p :: rest) /\
      e = TimeoutError (2 # 100) p /\
      puts_to wrCurRamp (trace w')
        = puts_to wrCurRamp (trace w0) ++ before ++ [p] /\
      n_triggers (trace w')
        = (n_triggers (trace w0) + List.length before)%nat.
Proof.
  destruct (ramp_scan (steady 0 1) 0 5 5 3 2 (2 # 100) 5 200 w0)
    as [o w'] eqn:Hrun.
  assert (Ho : fst (ramp_scan (steady 0 1) 0 5 5 3 2 (2 # 100) 5 200 w0)
               = Raised (TimeoutError (2 # 100) (0 + 1 * ((5 - 0) / 1))))
    by (vm_compute; reflexivity).
  rewrite Hrun in Ho. simpl in Ho. subst o. eexists. exists w'. split; [reflexivity|].
  destruct (per_step_fail_fast (steady 0 1) 3 2 (2 # 100) 5 200)
    as (_ & _ & _ & H).
  assert (Hs : ~ 5 == 0) by discriminate.
  exact (H 0 5 5 w0 _ w' Hs Hrun).
Defined.

(** ** C8: what is rejected before the scan starts *)

(** C8, where the code departs from it: a negative tolerance is not
    rejected.  The scan powers the supply on, writes the first setpoint,
    reads the device and only fails when the first waiter times out. *)
Lemma ramp_scan_negative_tol_runs :
  exists p w',
    call_ramp_scan (steady 0 1) 0 1 (1 # 2) [("tol"%string, -1)] 100 w0
      = (Raised (TimeoutError (-1) p), w') /\
    p == 0 /\
    firstn 5 (trace w') =
      [EvPut cmdPwrOn 1; EvSleep 3; EvPut wrCurRamp p; EvGet rdCurSlewRate;
       EvGet rdCur] /\
    cur_reads w' = 73%nat.
Proof.
  eexists. eexists. split; [vm_compute; reflexivity|].
  split; [reflexivity|]. split; reflexivity.
Qed.

(** C8 (amended): with a zero step the scan raises before it does
    anything: the error is the [ZeroDivisionError] of line 96 (or
    the rejection of an unknown keyword), and the world, with its trace, is
    the one the scan was started in: no power-on, no setpoint write, no
    read. *)
Theorem ramp_scan_zero_step (ps : PowerSupply) (start stop step : Q)
    (kw : Kwargs) (fuel : nat) (w : World) :
  step == 0 ->
  (forall pre_wait_s hold_s tol base_timeout,
     ramp_scan ps start stop step pre_wait_s hold_s tol base_timeout fuel w
       = (Raised ZeroDivisionError, w)) /\
  (exists e,
     call_ramp_scan ps start stop step kw fuel w = (Raised e, w) /\
     (unexpected ramp_scan_params kw = None -> e = ZeroDivisionError)).
Proof.
  intros Hs.
  assert (Hz : forall a b c d,
             ramp_scan ps start stop step a b c d fuel w
             = (Raised ZeroDivisionError, w)).
  { intros a b c d. unfold ramp_scan, bind, float_div.
    apply Qeq_bool_iff in Hs. rewrite Hs. reflexivity. }
  split; [exact Hz|].
  unfold call_ramp_scan. destruct (unexpected ramp_scan_params kw) as [n|].
  - exists (TypeError n). split; [reflexivity|discriminate].
  - exists ZeroDivisionError. split; [apply Hz|reflexivity].
Qed.

Lemma ramp_scan_zero_step_witness :
  call_ramp_scan (steady 0 1) 0 1 0 [] 10 w0 = (Raised ZeroDivisionError, w0).
Proof.
  assert (Hs : 0 == 0) by reflexivity.
  destruct (ramp_scan_zero_step (steady 0 1) 0 1 0 [] 10 w0 Hs)
    as (_ & e & Hrun & He).
  rewrite Hrun. rewrite (He eq_refl). reflexivity.
Defined.

(** ** C6: the tunables of a scan *)

Lemma ramp_scan_param_names (n : string) :
  kw_lookup n ramp_scan_params <> None <->
  In n ["pre_wait_s"; "hold_s"; "tol"; "base_timeout"]%string.
Proof.
  unfold ramp_scan_params, kw_lookup.
  repeat match goal with
         | |- context [String.eqb ?a n] =>
             destruct (String.eqb_spec a n) as [<-|?];
             [split; [intros _; simpl; tauto|discriminate]|]
         end.
  split; [congruence|]. simpl. intros H. exfalso.
  repeat destruct H as [H|H]; try contradiction.
Qed.

(** C6, where the code departs from it: [ramp_scan] has no [dwell]
    parameter; a scan invoked with one is rejected. *)
Lemma ramp_scan_rejects_dwell :
  call_ramp_scan (steady 0 1) 0 1 (1 # 2) [("dwell"%string, 1 # 2)] 100 w0
    = (Raised (TypeError "dwell"), w0).
Proof. reflexivity. Qed.

(** C6 (amended): a scan accepts the keywords [pre_wait_s], [hold_s],
    [tol] and [base_timeout], with defaults 3, 2, 0.02 and 5, and no
    other; [dwell], [stable_time] and [max_time] are parameters of the
    waiter alone, with defaults 0.1, 0.4 and 10; and in every step the
    waiter runs with [dwell = 0.1], [stable_time = 0.4], the scan's
    [tol], and for [max_time] the dynamic timeout. *)
Theorem ramp_scan_tunables (ps : PowerSupply) (start stop step : Q)
    (fuel : nat) (w : World) :
  (forall kw,
     unexpected ramp_scan_params kw = None <->
     forall name, In name (map fst kw) ->
                  In name ["pre_wait_s"; "hold_s"; "tol"; "base_timeout"]%string) /\
  call_ramp_scan ps start stop step [] fuel w
    = ramp_scan ps start stop step 3 2 (2 # 100) 5 fuel w /\
  (forall name v,
     In name ["dwell"; "stable_time"; "max_time"]%string ->
     call_ramp_scan ps start stop step [(name, v)] fuel w
       = (Raised (TypeError name), w)) /\
  (forall target,
     call_await_in_band ps target [] fuel w
       = await_in_band ps target (2 # 100) (1 # 10) (4 # 10) 10 fuel w) /\
  (forall motor pt pre_wait_s hold_s tol base_timeout w1,
     _per_step motor pt ps pre_wait_s hold_s tol base_timeout fuel w1 =
     (await_in_band ps pt tol (1 # 10) (4 # 10)
        (base_timeout
         + Qabs (pt - rdCur_get ps (cur_reads w1))
           / slew_used (rdCurSlewRate_get ps (slew_reads w1))
         + 2) fuel ;;
      bps_sleep hold_s ;;
      bps_trigger_and_read) (at_waiter motor pt pre_wait_s w1)).
Proof.
  repeat apply conj.
  - induction kw as [|[n v] kw IH].
    + split; [intros _ name []|reflexivity].
    + change (unexpected ramp_scan_params ((n, v) :: kw))
        with (match kw_lookup n ramp_scan_params with
              | Some _ => unexpected ramp_scan_params kw
              | None => Some n
              end).
      change (map fst ((n, v) :: kw)) with (n :: map fst kw).
      pose proof (ramp_scan_param_names n) as Hn.
      destruct (kw_lookup n ramp_scan_params) as [d|].
      * rewrite IH. split.
        -- intros H name [<-|Hin]; [|apply H; exact Hin].
           apply Hn. discriminate.
        -- intros H name Hin. apply H. right. exact Hin.
      * split; [discriminate|]. intros H. exfalso.
        apply Hn; [|reflexivity]. apply H. left. reflexivity.
  - reflexivity.
  - intros name v [<-|[<-|[<-|[]]]]; reflexivity.
  - intros target. reflexivity.
  - intros. apply per_step_runs.
Qed.

(** ** C2: the setpoints of a scan *)

Lemma linspace_length (start stop : Q) (num : Z) :
  List.length (linspace start stop num) = Z.to_nat num.
Proof. unfold linspace. rewrite length_map, length_seq. reflexivity. Qed.

Lemma nth_map_seq {A : Type} (f : nat -> A) (d : A) (n : nat) :
  forall a i, (i < n)%nat -> nth i (map f (seq a n)) d = f (a + i)%nat.
Proof.
  induction n as [|n IH]; intros a i Hi; [lia|].
  destruct i as [|i]; simpl.
  - rewrite Nat.add_0_r. reflexivity.
  - rewrite IH by lia. f_equal. lia.
Qed.

Lemma linspace_nth (start stop : Q) (num : Z) (i : nat) :
  (i < Z.to_nat num)%nat ->
  nth i (linspace start stop num) 0 ==
  start + Qnat i * ((stop - start) / inject_Z (num - 1)).
Proof.
  intros Hi. unfold linspace. rewrite nth_map_seq by exact Hi.
  cbv zeta. rewrite Nat.add_0_l. fold (Qnat i).
  destruct (0 <? num - 1)%Z eqn:E; [reflexivity|].
  apply Z.ltb_ge in E.
  assert (Hi0 : i = 0%nat) by lia. subst i. rewrite Qnat_0. lra.
Qed.

Lemma Qabs_div (a b : Q) : Qabs (a / b) == Qabs a / Qabs b.
Proof. unfold Qdiv. rewrite Qabs_Qmult, Qabs_Qinv. reflexivity. Qed.

(** [npts] of line 96, minus one: the rounded quotient of the two
    magnitudes, truncated. *)
Lemma npts_rounded (start stop step : Q) :
  Py.int (Qabs (fdiv (fsub stop start) step))
  = Py.floor (b64 (Qabs (fsub stop start) / Qabs (b64 step))).
Proof.
  rewrite int_floor by apply Qabs_nonneg.
  unfold Py.floor, fdiv. apply Qfloor_comp.
  rewrite <- b64_abs, Qabs_div.
  pose proof (b64_idem (b64 stop - b64 start)) as I. unfold is_b64 in I.
  fold (fsub stop start) in I. rewrite I. reflexivity.
Qed.

Lemma npts_pos (start stop step : Q) :
  (1 <= Py.int (Qabs (fdiv (fsub stop start) step)) + 1)%Z.
Proof.
  pose proof (int_nonneg _ (Qabs_nonneg (fdiv (fsub stop start) step))). lia.
Qed.

Lemma Qabs_pos_nonzero (x : Q) : ~ x == 0 -> 0 < Qabs x.
Proof.
  intros Hx. destruct (Qlt_le_dec 0 (Qabs x)) as [H|H]; [exact H|].
  exfalso. apply Hx. apply Qabs_Qle_condition in H. lra.
Qed.

Lemma linspace_spacing (start stop : Q) (num : Z) (i : nat) :
  (S i < Z.to_nat num)%nat ->
  nth (S i) (linspace start stop num) 0 - nth i (linspace start stop num) 0
  == (stop - start) / inject_Z (num - 1).
Proof.
  intros Hi. rewrite !linspace_nth by lia. rewrite Qnat_S. lra.
Qed.

(** C2, where the code departs from it: from 0 to 1 with step 0.3 the
    scan visits 4 points that are 1/3 apart, not 0.3; and with a negative
    step (from 1 to 0 by -0.5) it visits 3 points while
    [floor(|stop - start| / step) + 1] is -1. *)
Lemma ramp_scan_spacing_is_not_step :
  (exists pts,
     setpoints 0 1 (3 # 10) = inr pts /\
     List.length pts = 4%nat /\
     nth 1 pts 0 - nth 0 pts 0 == 1 # 3 /\
     ~ nth 1 pts 0 - nth 0 pts 0 == 3 # 10) /\
  (exists pts,
     setpoints 1 0 (- (1 # 2)) = inr pts /\
     List.length pts = 3%nat /\
     (Py.floor (Qabs (0 - 1) / - (1 # 2)) + 1)%Z = (-1)%Z).
Proof.
  split; eexists; (split; [vm_compute; reflexivity|]).
  - split; [reflexivity|]. split; [reflexivity|discriminate].
  - split; reflexivity.
Qed.

(** Rounding before [int()] moves the number of setpoints across whole
    steps: from 0 to 0.3 by 0.1 the quotient is [2.9999999999999996] and
    the scan visits [0, 0.15, 0.3]; from 0 to 1 by 0.1 it visits 11
    points, 0.1 apart; from 0.2 to 0.3 by 0.1 the rounded difference is
    below the step and the scan visits 0.2 alone. *)
Lemma ramp_scan_setpoints_rounding :
  (exists p0 p1 p2,
     setpoints 0 (3 # 10) (1 # 10) = inr [p0; p1; p2] /\
     p0 == 0 /\ p1 == 15 # 100 /\ p2 == 3 # 10) /\
  (exists pts,
     setpoints 0 1 (1 # 10) = inr pts /\
     List.length pts = 11%nat /\
     nth 1 pts 0 - nth 0 pts 0 == 1 # 10) /\
  (exists p0, setpoints (2 # 10) (3 # 10) (1 # 10) = inr [p0] /\ p0 == 2 # 10) /\
  (exists p0 p1,
     setpoints (1 # 10) (6 # 10) (5 # 10) = inr [p0; p1] /\
     p0 == 1 # 10 /\ p1 == 6 # 10).
Proof.
  split; [|split; [|split]].
  - do 3 eexists. split; [vm_compute; reflexivity|].
    split; [|split]; reflexivity.
  - eexists. split; [vm_compute; reflexivity|]. split; reflexivity.
  - eexists. split; [vm_compute; reflexivity|]. reflexivity.
  - do 2 eexists. split; [vm_compute; reflexivity|]. split; reflexivity.
Qed.

(** C2 (amended): for [step <> 0] the scan visits [npts = int(|q|) + 1]
    setpoints, where [q] is the binary64 quotient [(stop - start) / step]
    of line 96; [npts - 1] is the floor or the ceiling of the exact
    quotient of the magnitudes of the two doubles, according to the side
    rounding puts [q] on.  The setpoints are evenly spaced from [start] to
    [stop]: consecutive ones differ by [(stop - start) / (npts - 1)].
    The scan takes [|k|] steps when the difference line 96 computes is
    [k] times the double [step]; and when [stop - start] is a whole
    multiple [k] of [step] and the scan takes [|k|] steps, the difference
    between consecutive setpoints is [step] with the sign of
    [stop - start], namely [sgn(k) * step].  A scan that completes has
    written exactly these setpoints, in this order. *)
Theorem ramp_scan_setpoints (start stop step : Q) :
  ~ step == 0 ->
  let npts := (Py.int (Qabs (fdiv (fsub stop start) step)) + 1)%Z in
  let exact := Qabs (fsub stop start) / Qabs (b64 step) in
  exists pts,
    setpoints start stop step = inr pts /\
    Z.of_nat (List.length pts) = npts /\
    (exact <= inject_Z (2 ^ 53 - 1) ->
     (Py.floor exact + 1 <= npts <= Py.ceil exact + 1)%Z) /\
    (forall i, (i < List.length pts)%nat ->
       nth i pts 0 == start + Qnat i * ((stop - start) / inject_Z (npts - 1))) /\
    (forall i, (S i < List.length pts)%nat ->
       nth (S i) pts 0 - nth i pts 0 == (stop - start) / inject_Z (npts - 1)) /\
    (forall k : Z,
       (Z.abs k < 2 ^ 53)%Z ->
       fsub stop start == inject_Z k * b64 step ->
       npts = (Z.abs k + 1)%Z) /\
    (forall k : Z,
       stop - start == inject_Z k * step ->
       npts = (Z.abs k + 1)%Z ->
       forall i, (S i < List.length pts)%nat ->
         nth (S i) pts 0 - nth i pts 0 == inject_Z (Z.sgn k) * step) /\
    (forall ps pre_wait_s hold_s tol base_timeout fuel w w',
       ramp_scan ps start stop step pre_wait_s hold_s tol base_timeout fuel w
         = (Done tt, w') ->
       puts_to wrCurRamp (trace w') = puts_to wrCurRamp (trace w) ++ pts).
Proof.
  intros Hs npts exact.
  assert (Hpos : (1 <= npts)%Z) by apply npts_pos.
  exists (linspace start stop npts).
  rewrite linspace_length.
  split; [apply setpoints_nonzero; exact Hs|].
  split; [lia|].
  split.
  { intros Hmax. unfold npts. rewrite npts_rounded. fold exact.
    assert (H0 : 0 <= exact).
    { unfold exact. apply Qle_shift_div_l.
      - apply Qabs_pos_nonzero. intro E.
        destruct (Q_dec step 0) as [[H|H]|H]; [| |contradiction].
        + pose proof (b64_neg step H). lra.
        + pose proof (b64_pos step H). lra.
      - rewrite Qmult_0_l. apply Qabs_nonneg. }
    pose proof (b64_floor_bracket exact H0 Hmax). unfold Py.floor, Py.ceil. lia. }
  split; [intros i Hi; apply linspace_nth; exact Hi|].
  split; [intros i Hi; apply linspace_spacing; exact Hi|].
  split.
  { intros k Hk53 Hk. unfold npts. rewrite npts_rounded. unfold Py.floor.
    assert (Hs' : ~ b64 step == 0) by (apply b64_nonzero; exact Hs).
    assert (Hq : Qabs (fsub stop start) / Qabs (b64 step)
                 == inject_Z (Z.abs k)).
    { rewrite <- Qabs_div, Hk.
      assert (E : inject_Z k * b64 step / b64 step == inject_Z k)
        by (field; exact Hs').
      rewrite E. unfold inject_Z. rewrite <- Zabs_Qabs. reflexivity. }
    pose proof (is_b64_Z (Z.abs k) ltac:(lia)) as B. unfold is_b64 in B.
    rewrite (Qfloor_comp _ _ (b64_comp _ _ Hq)), (Qfloor_comp _ _ B), Qfloor_Z.
    reflexivity. }
  split.
  - intros k Hk Hn i Hi.
    rewrite linspace_spacing by exact Hi. rewrite Hn, Hk.
    replace (Z.abs k + 1 - 1)%Z with (Z.abs k) by lia.
    assert (Hk0 : k <> 0%Z) by lia.
    assert (Hab : ~ inject_Z (Z.abs k) == 0).
    { change 0 with (inject_Z 0). rewrite inject_Z_injective. lia. }
    assert (Hsg : inject_Z k == inject_Z (Z.sgn k) * inject_Z (Z.abs k)).
    { rewrite <- inject_Z_mult, inject_Z_injective.
      symmetry. rewrite Z.mul_comm. apply Z.abs_sgn. }
    rewrite Hsg. field. exact Hab.
  - intros ps pre_wait_s hold_s tol base_timeout fuel w w' Hrun.
    rewrite ramp_scan_runs in Hrun by exact Hs.
    apply scan_loop_done in Hrun. destruct Hrun as (H & _).
    rewrite H. cbn [trace]. rewrite puts_to_app. simpl.
    rewrite app_nil_r. reflexivity.
Qed.

(** The end-to-end scenario of the spec: from 0 to 1 by 0.5 the setpoints
    are [0, 0.5, 1], each [step] after the previous one. *)
Lemma ramp_scan_setpoints_witness :
  exists pts,
    setpoints 0 1 (1 # 2) = inr pts /\
    Z.of_nat (List.length pts) = 3%Z /\
    nth 1 pts 0 - nth 0 pts 0 == 1 # 2 /\
    nth 2 pts 0 - nth 1 pts 0 == 1 # 2.
Proof.
  assert (Hs : ~ (1 # 2) == 0) by discriminate.
  destruct (ramp_scan_setpoints 0 1 (1 # 2) Hs)
    as (pts & Hpts & Hlen & _ & _ & _ & Hmul & Hk & _).
  assert (H53 : (Z.abs 2 < 2 ^ 53)%Z) by reflexivity.
  assert (Hd : fsub 1 0 == inject_Z 2 * b64 (1 # 2))
    by (vm_compute; reflexivity).
  pose proof (Hmul 2%Z H53 Hd) as Hn. rewrite Hn in Hlen.
  assert (Hm : 1 - 0 == inject_Z 2 * (1 # 2)) by reflexivity.
  pose proof (Hk 2%Z Hm Hn) as Hstep.
  exists pts. split; [exact Hpts|]. split; [exact Hlen|].
  split; apply Hstep; lia.
Defined.

(** * Further properties of the controller *)

(** ** The waiter on an arbitrary readback *)

(** More fuel does not change a run that ended. *)
Lemma await_loop_fuel_mono (ps : PowerSupply) (target tol dwell max_time : Q)
    (need : Z) (t0 : Q) (fuel : nat) :
  forall ok w out w' k,
    await_loop ps target tol dwell max_time fuel need ok t0 w = (out, w') ->
    out <> OutOfFuel ->
    await_loop ps target tol dwell max_time (fuel + k) need ok t0 w = (out, w').
Proof.
  induction fuel as [|fuel IH]; intros ok w out w' k Hrun Hout.
  - inversion Hrun; subst. contradiction.
  - change (S fuel + k)%nat with (S (fuel + k)).
    rewrite await_loop_S in Hrun |- *. cbv zeta in Hrun |- *.
    destruct (need <=? _)%Z; [exact Hrun|].
    destruct (Py.Qgt_bool _ _); [exact Hrun|].
    apply IH; assumption.
Qed.

(** The trace and the read counts of any run of the loop. *)
Lemma await_loop_shape (ps : PowerSupply) (target tol dwell max_time : Q)
    (need : Z) (t0 : Q) (fuel : nat) :
  forall ok w out w',
    await_loop ps target tol dwell max_time fuel need ok t0 w = (out, w') ->
    exists n,
      slew_reads w' = slew_reads w /\
      match out with
      | OutOfFuel =>
          cur_reads w' = (cur_reads w + n)%nat /\
          trace w' = trace w ++ poll_trace dwell n
      | _ =>
          cur_reads w' = (cur_reads w + S n)%nat /\
          trace w' = trace w ++ poll_trace dwell n ++ [EvGet rdCur]
      end.
Proof.
  induction fuel as [|fuel IH]; intros ok w out w' Hrun.
  - inversion Hrun; subst. exists 0%nat. simpl. rewrite app_nil_r.
    split; [reflexivity|]. split; [lia|reflexivity].
  - rewrite await_loop_S in Hrun. cbv zeta in Hrun.
    destruct (need <=? _)%Z.
    { inversion Hrun; subst. exists 0%nat. simpl.
      split; [reflexivity|]. split; [lia|reflexivity]. }
    destruct (Py.Qgt_bool _ _).
    { inversion Hrun; subst. exists 0%nat. simpl.
      split; [reflexivity|]. split; [lia|reflexivity]. }
    apply IH in Hrun. destruct Hrun as (n & Hs & Hout).
    exists (S n). split; [exact Hs|].
    destruct out as [[]|e|]; destruct Hout as (Hc & Htr); simpl in Hc, Htr;
      (split; [lia|]); rewrite Htr; simpl; rewrite <- !app_assoc; reflexivity.
Qed.

Lemma floor_of_multiple (m : nat) (x d : Q) :
  0 < d -> Qnat m * d <= x -> (Z.of_nat m <= Qfloor (x / d))%Z.
Proof.
  intros Hd H. rewrite <- (Qfloor_Z (Z.of_nat m)).
  apply Qfloor_resp_le. apply Qle_shift_div_l; assumption.
Qed.

(** Number of samples after which the waiter has given up at the latest,
    counting from 0. *)
Lemma last_sample_bound (n : nat) (x d : Q) :
  0 < d ->
  (n = 0%nat \/ Qnat (n - 1) * d <= x) ->
  (Z.of_nat n <= Z.max 0 (Qfloor (x / d) + 1))%Z.
Proof.
  intros Hd [->|H]; [lia|].
  apply floor_of_multiple in H; [|exact Hd]. lia.
Qed.

Lemma await_in_band_ends (ps : PowerSupply)
    (target tol dwell stable_time max_time : Q) (w : World) (fuel : nat)
    (out : Outcome unit) (w' : World) :
  0 < dwell ->
  (Z.max 0 (Qfloor (max_time / dwell) + 1) < Z.of_nat fuel)%Z ->
  await_in_band ps target tol dwell stable_time max_time fuel w = (out, w') ->
  out = Done tt \/ out = Raised (TimeoutError tol target).
Proof.
  intros Hd Hfuel Hrun.
  assert (Hd0 : ~ dwell == 0) by (intro E; rewrite E in Hd; discriminate).
  rewrite await_in_band_loop in Hrun by exact Hd0.
  apply await_loop_inv in Hrun. destruct Hrun as (n & Hle & Hgo & Hout).
  destruct out as [[]|e|].
  - left. reflexivity.
  - right. destruct Hout as (-> & _). reflexivity.
  - exfalso. subst n.
    destruct fuel as [|f]; [lia|].
    destruct (Hgo f ltac:(lia)) as [_ Ht].
    rewrite slept_pos in Ht by (apply Qlt_le_weak; exact Hd).
    assert (Hf : Qnat f * dwell <= max_time) by lra.
    apply floor_of_multiple in Hf; [|exact Hd]. lia.
Qed.

Lemma await_in_band_fuel_mono (ps : PowerSupply)
    (target tol dwell stable_time max_time : Q) (fuel k : nat) (w : World)
    (out : Outcome unit) (w' : World) :
  await_in_band ps target tol dwell stable_time max_time fuel w = (out, w') ->
  out <> OutOfFuel ->
  await_in_band ps target tol dwell stable_time max_time (fuel + k) w
    = (out, w').
Proof.
  intros Hrun Hout. destruct (Qeq_dec dwell 0) as [Hz|Hnz].
  - rewrite await_in_band_zero_dwell in Hrun |- * by exact Hz. exact Hrun.
  - rewrite await_in_band_loop in Hrun |- * by exact Hnz.
    apply await_loop_fuel_mono; assumption.
Qed.

(** The waiter polls a bounded number of times: with [dwell > 0] and more
    than [max(0, floor(max_time / dwell) + 1)] units of fuel it returns or
    raises its timeout, whatever the readback does. *)
Theorem await_in_band_terminates (ps : PowerSupply)
    (target tol dwell stable_time max_time : Q) (w : World) (fuel : nat) :
  0 < dwell ->
  (Z.max 0 (Qfloor (max_time / dwell) + 1) < Z.of_nat fuel)%Z ->
  exists out w',
    await_in_band ps target tol dwell stable_time max_time fuel w = (out, w') /\
    (out = Done tt \/ out = Raised (TimeoutError tol target)) /\
    (forall k,
       await_in_band ps target tol dwell stable_time max_time (fuel + k) w
         = (out, w')).
Proof.
  intros Hd Hfuel.
  destruct (await_in_band ps target tol dwell stable_time max_time fuel w)
    as [out w'] eqn:Hrun.
  pose proof (await_in_band_ends _ _ _ _ _ _ _ _ _ _ Hd Hfuel Hrun) as Hfin.
  exists out, w'. split; [reflexivity|]. split; [exact Hfin|].
  intros k. apply await_in_band_fuel_mono; [exact Hrun|].
  destruct Hfin as [-> | ->]; discriminate.
Qed.

Lemma await_in_band_terminates_witness :
  exists out w',
    await_in_band (steady 0 1) 5 (2 # 100) (1 # 10) (4 # 10) 1 12 w0
      = (out, w') /\
    (out = Done tt \/ out = Raised (TimeoutError (2 # 100) 5)).
Proof.
  assert (Hd : 0 < 1 # 10) by reflexivity.
  assert (Hf : (Z.max 0 (Qfloor (1 / (1 # 10)) + 1) < Z.of_nat 12)%Z)
    by reflexivity.
  destruct (await_in_band_terminates (steady 0 1) 5 (2 # 100) (1 # 10)
              (4 # 10) 1 w0 12 Hd Hf) as (out & w' & Hrun & Hfin & _).
  exists out, w'. split; [exact Hrun|exact Hfin].
Defined.

Lemma await_in_band_elapsed (ps : PowerSupply)
    (target tol dwell stable_time max_time : Q) (fuel : nat)
    (w : World) (out : Outcome unit) (w' : World) :
  0 < dwell ->
  await_in_band ps target tol dwell stable_time max_time fuel w = (out, w') ->
  out <> OutOfFuel ->
  exists n,
    cur_reads w' = (cur_reads w + S n)%nat /\
    slew_reads w' = slew_reads w /\
    now w' == now w + Qnat n * dwell /\
    (n = 0%nat \/ Qnat (n - 1) * dwell <= max_time).
Proof.
  intros Hd Hrun Hout.
  assert (Hd0 : ~ dwell == 0) by (intro E; rewrite E in Hd; discriminate).
  assert (Hdle : 0 <= dwell) by (apply Qlt_le_weak; exact Hd).
  rewrite await_in_band_loop in Hrun by exact Hd0.
  pose proof (await_loop_shape _ _ _ _ _ _ _ _ _ _ _ _ Hrun) as (k & Hslew & _).
  apply await_loop_inv in Hrun. destruct Hrun as (n & _ & Hgo & Hres).
  assert (Hfacts : cur_reads w' = (cur_reads w + S n)%nat /\
                   now w' == now w + Qnat n * slept dwell).
  { destruct out as [[]|e|]; [| |contradiction].
    - destruct Hres as (Hc & _ & Hn). split; assumption.
    - destruct Hres as (_ & Hc & _ & _ & Hn). split; assumption. }
  destruct Hfacts as (Hc & Hn). rewrite slept_pos in Hn by exact Hdle.
  exists n. split; [exact Hc|]. split; [exact Hslew|]. split; [exact Hn|].
  destruct n as [|m]; [left; reflexivity|right].
  destruct (Hgo m ltac:(lia)) as [_ Ht].
  rewrite slept_pos in Ht by exact Hdle.
  replace (S m - 1)%nat with m by lia. lra.
Qed.

(** A wait that ended, in success or in timeout, took at most
    [max(0, floor(max_time / dwell) + 1) + 1] samples and lasted [dwell]
    seconds per sample after the first: no longer than [max_time + dwell]
    unless it ended at its first sample. *)
Theorem await_in_band_duration (ps : PowerSupply)
    (target tol dwell stable_time max_time : Q) (fuel : nat)
    (w : World) (out : Outcome unit) (w' : World) :
  0 < dwell ->
  await_in_band ps target tol dwell stable_time max_time fuel w = (out, w') ->
  out <> OutOfFuel ->
  exists n,
    cur_reads w' = (cur_reads w + S n)%nat /\
    (Z.of_nat n <= Z.max 0 (Qfloor (max_time / dwell) + 1))%Z /\
    now w' - now w == Qnat n * dwell /\
    (n = 0%nat \/ now w' - now w <= max_time + dwell).
Proof.
  intros Hd Hrun Hout.
  destruct (await_in_band_elapsed _ _ _ _ _ _ _ _ _ _ Hd Hrun Hout)
    as (n & Hc & _ & Hn & Hprev).
  exists n. split; [exact Hc|].
  split; [apply last_sample_bound; assumption|].
  split; [rewrite Hn; lra|].
  destruct Hprev as [H0|Hp]; [left; exact H0|right].
  destruct n as [|m];
    [simpl in Hp; rewrite Qnat_0 in Hp; rewrite Hn, Qnat_0; lra|].
  replace (S m - 1)%nat with m in Hp by lia.
  rewrite Hn, Qnat_S. lra.
Qed.

Lemma await_in_band_duration_witness :
  exists w' n,
    await_in_band (steady 0 1) 5 (2 # 100) (1 # 10) (4 # 10) 1 12 w0
      = (Raised (TimeoutError (2 # 100) 5), w') /\
    cur_reads w' = (cur_reads w0 + S n)%nat /\
    (Z.of_nat n <= 11)%Z.
Proof.
  destruct (await_in_band (steady 0 1) 5 (2 # 100) (1 # 10) (4 # 10) 1 12 w0)
    as [out w'] eqn:Hrun.
  assert (Ho : fst (await_in_band (steady 0 1) 5 (2 # 100) (1 # 10) (4 # 10)
                                  1 12 w0)
               = Raised (TimeoutError (2 # 100) 5)) by reflexivity.
  rewrite Hrun in Ho. simpl in Ho. subst out.
  assert (Hd : 0 < 1 # 10) by reflexivity.
  assert (Hne : Raised (TimeoutError (2 # 100) 5) <> @OutOfFuel unit)
    by discriminate.
  destruct (await_in_band_duration (steady 0 1) 5 (2 # 100) (1 # 10) (4 # 10)
              1 12 w0 _ w' Hd Hrun Hne) as (n & Hc & Hb & _).
  exists w', n. split; [reflexivity|]. split; [exact Hc|exact Hb].
Defined.

(** Everything the waiter does to the outside: it reads the readback and
    sleeps [dwell] in turn, starting and (unless it runs out of fuel)
    ending with a read; it writes nothing, triggers nothing and does not
    read the slew rate. *)
Theorem await_in_band_only_polls (ps : PowerSupply)
    (target tol dwell stable_time max_time : Q) (fuel : nat)
    (w : World) (out : Outcome unit) (w' : World) :
  await_in_band ps target tol dwell stable_time max_time fuel w = (out, w') ->
  exists evs,
    trace w' = trace w ++ evs /\
    (forall s, puts_to s evs = []) /\
    n_triggers evs = 0%nat /\
    slew_reads w' = slew_reads w /\
    (dwell == 0 -> evs = []) /\
    (~ dwell == 0 -> out <> OutOfFuel ->
     exists n,
       evs = poll_trace dwell n ++ [EvGet rdCur] /\
       cur_reads w' = (cur_reads w + S n)%nat).
Proof.
  intros Hrun.
  destruct (Qeq_dec dwell 0) as [Hz|Hnz].
  - rewrite await_in_band_zero_dwell in Hrun by exact Hz.
    inversion Hrun; subst. exists []. rewrite app_nil_r.
    repeat apply conj; try reflexivity.
    intros H. contradiction.
  - pose proof (await_in_band_trace _ _ _ _ _ _ _ _ _ _ Hrun)
      as (evs & Htr & Hall).
    rewrite await_in_band_loop in Hrun by exact Hnz.
    apply await_loop_shape in Hrun. destruct Hrun as (n & Hs & Hsh).
    exists evs. split; [exact Htr|].
    split; [intros s; apply (poll_no_puts _ _ _ Hall)|].
    split; [unfold n_triggers; rewrite (poll_no_triggers _ _ Hall); reflexivity|].
    split; [exact Hs|]. split; [intros H; contradiction|].
    intros _ Hout. exists n.
    destruct out as [[]|e|]; [| |contradiction];
      destruct Hsh as (Hc & Ht); (split; [|exact Hc]);
      rewrite Htr in Ht; apply app_inv_head in Ht; exact Ht.
Qed.

Lemma await_in_band_only_polls_witness :
  exists evs,
    trace (after_read w0) = trace w0 ++ evs /\
    (forall s, puts_to s evs = []) /\
    n_triggers evs = 0%nat.
Proof.
  destruct (await_in_band_only_polls (steady 5 1) 5 (2 # 100) (1 # 10)
              (1 # 10) 0 1 w0 (Done tt) (after_read w0) eq_refl)
    as (evs & Htr & Hputs & Htrig & _).
  exists evs. split; [exact Htr|]. split; [exact Hputs|exact Htrig].
Defined.

(** The errors of the waiter: [ZeroDivisionError] exactly when [dwell] is
    zero, raised before anything is read; the error of a readback read
    that raises, which leaves the waiter at that read (line 116 is inside
    no [try]); otherwise its [TimeoutError], raised at a sample that was
    returned, with the clock past [max_time]. *)
Theorem await_in_band_errors (ps : Full.PowerSupply)
    (target tol dwell stable_time : Q) (max_time : Full.Float) (fuel : nat)
    (w : World) :
  (dwell == 0 ->
   Full.await_in_band ps target tol dwell stable_time max_time fuel w
     = (Raised ZeroDivisionError, w)) /\
  (forall e w',
     Full.await_in_band ps target tol dwell stable_time max_time fuel w
       = (Raised e, w') ->
     (e = ZeroDivisionError /\ dwell == 0 /\ w' = w) \/
     (~ dwell == 0 /\
      (cur_reads w < cur_reads w')%nat /\
      (forall k, (cur_reads w <= k)%nat -> (S k < cur_reads w')%nat ->
                 Full.rdCur_get ps k <> None) /\
      ((e = ReadError "rdCur" /\
        Full.rdCur_get ps (cur_reads w' - 1) = None) \/
       (e = TimeoutError tol target /\
        Full.rdCur_get ps (cur_reads w' - 1) <> None /\
        Full.fl_gt (Full.Fin (now w' - now w)) max_time = true)))) /\
  (~ dwell == 0 ->
   Full.rdCur_get ps (cur_reads w) = None ->
   Full.await_in_band ps target tol dwell stable_time max_time (S fuel) w
     = (Raised (ReadError "rdCur"), after_read w)).
Proof.
  split; [apply full_await_in_band_zero_dwell|]. split.
  - intros e w' Hrun. destruct (Qeq_dec dwell 0) as [Hz|Hnz].
    + left. rewrite full_await_in_band_zero_dwell in Hrun by exact Hz.
      inversion Hrun; subst. repeat apply conj; try reflexivity. exact Hz.
    + right. rewrite full_await_in_band_loop in Hrun by exact Hnz.
      apply full_await_loop_raised in Hrun.
      split; [exact Hnz|exact Hrun].
  - intros Hnz Hr. rewrite full_await_in_band_loop by exact Hnz.
    rewrite full_await_loop_S, Hr. reflexivity.
Qed.

(** When [stable_time < 2 * dwell] (as the doubles the call holds) one
    in-band sample is enough: if the first read is in band the waiter
    returns after that read, without sleeping and without looking at the
    clock. *)
Theorem await_in_band_first_sample (ps : PowerSupply)
    (target tol dwell stable_time max_time : Q) (fuel : nat) (w : World) :
  0 < dwell -> b64 stable_time < 2 * b64 dwell ->
  Qabs (rdCur_get ps (cur_reads w) - target) <= tol ->
  await_in_band ps target tol dwell stable_time max_time (S fuel) w
    = (Done tt, after_read w).
Proof.
  intros Hd Hst Hin.
  assert (Hd0 : ~ dwell == 0) by (intro E; rewrite E in Hd; discriminate).
  assert (Hneed : need_of (fdiv stable_time dwell) = 1%Z).
  { rewrite need_of_floor. unfold Py.floor.
    pose proof (fdiv_lt_2 stable_time dwell Hd Hst) as Hq.
    assert (Hf : (Qfloor (fdiv stable_time dwell) < 2)%Z).
    { apply Z.lt_nge. intros Hge.
      pose proof (Qfloor_le (fdiv stable_time dwell)) as Hle.
      assert (inject_Z 2 <= inject_Z (Qfloor (fdiv stable_time dwell)))
        by (rewrite <- Zle_Qle; exact Hge).
      change (inject_Z 2) with 2 in *. lra. }
    lia. }
  rewrite await_in_band_loop by exact Hd0. rewrite Hneed, await_loop_S.
  cbv zeta. unfold next_ok, err_at.
  apply Qle_bool_iff in Hin. rewrite Hin. reflexivity.
Qed.

Lemma await_in_band_first_sample_witness :
  await_in_band (steady 5 1) 5 (2 # 100) (1 # 10) (15 # 100) 0 1 w0
    = (Done tt, after_read w0).
Proof.
  apply await_in_band_first_sample.
  - reflexivity.
  - vm_compute. reflexivity.
  - discriminate.
Defined.

(** With a negative tolerance no sample is in band and the waiter never
    returns: whatever the readback, a run ends in an error or out of
    fuel.  With a zero tolerance it returns only after [need] reads in a
    row that equal the target. *)
Theorem await_in_band_tight_tol (ps : PowerSupply)
    (target tol dwell stable_time max_time : Q) (fuel : nat)
    (w : World) (out : Outcome unit) (w' : World) :
  tol <= 0 ->
  await_in_band ps target tol dwell stable_time max_time fuel w = (out, w') ->
  out = Done tt ->
  tol == 0 /\
  (Z.of_nat (cur_reads w) + need_of (fdiv stable_time dwell)
   <= Z.of_nat (cur_reads w'))%Z /\
  (forall i,
     (Z.of_nat (cur_reads w') - need_of (fdiv stable_time dwell)
      <= Z.of_nat i < Z.of_nat (cur_reads w'))%Z ->
     rdCur_get ps i == target).
Proof.
  intros Htol Hrun ->.
  destruct (Qeq_dec dwell 0) as [Hz|Hnz].
  { rewrite await_in_band_zero_dwell in Hrun by exact Hz. discriminate. }
  rewrite await_in_band_loop in Hrun by exact Hnz.
  apply await_loop_inv in Hrun. destruct Hrun as (n & _ & _ & Hc & Hn & _).
  pose proof (need_of_pos (fdiv stable_time dwell)) as Hpos.
  destruct (count_streak ps target tol (cur_reads w) (S n)) as [Hb Hs].
  assert (Hexact : forall j,
            in_band ps target tol j = true ->
            tol == 0 /\ rdCur_get ps j == target).
  { intros j Hin. unfold in_band, err_at in Hin. apply Qle_bool_iff in Hin.
    pose proof (Qabs_nonneg (rdCur_get ps j - target)) as Hnn.
    assert (Ha : Qabs (rdCur_get ps j - target) <= 0) by lra.
    apply Qabs_Qle_condition in Ha. split; lra. }
  split; [apply (Hexact (cur_reads w + n)%nat); apply Hs; lia|].
  split; [lia|].
  intros i Hi.
  replace i with (cur_reads w + (i - cur_reads w))%nat by lia.
  apply Hexact. apply Hs. lia.
Qed.

Lemma await_in_band_tight_tol_witness :
  (0 # 1) == 0 /\ rdCur_get (steady 5 1) 0 == 5.
Proof.
  assert (Htol : (0 # 1) <= 0) by discriminate.
  destruct (await_in_band_tight_tol (steady 5 1) 5 0 (1 # 10) (1 # 10) 0 1 w0
              (Done tt) (after_read w0) Htol eq_refl eq_refl)
    as (H0 & _ & H).
  split; [exact H0|]. apply H.
  assert (E : need_of (fdiv (1 # 10) (1 # 10)) = 1%Z) by reflexivity.
  rewrite E. simpl. lia.
Defined.

(** ** One step, on an arbitrary device *)

Lemma per_step_fuel_mono (motor : Signal) (step : Q) (ps : PowerSupply)
    (pre_wait_s hold_s tol base_timeout : Q) (fuel k : nat) (w : World)
    (out : Outcome unit) (w' : World) :
  _per_step motor step ps pre_wait_s hold_s tol base_timeout fuel w = (out, w') ->
  out <> OutOfFuel ->
  _per_step motor step ps pre_wait_s hold_s tol base_timeout (fuel + k) w
    = (out, w').
Proof.
  rewrite !per_step_runs. unfold settle_and_measure. unfold bind at 1 3.
  destruct (await_in_band _ _ _ _ _ _ fuel _) as [o w1] eqn:Hw.
  intros Hrun Hout.
  assert (Ho : o <> OutOfFuel)
    by (intros ->; inversion Hrun; subst; contradiction).
  rewrite await_in_band_loop in Hw |- * by exact default_dwell_nonzero.
  rewrite (await_loop_fuel_mono _ _ _ _ _ _ _ _ _ _ _ _ k Hw Ho).
  exact Hrun.
Qed.

(** A step that ended, in a measurement or in a timeout, read the slew
    rate once and the readback [n + 2] times ([n + 1] of them in its
    waiter), and lasted the pre-wait, [0.1 * n] seconds of polling and,
    when it completed, the hold; [n] is at most
    [max(0, floor(timeout / 0.1) + 1)], [timeout] being the step's dynamic
    timeout. *)
Theorem per_step_duration (motor : Signal) (step : Q) (ps : PowerSupply)
    (pre_wait_s hold_s tol base_timeout : Q) (fuel : nat) (w : World)
    (out : Outcome unit) (w' : World) :
  _per_step motor step ps pre_wait_s hold_s tol base_timeout fuel w = (out, w') ->
  out <> OutOfFuel ->
  let timeout :=
    base_timeout
    + Qabs (step - rdCur_get ps (cur_reads w))
      / slew_used (rdCurSlewRate_get ps (slew_reads w))
    + 2 in
  exists n,
    slew_reads w' = S (slew_reads w) /\
    cur_reads w' = (cur_reads w + 2 + n)%nat /\
    (Z.of_nat n <= Z.max 0 (Qfloor (timeout / (1 # 10)) + 1))%Z /\
    now w' - now w ==
      slept pre_wait_s + Qnat n * (1 # 10)
      + match out with Done _ => slept hold_s | _ => 0 end.
Proof.
  intros Hrun Hout timeout. revert Hrun.
  rewrite per_step_runs. unfold settle_and_measure. unfold bind at 1.
  fold timeout.
  destruct (await_in_band _ _ _ _ _ _ _ _) as [o w1] eqn:Hw.
  intros Hrun.
  assert (Ho : o <> OutOfFuel)
    by (intros ->; inversion Hrun; subst; contradiction).
  assert (Hd : 0 < 1 # 10) by reflexivity.
  destruct (await_in_band_elapsed _ _ _ _ _ _ _ _ _ _ Hd Hw Ho)
    as (n & Hc & Hslew & Hn & Hprev).
  pose proof (last_sample_bound n _ _ Hd Hprev) as Hb.
  exists n. cbn [at_waiter now cur_reads slew_reads] in Hc, Hn, Hslew.
  destruct o as [[]|e|]; [| |contradiction].
  - unfold bind, bps_sleep, bps_trigger_and_read, log in Hrun.
    inversion Hrun; subst. cbn [now cur_reads slew_reads].
    repeat apply conj; try assumption; try lia. lra.
  - inversion Hrun; subst.
    repeat apply conj; try assumption; try lia. lra.
Qed.

Lemma per_step_duration_witness :
  exists w' n,
    _per_step wrCurRamp 5 (steady 5 1) 3 2 (2 # 100) 5 4 w0 = (Done tt, w') /\
    cur_reads w' = (cur_reads w0 + 2 + n)%nat /\
    now w' - now w0 == slept 3 + Qnat n * (1 # 10) + slept 2.
Proof.
  destruct (_per_step wrCurRamp 5 (steady 5 1) 3 2 (2 # 100) 5 4 w0)
    as [out w'] eqn:Hrun.
  assert (Ho : fst (_per_step wrCurRamp 5 (steady 5 1) 3 2 (2 # 100) 5 4 w0)
               = Done tt) by reflexivity.
  rewrite Hrun in Ho. simpl in Ho. subst out.
  assert (Hne : Done tt <> @OutOfFuel unit) by discriminate.
  destruct (per_step_duration wrCurRamp 5 (steady 5 1) 3 2 (2 # 100) 5 4 w0
              _ w' Hrun Hne) as (n & _ & Hc & _ & Hn).
  exists w', n. split; [reflexivity|]. split; [exact Hc|exact Hn].
Defined.

(** A step completes, and so a measurement is taken, only after at least
    four reads of the readback by its waiter, the last four of them within
    [tol] of the step's setpoint. *)
Theorem per_step_done_settled (motor : Signal) (step : Q) (ps : PowerSupply)
    (pre_wait_s hold_s tol base_timeout : Q) (fuel : nat) (w w' : World) :
  _per_step motor step ps pre_wait_s hold_s tol base_timeout fuel w
    = (Done tt, w') ->
  (cur_reads w + 5 <= cur_reads w')%nat /\
  (forall i, (cur_reads w' - 4 <= i < cur_reads w')%nat ->
             Qabs (rdCur_get ps i - step) <= tol) /\
  slept pre_wait_s + (3 # 10) + slept hold_s <= now w' - now w.
Proof.
  intros Hrun.
  rewrite per_step_runs in Hrun. unfold settle_and_measure in Hrun.
  unfold bind at 1 in Hrun.
  destruct (await_in_band _ _ _ _ _ _ _ _) as [o w1] eqn:Hw.
  destruct o as [[]|e|]; try discriminate.
  rewrite await_in_band_loop in Hw by exact default_dwell_nonzero.
  apply await_loop_inv in Hw.
  destruct Hw as (n & _ & _ & Hc1 & Hneed & Hn).
  change (need_of (fdiv (4 # 10) (1 # 10))) with 4%Z in Hneed.
  change (slept (1 # 10)) with (1 # 10) in Hn.
  unfold bind, bps_sleep, bps_trigger_and_read, log in Hrun.
  inversion Hrun; subst. cbn [at_waiter now cur_reads] in *.
  destruct (count_streak ps step tol (S (cur_reads w)) (S n)) as [Hb Hs].
  split; [lia|]. split.
  - intros i Hi.
    assert (Hin : in_band ps step tol (S (cur_reads w) + (i - S (cur_reads w)))
                  = true) by (apply Hs; lia).
    replace (S (cur_reads w) + (i - S (cur_reads w)))%nat with i in Hin by lia.
    apply Qle_bool_iff. exact Hin.
  - assert (H3 : 3 <= Qnat n).
    { unfold Qnat. change 3 with (inject_Z 3). rewrite <- Zle_Qle. lia. }
    rewrite Hn. lra.
Qed.

Lemma per_step_done_settled_witness :
  exists w',
    _per_step wrCurRamp 5 (steady 5 1) 3 2 (2 # 100) 5 4 w0 = (Done tt, w') /\
    (cur_reads w0 + 5 <= cur_reads w')%nat /\
    slept 3 + (3 # 10) + slept 2 <= now w' - now w0.
Proof.
  destruct (_per_step wrCurRamp 5 (steady 5 1) 3 2 (2 # 100) 5 4 w0)
    as [out w'] eqn:Hrun.
  assert (Ho : fst (_per_step wrCurRamp 5 (steady 5 1) 3 2 (2 # 100) 5 4 w0)
               = Done tt) by reflexivity.
  rewrite Hrun in Ho. simpl in Ho. subst out.
  destruct (per_step_done_settled wrCurRamp 5 (steady 5 1) 3 2 (2 # 100) 5 4
              w0 w' Hrun) as (Hc & _ & Hn).
  exists w'. split; [reflexivity|]. split; [exact Hc|exact Hn].
Defined.



(** ** The whole scan *)



(** The trace of the loop, whatever its outcome, holds no write to
    [cmdPwrOn]. *)
Lemma scan_loop_trace (ps : PowerSupply)
    (pre_wait_s hold_s tol base_timeout : Q) (fuel : nat) (pts : list Q) :
  forall w out w',
    scan_loop (custom ps pre_wait_s hold_s tol base_timeout fuel wrCurRamp)
              pts w = (out, w') ->
    exists evs, trace w' = trace w ++ evs /\ puts_to cmdPwrOn evs = [].
Proof.
  induction pts as [|p pts IH]; intros w out w' Hrun.
  - inversion Hrun; subst. exists []. rewrite app_nil_r. split; reflexivity.
  - simpl in Hrun. unfold bind in Hrun.
    destruct (custom ps pre_wait_s hold_s tol base_timeout fuel wrCurRamp p w)
      as [o w1] eqn:Hp.
    unfold custom in Hp.
    destruct (per_step_trace _ _ _ _ _ _ _ _ _ _ _ Hp)
      as (w2 & evs & _ & Hall & Htr & Htl & _).
    assert (Hstep : exists evs1,
              trace w1 = trace w ++ evs1 /\ puts_to cmdPwrOn evs1 = []).
    { exists ([EvSleep pre_wait_s; EvPut wrCurRamp p; EvGet rdCurSlewRate;
               EvGet rdCur] ++ evs ++ step_tail hold_s o).
      split.
      - rewrite Htl, Htr. unfold at_waiter. cbn [trace].
        rewrite <- !app_assoc. reflexivity.
      - rewrite !puts_to_app, (poll_no_puts _ _ _ Hall).
        destruct o as [[]|e|]; reflexivity. }
    destruct Hstep as (evs1 & Htr1 & Hno1).
    destruct o as [[]|e|].
    + apply IH in Hrun. destruct Hrun as (evs2 & Htr2 & Hno2).
      exists (evs1 ++ evs2). split.
      * rewrite Htr2, Htr1, <- app_assoc. reflexivity.
      * rewrite puts_to_app, Hno1, Hno2. reflexivity.
    + inversion Hrun; subst. exists evs1. split; assumption.
    + inversion Hrun; subst. exists evs1. split; assumption.
Qed.

(** A scan with a non-zero step powers the supply on exactly once, and
    does so before anything else; this holds for scans that complete, that
    time out, and that run out of fuel alike. *)
Theorem ramp_scan_powers_on_once (ps : PowerSupply) (start stop step : Q)
    (pre_wait_s hold_s tol base_timeout : Q) (fuel : nat)
    (w : World) (out : Outcome unit) (w' : World) :
  ~ step == 0 ->
  ramp_scan ps start stop step pre_wait_s hold_s tol base_timeout fuel w
    = (out, w') ->
  exists rest,
    trace w' = trace w ++ EvPut cmdPwrOn 1 :: rest /\
    puts_to cmdPwrOn rest = [] /\
    puts_to cmdPwrOn (trace w') = puts_to cmdPwrOn (trace w) ++ [1].
Proof.
  intros Hs Hrun. rewrite ramp_scan_runs in Hrun by exact Hs.
  apply scan_loop_trace in Hrun. destruct Hrun as (rest & Htr & Hno).
  cbn [trace] in Htr. exists rest. split.
  - rewrite Htr, <- app_assoc. reflexivity.
  - split; [exact Hno|].
    rewrite Htr, !puts_to_app, Hno, app_nil_r. reflexivity.
Qed.

Lemma ramp_scan_powers_on_once_witness :
  exists out w' rest,
    ramp_scan (steady 0 1) 0 1 (1 # 2) 3 2 (2 # 100) 5 3 w0 = (out, w') /\
    trace w' = trace w0 ++ EvPut cmdPwrOn 1 :: rest /\
    puts_to cmdPwrOn rest = [].
Proof.
  destruct (ramp_scan (steady 0 1) 0 1 (1 # 2) 3 2 (2 # 100) 5 3 w0)
    as [out w'] eqn:Hrun.
  assert (Hs : ~ (1 # 2) == 0) by discriminate.
  destruct (ramp_scan_powers_on_once (steady 0 1) 0 1 (1 # 2) 3 2 (2 # 100) 5
              3 w0 out w' Hs Hrun) as (rest & Htr & Hno & _).
  exists out, w', rest. split; [reflexivity|]. split; [exact Htr|exact Hno].
Defined.

Lemma scan_events_cons (pre_wait_s hold_s p : Q) (pts : list Q)
    (evs : list Event) (polls : list (list Event)) :
  scan_events pre_wait_s hold_s (p :: pts) (evs :: polls) =
  step_events pre_wait_s hold_s p evs ++ scan_events pre_wait_s hold_s pts polls.
Proof. reflexivity. Qed.

Lemma scan_loop_done_events (ps : PowerSupply)
    (pre_wait_s hold_s tol base_timeout : Q) (fuel : nat) (pts : list Q) :
  forall w w',
    scan_loop (custom ps pre_wait_s hold_s tol base_timeout fuel wrCurRamp)
              pts w = (Done tt, w') ->
    exists polls,
      List.length polls = List.length pts /\
      Forall (Forall (is_poll (1 # 10))) polls /\
      trace w' = trace w ++ scan_events pre_wait_s hold_s pts polls.
Proof.
  induction pts as [|p pts IH]; intros w w' Hrun.
  - inversion Hrun; subst. exists []. rewrite app_nil_r.
    split; [reflexivity|]. split; [constructor|reflexivity].
  - simpl in Hrun. unfold bind in Hrun.
    destruct (custom ps pre_wait_s hold_s tol base_timeout fuel wrCurRamp p w)
      as [o w1] eqn:Hp.
    destruct o as [[]|e|]; try discriminate.
    unfold custom in Hp.
    destruct (per_step_trace _ _ _ _ _ _ _ _ _ _ _ Hp)
      as (w2 & evs & _ & Hall & Htr & Htl & _).
    apply IH in Hrun. destruct Hrun as (polls & Hlen & Hpolls & Htr').
    exists (evs :: polls). split; [simpl; lia|].
    split; [constructor; assumption|].
    rewrite scan_events_cons, Htr', Htl, Htr. unfold at_waiter, step_events.
    cbn [trace step_tail]. rewrite <- !app_assoc. reflexivity.
Qed.

(** The trace of a completed scan: the power-on, then for each setpoint in
    turn the pre-wait, the write of the setpoint, one read of the slew
    rate, one of the readback, the polling, the hold and one
    measurement; so one measurement per setpoint, each after the write of
    its own setpoint and before the write of the next. *)
Theorem ramp_scan_done_trace (ps : PowerSupply) (start stop step : Q)
    (pre_wait_s hold_s tol base_timeout : Q) (fuel : nat) (w w' : World) :
  ramp_scan ps start stop step pre_wait_s hold_s tol base_timeout fuel w
    = (Done tt, w') ->
  exists pts polls,
    setpoints start stop step = inr pts /\
    List.length polls = List.length pts /\
    Forall (Forall (is_poll (1 # 10))) polls /\
    trace w' =
      trace w ++ EvPut cmdPwrOn 1 :: scan_events pre_wait_s hold_s pts polls /\
    n_triggers (trace w') = (n_triggers (trace w) + List.length pts)%nat.
Proof.
  intros Hrun. rewrite ramp_scan_by_setpoints in Hrun.
  destruct (setpoints start stop step) as [e|pts]; [discriminate|].
  unfold bind at 1, bps_mv, log in Hrun.
  pose proof (scan_loop_done _ _ _ _ _ _ _ _ _ Hrun) as (_ & _ & Htrig).
  apply scan_loop_done_events in Hrun.
  destruct Hrun as (polls & Hlen & Hpolls & Htr).
  cbn [trace] in Htr, Htrig.
  exists pts, polls. repeat apply conj; try assumption; try reflexivity.
  - rewrite Htr, <- app_assoc. reflexivity.
  - rewrite Htrig, n_triggers_app. unfold n_triggers at 2. simpl. lia.
Qed.

Lemma ramp_scan_done_trace_witness :
  exists w' pts polls,
    ramp_scan (steady 0 1) 0 0 1 3 2 (2 # 100) 5 4 w0 = (Done tt, w') /\
    setpoints 0 0 1 = inr pts /\
    trace w' = trace w0 ++ EvPut cmdPwrOn 1 :: scan_events 3 2 pts polls.
Proof.
  destruct (ramp_scan (steady 0 1) 0 0 1 3 2 (2 # 100) 5 4 w0)
    as [out w'] eqn:Hrun.
  assert (Ho : fst (ramp_scan (steady 0 1) 0 0 1 3 2 (2 # 100) 5 4 w0)
               = Done tt) by reflexivity.
  rewrite Hrun in Ho. simpl in Ho. subst out.
  destruct (ramp_scan_done_trace (steady 0 1) 0 0 1 3 2 (2 # 100) 5 4 w0 w'
              Hrun) as (pts & polls & Hpts & _ & _ & Htr & _).
  exists w', pts, polls. split; [reflexivity|]. split; [exact Hpts|exact Htr].
Defined.

(** ** Where the setpoints lie *)


(** The first setpoint is always [start].  With [d] the difference
    [stop - start] as line 96 computes it in binary64: when [|step| <= |d|]
    there are at least two setpoints and the last one is [stop]; when
    [|d| < |step|] the scan visits [start] alone and never commands
    [stop]. *)
Theorem setpoints_endpoints (start stop step : Q) :
  ~ step == 0 ->
  let d := fsub stop start in
  exists pts,
    setpoints start stop step = inr pts /\
    (1 <= List.length pts)%nat /\
    nth 0 pts 0 == start /\
    (Qabs (b64 step) <= Qabs d ->
     (2 <= List.length pts)%nat /\
     nth (List.length pts - 1) pts 0 == stop) /\
    (Qabs d < Qabs (b64 step) -> List.length pts = 1%nat).
Proof.
  intros Hs d.
  set (npts := (Py.int (Qabs (fdiv (fsub stop start) step)) + 1)%Z).
  pose proof (npts_pos start stop step) as Hpos. fold npts in Hpos.
  assert (Hs' : ~ b64 step == 0) by (apply b64_nonzero; exact Hs).
  pose proof (Qabs_pos_nonzero (b64 step) Hs') as Habs.
  assert (Hnp : npts = (Qfloor (b64 (Qabs d / Qabs (b64 step))) + 1)%Z)
    by (unfold npts; rewrite npts_rounded; reflexivity).
  exists (linspace start stop npts).
  rewrite linspace_length.
  split; [apply setpoints_nonzero; exact Hs|].
  split; [lia|].
  split; [rewrite linspace_nth by lia; rewrite Qnat_0; lra|].
  split.
  - intros Hle.
    assert (Hq : 1 <= Qabs d / Qabs (b64 step))
      by (apply Qle_shift_div_l; [exact Habs|lra]).
    assert (Hf : (1 <= Qfloor (b64 (Qabs d / Qabs (b64 step))))%Z).
    { rewrite <- (Qfloor_Z 1). apply Qfloor_resp_le.
      apply Qle_trans with (b64 (inject_Z 1)); [|apply b64_mono; exact Hq].
      pose proof (is_b64_Z 1 ltac:(reflexivity)) as B. unfold is_b64 in B.
      rewrite B. apply Qle_refl. }
    split; [lia|].
    rewrite linspace_nth by lia.
    assert (Hk : Qnat (Z.to_nat npts - 1) == inject_Z (npts - 1)).
    { unfold Qnat. replace (Z.of_nat (Z.to_nat npts - 1)) with (npts - 1)%Z
        by lia. reflexivity. }
    rewrite Hk.
    assert (Hnz : ~ inject_Z (npts - 1) == 0).
    { change 0 with (inject_Z 0). rewrite inject_Z_injective. lia. }
    field. exact Hnz.
  - intros Hlt.
    assert (Hq : b64 (Qabs d / Qabs (b64 step)) <= below_one).
    { apply b64_quotient_lt_1.
      - apply is_b64_abs. unfold d, fsub. apply b64_idem.
      - apply is_b64_abs, b64_idem.
      - apply Qabs_nonneg.
      - exact Hlt. }
    assert (Hf : (Qfloor (b64 (Qabs d / Qabs (b64 step))) < 1)%Z).
    { apply Z.lt_nge. intros Hge.
      pose proof (Qfloor_le (b64 (Qabs d / Qabs (b64 step)))) as Hfl.
      assert (inject_Z 1
              <= inject_Z (Qfloor (b64 (Qabs d / Qabs (b64 step)))))
        by (rewrite <- Zle_Qle; exact Hge).
      pose proof below_one_lt.
      change (inject_Z 1) with 1 in *. lra. }
    assert (Hf0 : (0 <= Qfloor (b64 (Qabs d / Qabs (b64 step))))%Z).
    { change 0%Z with (Qfloor 0). apply Qfloor_resp_le.
      apply Qle_trans with (b64 0); [apply Qle_refl|].
      apply b64_mono.
      apply Qdiv_nonneg; [apply Qabs_nonneg|exact Habs]. }
    lia.
Qed.

(** From 0.1 to 0.6 by 0.5 the difference of the two doubles rounds to
    0.5, so the scan visits both ends. *)
Lemma setpoints_endpoints_witness :
  exists pts,
    setpoints (1 # 10) (6 # 10) (5 # 10) = inr pts /\
    (2 <= List.length pts)%nat /\
    nth 0 pts 0 == 1 # 10 /\
    nth (List.length pts - 1) pts 0 == 6 # 10.
Proof.
  assert (Hs : ~ (5 # 10) == 0) by discriminate.
  destruct (setpoints_endpoints (1 # 10) (6 # 10) (5 # 10) Hs)
    as (pts & Hpts & _ & H0 & H2 & _).
  assert (Hle : Qabs (b64 (5 # 10)) <= Qabs (fsub (6 # 10) (1 # 10)))
    by (vm_compute; discriminate).
  destruct (H2 Hle) as [Hlen Hlast].
  exists pts. split; [exact Hpts|]. split; [exact Hlen|].
  split; [exact H0|exact Hlast].
Defined.

(** Every setpoint lies between [start] and [stop], and the setpoints
    move from [start] towards [stop] without turning back. *)
Theorem setpoints_between (start stop step : Q) :
  ~ step == 0 ->
  exists pts,
    setpoints start stop step = inr pts /\
    (forall i, (i < List.length pts)%nat ->
       (start <= stop -> start <= nth i pts 0 /\ nth i pts 0 <= stop) /\
       (stop <= start -> stop <= nth i pts 0 /\ nth i pts 0 <= start)) /\
    (forall i, (S i < List.length pts)%nat ->
       (start <= stop -> nth i pts 0 <= nth (S i) pts 0) /\
       (stop <= start -> nth (S i) pts 0 <= nth i pts 0)).
Proof.
  intros Hs.
  set (npts := (Py.int (Qabs (fdiv (fsub stop start) step)) + 1)%Z).
  pose proof (npts_pos start stop step) as Hpos. fold npts in Hpos.
  exists (linspace start stop npts).
  rewrite linspace_length.
  split; [apply setpoints_nonzero; exact Hs|].
  split.
  - intros i Hi. rewrite linspace_nth by exact Hi.
    destruct (Z.eq_dec npts 1) as [H1|H1].
    { assert (i = 0%nat) by lia. subst i. rewrite Qnat_0.
      split; intros Hdir; split; lra. }
    set (D := inject_Z (npts - 1)).
    assert (HD : 0 < D).
    { unfold D. change 0 with (inject_Z 0). rewrite <- Zlt_Qlt. lia. }
    assert (Hi0 : 0 <= Qnat i)
      by (apply (Qnat_le_inject 0 (Z.of_nat i)); lia).
    assert (HiD : Qnat i <= D) by (apply Qnat_le_inject; lia).
    assert (Hfrac : Qnat i * ((stop - start) / D)
                    == (stop - start) * (Qnat i / D))
      by (field; intro E; rewrite E in HD; discriminate).
    assert (Ht0 : 0 <= Qnat i / D) by (apply Qdiv_nonneg; assumption).
    assert (Ht1 : Qnat i / D <= 1)
      by (apply Qle_shift_div_r; [exact HD|lra]).
    rewrite Hfrac. split; intros Hdir; split; nra.
  - intros i Hi. rewrite !linspace_nth by lia. rewrite Qnat_S.
    set (D := inject_Z (npts - 1)).
    assert (HD : 0 < D).
    { unfold D. change 0 with (inject_Z 0). rewrite <- Zlt_Qlt. lia. }
    assert (HDinv : 0 < / D) by (apply Qinv_lt_0_compat; exact HD).
    unfold Qdiv. split; intros Hdir; nra.
Qed.

Lemma setpoints_between_witness :
  exists pts,
    setpoints 0 1 (3 # 10) = inr pts /\
    0 <= nth 2 pts 0 /\ nth 2 pts 0 <= 1.
Proof.
  assert (Hs : ~ (3 # 10) == 0) by discriminate.
  destruct (setpoints_between 0 1 (3 # 10) Hs) as (pts & Hpts & Hb & _).
  exists pts. split; [exact Hpts|].
  assert (Hlen : (2 < List.length pts)%nat).
  { assert (E : setpoints 0 1 (3 # 10)
                = inr (linspace 0 1 4)) by reflexivity.
    rewrite E in Hpts. inversion Hpts; subst pts.
    rewrite linspace_length. simpl. lia. }
  destruct (Hb 2%nat Hlen) as [Hup _]. apply Hup. discriminate.
Defined.

(** ** The accessor methods *)

Section GetAll.

Variables (Pv V : Type).

Lemma get_all_ok (fields : list (string * Pv)) : forall s : Epics.Ioc Pv V,
  Forall (Epics.readable s) fields ->
  exists vs,
    Epics.get_all fields s =
      (Done vs,
       Epics.mkIoc (Epics.value s)
                   (Epics.accesses s
                    ++ map (fun f => Epics.AGet (snd f)) fields)) /\
    map Some vs = map (fun f => Epics.value s (snd f)) fields.
Proof.
  induction fields as [|[n pv] fields IH]; intros s Hall.
  - exists []. simpl. rewrite app_nil_r. destruct s. split; reflexivity.
  - inversion Hall as [|f fs Hpv Hrest]; subst.
    unfold Epics.readable in Hpv. simpl in Hpv.
    destruct (Epics.value s pv) as [v|] eqn:Ev; [|contradiction].
    destruct (IH (Epics.mkIoc (Epics.value s)
                              (Epics.accesses s ++ [Epics.AGet pv])))
      as (vs & Hrun & Hvs).
    { eapply Forall_impl; [|exact Hrest]. intros f Hf. exact Hf. }
    exists (v :: vs). split.
    + simpl. unfold Epics.bind at 1, Epics.get. rewrite Ev.
      unfold Epics.bind at 1. rewrite Hrun. simpl.
      rewrite <- app_assoc. reflexivity.
    + simpl. rewrite Ev. simpl in Hvs. rewrite Hvs. reflexivity.
Qed.

Lemma get_all_fails (pre : list (string * Pv)) :
  forall (s : Epics.Ioc Pv V) n pv post,
  Forall (Epics.readable s) pre ->
  Epics.value s pv = None ->
  Epics.get_all (pre ++ (n, pv) :: post) s =
    (Raised (ReadError n),
     Epics.mkIoc (Epics.value s)
                 (Epics.accesses s
                  ++ map (fun f => Epics.AGet (snd f)) (pre ++ [(n, pv)]))).
Proof.
  induction pre as [|[m q] pre IH]; intros s n pv post Hall Hnone.
  - simpl. unfold Epics.bind, Epics.get. rewrite Hnone. reflexivity.
  - inversion Hall as [|f fs Hq Hrest]; subst.
    unfold Epics.readable in Hq. simpl in Hq.
    destruct (Epics.value s q) as [v|] eqn:Ev; [|contradiction].
    simpl. unfold Epics.bind at 1, Epics.get. rewrite Ev.
    unfold Epics.bind at 1.
    rewrite (IH (Epics.mkIoc (Epics.value s)
                             (Epics.accesses s ++ [Epics.AGet q]))
                n pv post).
    + simpl. rewrite <- app_assoc. reflexivity.
    + eapply Forall_impl; [|exact Hrest]. intros f Hf. exact Hf.
    + exact Hnone.
Qed.

End GetAll.

Lemma read_status_get_all (s : Supply.Ioc) :
  Supply.read_status s =
  Epics.bind (Epics.get_all Supply.status_fields)
    (fun vs =>
       match vs with
       | [v1; v2; v3; v4; v5; v6; v7; v8; v9; v10; v11] =>
           Epics.ret
             [("I_set_no_ramp", PyFloat v1);
              ("I_set_ramp", PyFloat v2);
              ("I_read", PyFloat v3);
              ("slew_rate_set", PyFloat v4);
              ("slew_rate_read", PyFloat v5);
              ("T_heatsink", PyFloat v6);
              ("T_shunt", PyFloat v7);
              ("V", PyFloat v8);
              ("done", PyInt (Py.int v9));
              ("botton", PyInt (Py.int v10));
              ("boundary", PyInt (Py.int v11))]%string
       | _ => Epics.ret []
       end) s.
Proof.
  unfold Supply.read_status, Supply.status_fields, Supply.get, Epics.get_all,
    Epics.bind, Epics.get, Epics.ret.
  cbn [Epics.value Epics.accesses].
  destruct (Epics.value s Supply.wrCurNoRamp); [|reflexivity].
  cbn [Epics.value Epics.accesses].
  destruct (Epics.value s Supply.wrCurRamp); [|reflexivity].
  cbn [Epics.value Epics.accesses].
  destruct (Epics.value s Supply.rdCur); [|reflexivity].
  cbn [Epics.value Epics.accesses].
  destruct (Epics.value s Supply.wrSlewRate); [|reflexivity].
  cbn [Epics.value Epics.accesses].
  destruct (Epics.value s Supply.rdCurSlewRate); [|reflexivity].
  cbn [Epics.value Epics.accesses].
  destruct (Epics.value s Supply.rdHeatSinkTmp); [|reflexivity].
  cbn [Epics.value Epics.accesses].
  destruct (Epics.value s Supply.rdHeatShuntTmp); [|reflexivity].
  cbn [Epics.value Epics.accesses].
  destruct (Epics.value s Supply.rdVolt); [|reflexivity].
  cbn [Epics.value Epics.accesses].
  destruct (Epics.value s Supply.done); [|reflexivity].
  cbn [Epics.value Epics.accesses].
  destruct (Epics.value s Supply.botton); [|reflexivity].
  cbn [Epics.value Epics.accesses].
  destruct (Epics.value s Supply.boundary); reflexivity.
Qed.

(** What a [read_status] that returned has read. *)
Lemma read_status_done_inv (s : Supply.Ioc) (d : list (string * PyNum))
    (s' : Supply.Ioc) :
  Supply.read_status s = (Done d, s') ->
  exists v1 v2 v3 v4 v5 v6 v7 v8 v9 v10 v11,
    Epics.value s Supply.wrCurNoRamp = Some v1 /\
    Epics.value s Supply.wrCurRamp = Some v2 /\
    Epics.value s Supply.rdCur = Some v3 /\
    Epics.value s Supply.wrSlewRate = Some v4 /\
    Epics.value s Supply.rdCurSlewRate = Some v5 /\
    Epics.value s Supply.rdHeatSinkTmp = Some v6 /\
    Epics.value s Supply.rdHeatShuntTmp = Some v7 /\
    Epics.value s Supply.rdVolt = Some v8 /\
    Epics.value s Supply.done = Some v9 /\
    Epics.value s Supply.botton = Some v10 /\
    Epics.value s Supply.boundary = Some v11 /\
    d = [("I_set_no_ramp", PyFloat v1); ("I_set_ramp", PyFloat v2);
         ("I_read", PyFloat v3); ("slew_rate_set", PyFloat v4);
         ("slew_rate_read", PyFloat v5); ("T_heatsink", PyFloat v6);
         ("T_shunt", PyFloat v7); ("V", PyFloat v8);
         ("done", PyInt (Py.int v9)); ("botton", PyInt (Py.int v10));
         ("boundary", PyInt (Py.int v11))]%string /\
    Epics.value s' = Epics.value s.
Proof.
  unfold Supply.read_status, Supply.get, Epics.bind, Epics.get, Epics.ret.
  cbn [Epics.value Epics.accesses].
  destruct (Epics.value s Supply.wrCurNoRamp) as [v1|]; [|discriminate].
  cbn [Epics.value Epics.accesses].
  destruct (Epics.value s Supply.wrCurRamp) as [v2|]; [|discriminate].
  cbn [Epics.value Epics.accesses].
  destruct (Epics.value s Supply.rdCur) as [v3|]; [|discriminate].
  cbn [Epics.value Epics.accesses].
  destruct (Epics.value s Supply.wrSlewRate) as [v4|]; [|discriminate].
  cbn [Epics.value Epics.accesses].
  destruct (Epics.value s Supply.rdCurSlewRate) as [v5|]; [|discriminate].
  cbn [Epics.value Epics.accesses].
  destruct (Epics.value s Supply.rdHeatSinkTmp) as [v6|]; [|discriminate].
  cbn [Epics.value Epics.accesses].
  destruct (Epics.value s Supply.rdHeatShuntTmp) as [v7|]; [|discriminate].
  cbn [Epics.value Epics.accesses].
  destruct (Epics.value s Supply.rdVolt) as [v8|]; [|discriminate].
  cbn [Epics.value Epics.accesses].
  destruct (Epics.value s Supply.done) as [v9|]; [|discriminate].
  cbn [Epics.value Epics.accesses].
  destruct (Epics.value s Supply.botton) as [v10|]; [|discriminate].
  cbn [Epics.value Epics.accesses].
  destruct (Epics.value s Supply.boundary) as [v11|]; [|discriminate].
  intros H. inversion H; subst.
  exists v1, v2, v3, v4, v5, v6, v7, v8, v9, v10, v11.
  repeat apply conj; reflexivity.
Qed.

(** [read_status] is all or nothing.  When every one of its eleven
    variables can be read it returns the eleven keys in the order of the
    source, after reading the variables in that order and writing
    nothing; when one cannot, it raises at the first such variable, the
    later ones are not read and no dictionary is returned. *)
Theorem read_status_all_or_nothing (s : Supply.Ioc) :
  (Forall (Epics.readable s) Supply.status_fields ->
   exists d,
     Supply.read_status s =
       (Done d,
        Epics.mkIoc (Epics.value s)
                    (Epics.accesses s ++ Supply.gets Supply.status_fields)) /\
     map fst d = Supply.status_keys) /\
  (forall pre n pv post,
     Supply.status_fields = pre ++ (n, pv) :: post ->
     Forall (Epics.readable s) pre ->
     Epics.value s pv = None ->
     Supply.read_status s =
       (Raised (ReadError n),
        Epics.mkIoc (Epics.value s)
                    (Epics.accesses s ++ Supply.gets (pre ++ [(n, pv)])))).
Proof.
  split.
  - intros Hall. rewrite read_status_get_all.
    destruct (get_all_ok _ _ _ s Hall) as (vs & Hrun & Hvs).
    unfold Epics.bind. rewrite Hrun.
    apply (f_equal (@List.length _)) in Hvs. rewrite !length_map in Hvs.
    simpl in Hvs.
    do 11 (destruct vs as [|? vs]; [discriminate|]).
    destruct vs; [|discriminate].
    eexists. split; reflexivity.
  - intros pre n pv post Heq Hpre Hnone. rewrite read_status_get_all.
    unfold Epics.bind. rewrite Heq.
    rewrite (get_all_fails _ _ pre s n pv post Hpre Hnone). reflexivity.
Qed.

(** A supply whose heat-sink temperature cannot be read: [read_status]
    raises after six reads. *)
Lemma read_status_all_or_nothing_witness :
  exists s',
    Supply.read_status Supply.no_heatsink
      = (Raised (ReadError "rdHeatSinkTmp"), s') /\
    List.length (Epics.accesses s') = 6%nat.
Proof.
  destruct (read_status_all_or_nothing Supply.no_heatsink) as [_ H].
  eexists. split.
  - apply (H (firstn 5 Supply.status_fields) "rdHeatSinkTmp"%string
             Supply.rdHeatSinkTmp (skipn 6 Supply.status_fields)).
    + reflexivity.
    + repeat constructor; discriminate.
    + reflexivity.
  - reflexivity.
Defined.

(** [read_status] agrees with the single readers: on the same device its
    entries ["I_read"], ["slew_rate_read"], ["V"], ["T_heatsink"] and
    ["T_shunt"] are what [read_current], [read_slew], [read_voltage] and
    [read_temps] return, and none of these readers raises where
    [read_status] returned. *)
Theorem read_status_agrees_with_readers (s : Supply.Ioc)
    (d : list (string * PyNum)) (s' : Supply.Ioc) :
  Supply.read_status s = (Done d, s') ->
  (exists v s1,
     Supply.read_current s = (Done v, s1) /\
     dict_get "I_read" d = Some (PyFloat v)) /\
  (exists v s1,
     Supply.read_slew s = (Done v, s1) /\
     dict_get "slew_rate_read" d = Some (PyFloat v)) /\
  (exists v s1,
     Supply.read_voltage s = (Done v, s1) /\
     dict_get "V" d = Some (PyFloat v)) /\
  (exists a b s1,
     Supply.read_temps s = (Done (a, b), s1) /\
     dict_get "T_heatsink" d = Some (PyFloat a) /\
     dict_get "T_shunt" d = Some (PyFloat b)).
Proof.
  intros Hrun. apply read_status_done_inv in Hrun.
  destruct Hrun as (v1 & v2 & v3 & v4 & v5 & v6 & v7 & v8 & v9 & v10 & v11
                    & _ & _ & H3 & _ & H5 & H6 & H7 & H8 & _ & _ & _ & -> & _).
  repeat apply conj.
  - exists v3. eexists. split; [|reflexivity].
    unfold Supply.read_current, Supply.get, Epics.get. rewrite H3. reflexivity.
  - exists v5. eexists. split; [|reflexivity].
    unfold Supply.read_slew, Supply.get, Epics.get. rewrite H5. reflexivity.
  - exists v8. eexists. split; [|reflexivity].
    unfold Supply.read_voltage, Supply.get, Epics.get. rewrite H8. reflexivity.
  - exists v6, v7. eexists. split; [|split; reflexivity].
    unfold Supply.read_temps, Supply.get, Epics.bind, Epics.get.
    rewrite H6. cbn [Epics.value]. rewrite H7. reflexivity.
Qed.

Lemma read_status_agrees_with_readers_witness :
  exists v s1,
    Supply.read_current (Supply.flat (7 # 2)) = (Done v, s1) /\
    dict_get "I_read" (match fst (Supply.read_status (Supply.flat (7 # 2))) with
                       | Done d => d
                       | _ => []
                       end) = Some (PyFloat v).
Proof.
  set (s := Supply.flat (7 # 2)).
  destruct (Supply.read_status s) as [o s'] eqn:Hrun.
  assert (Ho : exists d, o = Done d).
  { assert (E : fst (Supply.read_status s) = o) by (rewrite Hrun; reflexivity).
    rewrite <- E. eexists. reflexivity. }
  destruct Ho as (d & ->).
  destruct (read_status_agrees_with_readers s d s' Hrun)
    as ((v & s1 & Hcur & Hd) & _).
  exists v, s1. split; [exact Hcur|exact Hd].
Defined.

Lemma gauss_all_get_all (s : Gauss.Ioc) :
  Gauss.all s =
  Epics.bind (Epics.get_all Gauss.all_fields)
    (fun vs =>
       match vs with
       | [v1; v2; v3; v4; v5] =>
           Epics.ret
             [("mag_field", v1); ("voltage", v2); ("onctrl", v3);
              ("idn", v4); ("status", v5)]%string
       | _ => Epics.ret []
       end) s.
Proof.
  unfold Gauss.all, Gauss.all_fields, Gauss.get, Epics.get_all,
    Epics.bind, Epics.get, Epics.ret.
  cbn [Epics.value Epics.accesses].
  destruct (Epics.value s Gauss.bfield); [|reflexivity].
  cbn [Epics.value Epics.accesses].
  destruct (Epics.value s Gauss.volt); [|reflexivity].
  cbn [Epics.value Epics.accesses].
  destruct (Epics.value s Gauss.onctrl); [|reflexivity].
  cbn [Epics.value Epics.accesses].
  destruct (Epics.value s Gauss.idn); [|reflexivity].
  cbn [Epics.value Epics.accesses].
  destruct (Epics.value s Gauss.status); reflexivity.
Qed.

(** [Gaussmeter.all] is all or nothing as well: it returns its five keys
    with the values as read, unconverted, when all five variables can be
    read, and raises at the first that cannot, leaving the later ones
    unread.  Its ["mag_field"] is what [read_mag_field] returns, and its
    ["onctrl"] is what [switch] last wrote, on an IOC that answers a
    [get] of that variable with the value put. *)
Theorem gauss_all_or_nothing (s : Gauss.Ioc) :
  (Forall (Epics.readable s) Gauss.all_fields ->
   exists d,
     Gauss.all s =
       (Done d,
        Epics.mkIoc (Epics.value s)
                    (Epics.accesses s ++ Gauss.gets Gauss.all_fields)) /\
     map fst d = ["mag_field"; "voltage"; "onctrl"; "idn"; "status"]%string /\
     map (fun kv => Some (snd kv)) d
       = map (fun f => Epics.value s (snd f)) Gauss.all_fields) /\
  (forall pre n pv post,
     Gauss.all_fields = pre ++ (n, pv) :: post ->
     Forall (Epics.readable s) pre ->
     Epics.value s pv = None ->
     Gauss.all s =
       (Raised (ReadError n),
        Epics.mkIoc (Epics.value s)
                    (Epics.accesses s ++ Gauss.gets (pre ++ [(n, pv)])))) /\
  (forall d s',
     Gauss.all s = (Done d, s') ->
     exists v s1,
       Gauss.read_mag_field s = (Done v, s1) /\
       dict_get "mag_field" d = Some v) /\
  (forall (react : Gauss.Reaction) bi s1 d s',
     (forall vals, exists vals',
        react Gauss.onctrl bi vals = Some vals' /\
        vals' Gauss.onctrl = Some bi) ->
     Gauss.switch react bi s = (Done tt, s1) ->
     Gauss.all s1 = (Done d, s') ->
     dict_get "onctrl" d = Some bi).
Proof.
  repeat apply conj.
  - intros Hall. rewrite gauss_all_get_all.
    destruct (get_all_ok _ _ _ s Hall) as (vs & Hrun & Hvs).
    unfold Epics.bind. rewrite Hrun.
    pose proof (f_equal (@List.length _) Hvs) as Hlen.
    rewrite !length_map in Hlen. simpl in Hlen.
    do 5 (destruct vs as [|? vs]; [discriminate|]).
    destruct vs; [|discriminate].
    eexists. split; [reflexivity|]. split; [reflexivity|exact Hvs].
  - intros pre n pv post Heq Hpre Hnone. rewrite gauss_all_get_all.
    unfold Epics.bind. rewrite Heq.
    rewrite (get_all_fails _ _ pre s n pv post Hpre Hnone). reflexivity.
  - intros d s'. unfold Gauss.all, Gauss.read_mag_field, Gauss.get,
      Epics.bind, Epics.get, Epics.ret.
    cbn [Epics.value Epics.accesses].
    destruct (Epics.value s Gauss.bfield) as [v1|]; [|discriminate].
    cbn [Epics.value Epics.accesses].
    destruct (Epics.value s Gauss.volt); [|discriminate].
    cbn [Epics.value Epics.accesses].
    destruct (Epics.value s Gauss.onctrl); [|discriminate].
    cbn [Epics.value Epics.accesses].
    destruct (Epics.value s Gauss.idn); [|discriminate].
    cbn [Epics.value Epics.accesses].
    destruct (Epics.value s Gauss.status); [|discriminate].
    intros H. inversion H; subst. exists v1. eexists. split; reflexivity.
  - intros react bi s1 d s' Hecho Hsw.
    unfold Gauss.switch, Epics.put in Hsw.
    destruct (Hecho (Epics.value s)) as (vals' & Hre & Hon).
    rewrite Hre in Hsw. inversion Hsw; subst s1. clear Hsw.
    unfold Gauss.all, Gauss.get, Epics.bind, Epics.get, Epics.ret.
    cbn [Epics.value Epics.accesses].
    destruct (vals' Gauss.bfield); [|discriminate].
    cbn [Epics.value Epics.accesses].
    destruct (vals' Gauss.volt); [|discriminate].
    cbn [Epics.value Epics.accesses]. rewrite Hon.
    cbn [Epics.value Epics.accesses].
    destruct (vals' Gauss.idn); [|discriminate].
    cbn [Epics.value Epics.accesses].
    destruct (vals' Gauss.status); [|discriminate].
    intros H. inversion H; subst. reflexivity.
Qed.

(** ** Symmetries of the setpoints *)

Lemma npts_opp_step (start stop step : Q) :
  Py.int (Qabs (fdiv (fsub stop start) (- step)))
  = Py.int (Qabs (fdiv (fsub stop start) step)).
Proof.
  rewrite !npts_rounded. unfold Py.floor. apply Qfloor_comp.
  rewrite b64_opp, Qabs_opp. reflexivity.
Qed.

Lemma npts_swap (start stop step : Q) :
  Py.int (Qabs (fdiv (fsub start stop) step))
  = Py.int (Qabs (fdiv (fsub stop start) step)).
Proof.
  rewrite !npts_rounded. unfold Py.floor. apply Qfloor_comp.
  assert (E : fsub start stop == - fsub stop start).
  { unfold fsub. rewrite <- b64_opp. apply b64_comp. ring. }
  rewrite E, Qabs_opp. reflexivity.
Qed.

(** Only the size of [step] matters, not its sign: [step] and [-step] give
    the same setpoints.  And when [|step| <= |stop - start|] (the
    difference as line 96 computes it in binary64), scanning from [stop]
    to [start] visits the setpoints of the scan from [start] to [stop] in
    reverse order. *)
Theorem setpoints_symmetry (start stop step : Q) :
  ~ step == 0 ->
  exists pts neg back,
    setpoints start stop step = inr pts /\
    setpoints start stop (- step) = inr neg /\
    setpoints stop start step = inr back /\
    List.length neg = List.length pts /\
    List.length back = List.length pts /\
    (forall i, (i < List.length pts)%nat -> nth i neg 0 == nth i pts 0) /\
    (Qabs (b64 step) <= Qabs (fsub stop start) ->
     forall i, (i < List.length pts)%nat ->
       nth (List.length pts - 1 - i) back 0 == nth i pts 0).
Proof.
  intros Hs.
  assert (Hs' : ~ - step == 0) by (intro E; apply Hs; lra).
  set (npts := (Py.int (Qabs (fdiv (fsub stop start) step)) + 1)%Z).
  pose proof (npts_pos start stop step) as Hpos. fold npts in Hpos.
  exists (linspace start stop npts), (linspace start stop npts),
         (linspace stop start npts).
  rewrite !linspace_length.
  split; [apply setpoints_nonzero; exact Hs|].
  split; [rewrite setpoints_nonzero by exact Hs'; rewrite npts_opp_step;
          reflexivity|].
  split; [rewrite setpoints_nonzero by exact Hs; rewrite npts_swap;
          reflexivity|].
  split; [reflexivity|]. split; [reflexivity|].
  split; [intros i Hi; reflexivity|].
  intros Hle i Hi.
  pose proof (Qabs_pos_nonzero (b64 step) (b64_nonzero step Hs)) as Habs.
  assert (Hq : 1 <= Qabs (fsub stop start) / Qabs (b64 step))
    by (apply Qle_shift_div_l; [exact Habs|lra]).
  assert (Hf : (1 <= Qfloor (b64 (Qabs (fsub stop start) / Qabs (b64 step))))%Z).
  { rewrite <- (Qfloor_Z 1). apply Qfloor_resp_le.
    apply Qle_trans with (b64 (inject_Z 1)); [|apply b64_mono; exact Hq].
    pose proof (is_b64_Z 1 ltac:(reflexivity)) as B. unfold is_b64 in B.
    rewrite B. apply Qle_refl. }
  assert (Hn2 : (2 <= npts)%Z).
  { unfold npts. rewrite npts_rounded. unfold Py.floor. lia. }
  rewrite !linspace_nth by lia.
  assert (HD : ~ inject_Z (npts - 1) == 0).
  { change 0 with (inject_Z 0). rewrite inject_Z_injective. lia. }
  assert (Hk : Qnat (Z.to_nat npts - 1 - i) == inject_Z (npts - 1) - Qnat i).
  { unfold Qnat.
    replace (Z.of_nat (Z.to_nat npts - 1 - i))
      with ((npts - 1) + - Z.of_nat i)%Z by lia.
    rewrite inject_Z_plus, inject_Z_opp. reflexivity. }
  rewrite Hk. field. exact HD.
Qed.

Lemma setpoints_symmetry_witness :
  exists pts back,
    setpoints 0 1 (1 # 2) = inr pts /\
    setpoints 1 0 (1 # 2) = inr back /\
    nth 2 back 0 == nth 0 pts 0.
Proof.
  assert (Hs : ~ (1 # 2) == 0) by discriminate.
  destruct (setpoints_symmetry 0 1 (1 # 2) Hs)
    as (pts & neg & back & Hpts & _ & Hback & _ & _ & _ & Hrev).
  exists pts, back. split; [exact Hpts|]. split; [exact Hback|].
  assert (Hlen : List.length pts = 3%nat).
  { assert (E : setpoints 0 1 (1 # 2) = inr (linspace 0 1 3))
      by (vm_compute; reflexivity).
    rewrite E in Hpts. inversion Hpts; subst pts. reflexivity. }
  assert (Hle : Qabs (b64 (1 # 2)) <= Qabs (fsub 1 0))
    by (vm_compute; discriminate).
  pose proof (Hrev Hle 0%nat ltac:(rewrite Hlen; lia)) as H.
  rewrite Hlen in H. exact H.
Defined.
